(** * Telegram-to-X poster: the discovery, deduplication and caption engine

    A shallow embedding of [src/index.js] (class [TelegramToXPoster]) and the
    properties its specification states about it.

    Conventions of the embedding.
    - A JavaScript string is the list of its UTF-16 code units ([jsstring]).
    - The numbers the engine handles (message ids, dates, sizes, offsets,
      status codes) are integers; they are embedded in [Z].
    - [this] is the record [Poster]; a method that mutates [this] returns the
      new record.  The three state files live in the record [Disk].
    - An [async] method is a tree of calls to the external collaborators
      ([Prog]); the answers of the collaborators are the branches.
    - [JSON.parse] and [JSON.stringify] are embedded concretely, on the
      texts of the state files; a number of a JSON text is kept exact
      (an integer, or a mantissa and a decimal exponent).
    - The clock is read through the call [Clock] or passed as the argument
      [now]; logging is left out, it changes no state.
    - In the loop of [run] the publishing steps (caption rewriting,
      download, upload, cleanup) are calls whose answers are arbitrary;
      [loopBody] is one turn of the loop and [run_loop] the loop.  The
      methods [rewriteCaption], [downloadVideo] and [uploadToTwitter] are
      embedded on their own, the last two over the functions of the
      clients they call. *)

From Stdlib Require Import Decimal DecimalFacts DecimalPos DecimalN DecimalZ.
From Stdlib Require Import NArith ZArith Lia Bool String Ascii List.
Import ListNotations.

Local Open Scope Z_scope.

(* ================================================================== *)
(** * Part I.  Definitions                                              *)
(* ================================================================== *)

(* ------------------------------------------------------------------ *)
(** ** JavaScript strings                                               *)
(* ------------------------------------------------------------------ *)

Abbreviation char := N (only parsing).
Abbreviation jsstring := (list N) (only parsing).

(** A literal of the source, as code units. *)
Definition str (s : string) : jsstring :=
  map N_of_ascii (list_ascii_of_string s).

(** [a === b] on strings. *)
Fixpoint str_eqb (a b : jsstring) : bool :=
  match a, b with
  | [], [] => true
  | x :: a', y :: b' => N.eqb x y && str_eqb a' b'
  | _, _ => false
  end.

(** [s.startsWith(p)]. *)
Fixpoint startsWith (s p : jsstring) {struct p} : bool :=
  match p, s with
  | [], _ => true
  | x :: p', y :: s' => N.eqb x y && startsWith s' p'
  | _ :: _, [] => false
  end.

(** [s.endsWith(p)]. *)
Definition endsWith (s p : jsstring) : bool :=
  startsWith (rev s) (rev p).

(** [s.includes(sub)]: [sub] occurs at some position of [s]. *)
Fixpoint includes (s sub : jsstring) : bool :=
  startsWith s sub ||
  match s with
  | [] => false
  | _ :: s' => includes s' sub
  end.

(** White space and line terminators of ECMAScript, the characters
    [String.prototype.trim] removes. *)
Definition isWhiteSpace (c : char) : bool :=
  existsb (N.eqb c)
    [9; 10; 11; 12; 13; 32; 160; 5760; 8232; 8233; 8239; 8287; 12288; 65279]%N
  || ((8192 <=? c) && (c <=? 8202))%N.

Fixpoint trimStart (s : jsstring) : jsstring :=
  match s with
  | c :: s' => if isWhiteSpace c then trimStart s' else s
  | [] => []
  end.

Definition trimEnd (s : jsstring) : jsstring := rev (trimStart (rev s)).

(** [s.trim()]. *)
Definition trim (s : jsstring) : jsstring := trimEnd (trimStart s).

(** [s.slice(1, -1)]: drop the first and the last code unit. *)
Definition slice_1_m1 (s : jsstring) : jsstring :=
  match s with
  | [] => []
  | _ :: s' => removelast s'
  end.

(** Decimal digits of a numeral. *)
Fixpoint uint_chars (u : Decimal.uint) : jsstring :=
  match u with
  | Nil => []
  | D0 u => 48%N :: uint_chars u
  | D1 u => 49%N :: uint_chars u
  | D2 u => 50%N :: uint_chars u
  | D3 u => 51%N :: uint_chars u
  | D4 u => 52%N :: uint_chars u
  | D5 u => 53%N :: uint_chars u
  | D6 u => 54%N :: uint_chars u
  | D7 u => 55%N :: uint_chars u
  | D8 u => 56%N :: uint_chars u
  | D9 u => 57%N :: uint_chars u
  end.

(** [String(n)] for a non-negative integer. *)
Definition N_to_str (n : N) : jsstring := uint_chars (N.to_uint n).

(** [String(z)] for an integer: an optional minus sign and the digits. *)
Definition Z_to_str (z : Z) : jsstring :=
  match z with
  | Z0 => str "0"
  | Zpos p => N_to_str (Npos p)
  | Zneg p => 45%N :: N_to_str (Npos p)
  end.

(* ------------------------------------------------------------------ *)
(** ** Values of the expressions of [generateVideoId]                   *)
(* ------------------------------------------------------------------ *)

(** The values that flow through [a || b] and a template literal there:
    [undefined], a number, a string. *)
Inductive value : Type :=
| VUndefined
| VNum (z : Z)
| VStr (s : jsstring).

(** [Boolean(v)]. *)
Definition truthy (v : value) : bool :=
  match v with
  | VUndefined => false
  | VNum z => negb (z =? 0)
  | VStr s => match s with [] => false | _ => true end
  end.

(** [a || b]. *)
Definition jor (a b : value) : value := if truthy a then a else b.

(** [`${v}`]. *)
Definition toStr (v : value) : jsstring :=
  match v with
  | VUndefined => str "undefined"
  | VNum z => Z_to_str z
  | VStr s => s
  end.

(** A numeric property that may be absent. *)
Definition prop (x : option Z) : value :=
  match x with
  | Some z => VNum z
  | None => VUndefined
  end.

(** [o?.f]: [undefined] when [o] is absent. *)
Definition optChain {A} (o : option A) (f : A -> option Z) : value :=
  match o with
  | Some a => prop (f a)
  | None => VUndefined
  end.

(* ------------------------------------------------------------------ *)
(** ** Messages of the source stream                                    *)
(* ------------------------------------------------------------------ *)

(** [message.peerId]: the peer of a channel, a chat or a user. *)
Record Peer : Type := {
  channelId : option Z;
  chatId : option Z;
  userId : option Z
}.

(** [message.video]. *)
Record Video : Type := {
  size : option Z;
  duration : option Z
}.

(** A message read from the source. *)
Record Message : Type := {
  id : Z;
  date : Z;
  peerId : option Peer;
  video : option Video;
  message : option jsstring;
  senderId : option Z
}.

Definition underscore : jsstring := str "_".

(** [generateVideoId(message)], lines 267-282. *)
Definition generateVideoId (m : Message) : jsstring :=
  let peerId_ :=
    jor (optChain (peerId m) channelId)
      (jor (optChain (peerId m) chatId)
         (jor (optChain (peerId m) userId)
            (VStr (str "unknown")))) in
  let messageId := VNum (id m) in
  let date_ := VNum (date m) in
  let videoSize := jor (optChain (video m) size) (VNum 0) in
  let videoDuration := jor (optChain (video m) duration) (VNum 0) in
  toStr peerId_ ++ underscore ++ toStr messageId ++ underscore ++
  toStr date_ ++ underscore ++ toStr videoSize ++ underscore ++
  toStr videoDuration.

(* ------------------------------------------------------------------ *)
(** ** JSON values, [JSON.parse] and [JSON.stringify]                   *)
(* ------------------------------------------------------------------ *)

(** A JSON value.  [JNum z] is an integer; [JDec m e] is the non-integer
    [m * 10^e] ([e < 0], [m] not a multiple of ten), kept exact.  An object
    keeps its members in the order of the text. *)
#[local] Unset Elimination Schemes.
Inductive json : Type :=
| JNull
| JBool (b : bool)
| JNum (z : Z)
| JDec (m e : Z)
| JStr (s : jsstring)
| JArr (l : list json)
| JObj (l : list (jsstring * json)).
#[local] Set Elimination Schemes.

(** [Boolean(v)] on a JSON value. *)
Definition truthy_json (v : json) : bool :=
  match v with
  | JNull => false
  | JBool b => b
  | JNum z => negb (z =? 0)
  | JDec _ _ => true
  | JStr s => match s with [] => false | _ => true end
  | JArr _ | JObj _ => true
  end.

(** The last member named [k]: a repeated key keeps its last value. *)
Fixpoint lookup_member (l : list (jsstring * json)) (k : jsstring)
  : option json :=
  match l with
  | [] => None
  | (k', v) :: l' =>
    match lookup_member l' k with
    | Some w => Some w
    | None => if str_eqb k' k then Some v else None
    end
  end.

(** [v.k] for the keys the engine reads ([videoId], [videos], [offset]):
    [None] is the [TypeError] of reading a property of [null];
    [Some None] is [undefined]. *)
Definition member (v : json) (k : jsstring) : option (option json) :=
  match v with
  | JNull => None
  | JObj l => Some (lookup_member l k)
  | _ => Some None
  end.

(** *** Reading *)

Definition is_ws (c : char) : bool :=
  ((c =? 32) || (c =? 9) || (c =? 10) || (c =? 13))%N.

Fixpoint skip_ws (s : jsstring) : jsstring :=
  match s with
  | c :: s' => if is_ws c then skip_ws s' else s
  | [] => []
  end.

Definition is_digit (c : char) : bool := ((48 <=? c) && (c <=? 57))%N.

Definition hex_val (c : char) : option N :=
  if is_digit c then Some (c - 48)%N
  else if ((97 <=? c) && (c <=? 102))%N then Some (c - 87)%N
  else if ((65 <=? c) && (c <=? 70))%N then Some (c - 55)%N
  else None.

Definition hex4 (a b c d : char) : option char :=
  match hex_val a, hex_val b, hex_val c, hex_val d with
  | Some x, Some y, Some z, Some w =>
    Some (x * 4096 + y * 256 + z * 16 + w)%N
  | _, _, _, _ => None
  end.

(** The character a one-letter escape stands for. *)
Definition unescape (e : char) : option char :=
  if (e =? 34)%N then Some 34%N            (* quote *)
  else if (e =? 92)%N then Some 92%N       (* backslash *)
  else if (e =? 47)%N then Some 47%N       (* slash *)
  else if (e =? 98)%N then Some 8%N        (* b *)
  else if (e =? 102)%N then Some 12%N      (* f *)
  else if (e =? 110)%N then Some 10%N      (* n *)
  else if (e =? 114)%N then Some 13%N      (* r *)
  else if (e =? 116)%N then Some 9%N       (* t *)
  else None.

Definition cons_char (c : char) (r : option (jsstring * jsstring))
  : option (jsstring * jsstring) :=
  match r with
  | Some (s, rest) => Some (c :: s, rest)
  | None => None
  end.

(** The characters of a string up to its closing quote, and the rest. *)
Fixpoint parse_chars (s : jsstring) : option (jsstring * jsstring) :=
  match s with
  | [] => None
  | c :: r =>
    if (c =? 34)%N then Some ([], r)
    else if (c =? 92)%N then
      match r with
      | e :: r1 =>
        if (e =? 117)%N then
          match r1 with
          | h1 :: h2 :: h3 :: h4 :: r2 =>
            match hex4 h1 h2 h3 h4 with
            | Some u => cons_char u (parse_chars r2)
            | None => None
            end
          | _ => None
          end
        else
          match unescape e with
          | Some u => cons_char u (parse_chars r1)
          | None => None
          end
      | [] => None
      end
    else if (c <? 32)%N then None
    else cons_char c (parse_chars r)
  end.

Fixpoint take_digits (s : jsstring) : jsstring * jsstring :=
  match s with
  | c :: s' =>
    if is_digit c
    then let (d, rest) := take_digits s' in (c :: d, rest)
    else ([], s)
  | [] => ([], [])
  end.

Definition digit_uint (c : char) (u : Decimal.uint) : Decimal.uint :=
  match (c - 48)%N with
  | 0%N => D0 u | 1%N => D1 u | 2%N => D2 u | 3%N => D3 u | 4%N => D4 u
  | 5%N => D5 u | 6%N => D6 u | 7%N => D7 u | 8%N => D8 u | _ => D9 u
  end.

Fixpoint chars_uint (d : jsstring) : Decimal.uint :=
  match d with
  | [] => Nil
  | c :: d' => digit_uint c (chars_uint d')
  end.

(** The value of a run of digits. *)
Definition digits_val (d : jsstring) : Z := Z.of_N (N.of_uint (chars_uint d)).

(** Drop the trailing zeros of the mantissa of [m * 10^e], [e < 0]. *)
Fixpoint normalize_dec (fuel : nat) (m e : Z) : json :=
  match fuel with
  | O => JDec m e
  | S f =>
    if e >=? 0 then JNum (m * 10 ^ e)
    else if m mod 10 =? 0 then normalize_dec f (m / 10) (e + 1)
    else JDec m e
  end.

(** The number [m * 10^e]. *)
Definition mk_number (m e : Z) : json :=
  if m =? 0 then JNum 0
  else if e >=? 0 then JNum (m * 10 ^ e)
  else normalize_dec (S (Z.to_nat (- e))) m e.

Definition is_nil {A} (l : list A) : bool :=
  match l with [] => true | _ => false end.

(** A number of the JSON grammar: an optional minus sign; the integer
    part, a single zero or digits that do not start with a zero; an optional
    fraction, a dot and at least one digit; an optional exponent, [e] or [E],
    an optional sign and at least one digit. *)
Definition parse_fraction (s : jsstring) : option (jsstring * jsstring) :=
  match s with
  | c :: r =>
    if (c =? 46)%N                                            (* . *)
    then let (fp, rest) := take_digits r in
         if is_nil fp then None else Some (fp, rest)
    else Some ([], s)
  | [] => Some ([], s)
  end.

Definition parse_exponent (s : jsstring) : option (Z * jsstring) :=
  match s with
  | c :: r =>
    if ((c =? 101) || (c =? 69))%N then                       (* e E *)
      let (eneg, r1) :=
        match r with
        | g :: r' =>
          if (g =? 45)%N then (true, r')
          else if (g =? 43)%N then (false, r')
          else (false, r)
        | [] => (false, r)
        end in
      let (ep, rest) := take_digits r1 in
      if is_nil ep then None
      else Some (if eneg then - digits_val ep else digits_val ep, rest)
    else Some (0, s)
  | [] => Some (0, s)
  end.

(** The number after its sign. *)
Definition parse_unsigned (neg : bool) (s : jsstring)
  : option (json * jsstring) :=
  let (ip, s2) := take_digits s in
  match ip with
  | [] => None
  | d :: ds =>
    if (d =? 48)%N && negb (is_nil ds) then None
    else
      match parse_fraction s2 with
      | None => None
      | Some (fp, s3) =>
        match parse_exponent s3 with
        | None => None
        | Some (ex, rest) =>
          let m := digits_val (ip ++ fp) in
          Some (mk_number (if neg then - m else m)
                          (ex - Z.of_nat (length fp)), rest)
        end
      end
  end.

Definition parse_number (s : jsstring) : option (json * jsstring) :=
  match s with
  | c :: r =>
    if (c =? 45)%N then parse_unsigned true r                 (* - *)
    else parse_unsigned false s
  | [] => None
  end.

(** A literal name ([true], [false], [null]) at the head of the text. *)
Definition parse_literal (lit : jsstring) (v : json) (s : jsstring)
  : option (json * jsstring) :=
  if startsWith s lit then Some (v, skipn (length lit) s) else None.

(** A value, then for an array its elements and for an object its members.
    [fuel] bounds the nesting of the calls; [JSON_parse] gives enough. *)
Fixpoint parse_value (fuel : nat) (s : jsstring) {struct fuel}
  : option (json * jsstring) :=
  match fuel with
  | O => None
  | S f =>
    match skip_ws s with
    | [] => None
    | c :: r =>
      if (c =? 123)%N then                                   (* { *)
        match skip_ws r with
        | c' :: r' =>
          if (c' =? 125)%N then Some (JObj [], r')            (* } *)
          else match parse_members f r with
               | Some (ms, rest) => Some (JObj ms, rest)
               | None => None
               end
        | [] => None
        end
      else if (c =? 91)%N then                               (* [ *)
        match skip_ws r with
        | c' :: r' =>
          if (c' =? 93)%N then Some (JArr [], r')             (* ] *)
          else match parse_elements f r with
               | Some (vs, rest) => Some (JArr vs, rest)
               | None => None
               end
        | [] => None
        end
      else if (c =? 34)%N then                               (* quote *)
        match parse_chars r with
        | Some (x, rest) => Some (JStr x, rest)
        | None => None
        end
      else if (c =? 116)%N then parse_literal (str "true") (JBool true) (c :: r)
      else if (c =? 102)%N then parse_literal (str "false") (JBool false) (c :: r)
      else if (c =? 110)%N then parse_literal (str "null") JNull (c :: r)
      else parse_number (c :: r)
    end
  end
with parse_elements (fuel : nat) (s : jsstring) {struct fuel}
  : option (list json * jsstring) :=
  match fuel with
  | O => None
  | S f =>
    match parse_value f s with
    | Some (v, r) =>
      match skip_ws r with
      | c :: r' =>
        if (c =? 44)%N then                                  (* , *)
          match parse_elements f r' with
          | Some (vs, rest) => Some (v :: vs, rest)
          | None => None
          end
        else if (c =? 93)%N then Some ([v], r')               (* ] *)
        else None
      | [] => None
      end
    | None => None
    end
  end
with parse_members (fuel : nat) (s : jsstring) {struct fuel}
  : option (list (jsstring * json) * jsstring) :=
  match fuel with
  | O => None
  | S f =>
    match skip_ws s with
    | q :: r0 =>
      if (q =? 34)%N then
        match parse_chars r0 with
        | Some (k, r1) =>
          match skip_ws r1 with
          | c1 :: r2 =>
            if (c1 =? 58)%N then                             (* : *)
              match parse_value f r2 with
              | Some (v, r3) =>
                match skip_ws r3 with
                | c :: r' =>
                  if (c =? 44)%N then
                    match parse_members f r' with
                    | Some (ms, rest) => Some ((k, v) :: ms, rest)
                    | None => None
                    end
                  else if (c =? 125)%N then Some ([(k, v)], r')
                  else None
                | [] => None
                end
              | None => None
              end
            else None
          | [] => None
          end
        | None => None
        end
      else None
    | [] => None
    end
  end.

(** [JSON.parse(text)]; [None] is the [SyntaxError]. *)
Definition JSON_parse (text : jsstring) : option json :=
  match parse_value (2 * length text + 2) text with
  | Some (v, rest) => if is_nil (skip_ws rest) then Some v else None
  | None => None
  end.

(** *** Writing *)

Fixpoint join (sep : jsstring) (parts : list jsstring) : jsstring :=
  match parts with
  | [] => []
  | p :: rest =>
    match rest with
    | [] => p
    | _ :: _ => p ++ sep ++ join sep rest
    end
  end.

Definition hex_digit (n : N) : char :=
  if (n <? 10)%N then (48 + n)%N else (87 + n)%N.

(** [\uXXXX], in lower case. *)
Definition unicode_escape (c : char) : jsstring :=
  [92; 117; hex_digit (c / 4096 mod 16); hex_digit (c / 256 mod 16);
   hex_digit (c / 16 mod 16); hex_digit (c mod 16)]%N.

Definition is_high_surrogate (c : char) : bool :=
  ((55296 <=? c) && (c <=? 56319))%N.
Definition is_low_surrogate (c : char) : bool :=
  ((56320 <=? c) && (c <=? 57343))%N.

(** One code unit that is not part of a surrogate pair, quoted. *)
Definition quote_char (c : char) : jsstring :=
  if (c =? 8)%N then str "\b"
  else if (c =? 9)%N then str "\t"
  else if (c =? 10)%N then str "\n"
  else if (c =? 12)%N then str "\f"
  else if (c =? 13)%N then str "\r"
  else if (c =? 34)%N then [92; 34]%N
  else if (c =? 92)%N then [92; 92]%N
  else if (c <? 32)%N then unicode_escape c
  else if is_high_surrogate c || is_low_surrogate c then unicode_escape c
  else [c].

(** The characters of a string, quoted as [JSON.stringify] does: a
    surrogate pair is kept, a lone surrogate is escaped. *)
Fixpoint quote_chars (s : jsstring) : jsstring :=
  match s with
  | [] => []
  | c :: r =>
    match r with
    | d :: r' =>
      if is_high_surrogate c && is_low_surrogate d
      then c :: d :: quote_chars r'
      else quote_char c ++ quote_chars r
    | [] => quote_char c
    end
  end.

Definition quote (s : jsstring) : jsstring :=
  34%N :: quote_chars s ++ [34%N].

(** A number as text.  A non-integer is written in exponent form (the
    engine never writes one of its own). *)
Definition number_text (m e : Z) : jsstring :=
  Z_to_str m ++ str "e" ++ Z_to_str e.

(** [JSON.stringify(v)]. *)
Fixpoint stringify (v : json) : jsstring :=
  match v with
  | JNull => str "null"
  | JBool true => str "true"
  | JBool false => str "false"
  | JNum z => Z_to_str z
  | JDec m e => number_text m e
  | JStr s => quote s
  | JArr l => str "[" ++ join (str ",") (map stringify l) ++ str "]"
  | JObj l =>
    str "{" ++
    join (str ",")
      (map (fun kv => quote (fst kv) ++ str ":" ++ stringify (snd kv)) l)
    ++ str "}"
  end.

Definition spaces (n : nat) : jsstring := repeat 32%N n.
Definition newline : jsstring := [10%N].

(** [JSON.stringify(v, null, 2)] at indentation [ind]. *)
Fixpoint stringify_indented (ind : nat) (v : json) : jsstring :=
  match v with
  | JArr [] => str "[]"
  | JArr l =>
    str "[" ++ newline ++
    join (str "," ++ newline)
      (map (fun x => spaces (ind + 2) ++ stringify_indented (ind + 2) x) l)
    ++ newline ++ spaces ind ++ str "]"
  | JObj [] => str "{}"
  | JObj l =>
    str "{" ++ newline ++
    join (str "," ++ newline)
      (map (fun kv => spaces (ind + 2) ++ quote (fst kv) ++ str ": " ++
                      stringify_indented (ind + 2) (snd kv)) l)
    ++ newline ++ spaces ind ++ str "}"
  | _ => stringify v
  end.

Definition JSON_stringify_2 (v : json) : jsstring := stringify_indented 0 v.

(** [String(v)], the conversion [JSON.parse] applies to an argument that
    is not a string. *)
Fixpoint ToString (v : json) : jsstring :=
  match v with
  | JNull => str "null"
  | JBool true => str "true"
  | JBool false => str "false"
  | JNum z => Z_to_str z
  | JDec m e => number_text m e
  | JStr s => s
  | JArr l =>
    join (str ",")
      (map (fun x => match x with JNull => [] | _ => ToString x end) l)
  | JObj _ => str "[object Object]"
  end.

(* ------------------------------------------------------------------ *)
(** ** [Set]: insertion-ordered, compared with SameValueZero            *)
(* ------------------------------------------------------------------ *)

(** SameValueZero on values read from JSON: primitives by value; two
    arrays or objects are distinct references, never the same value. *)
Definition sameValueZero (a b : json) : bool :=
  match a, b with
  | JNull, JNull => true
  | JBool x, JBool y => Bool.eqb x y
  | JNum x, JNum y => x =? y
  | JDec m e, JDec m' e' => (m =? m') && (e =? e')
  | JStr x, JStr y => str_eqb x y
  | _, _ => false
  end.

Definition jsset := list json.

(** [s.has(x)]. *)
Definition set_has (s : jsset) (x : json) : bool :=
  existsb (sameValueZero x) s.

(** [s.add(x)]. *)
Definition set_add (s : jsset) (x : json) : jsset :=
  if set_has s x then s else s ++ [x].

(** [new Set(xs)]. *)
Definition new_Set (xs : list json) : jsset := fold_left set_add xs [].

(** The code points of a string, as the string iterator yields them. *)
Fixpoint code_points (s : jsstring) : list jsstring :=
  match s with
  | [] => []
  | c :: r =>
    match r with
    | d :: r' =>
      if is_high_surrogate c && is_low_surrogate d
      then [c; d] :: code_points r'
      else [c] :: code_points r
    | [] => [[c]]
    end
  end.

(** The elements [new Set(v)] iterates; [None] is the [TypeError] of a value
    that is not iterable. *)
Definition iterate (v : json) : option (list json) :=
  match v with
  | JArr l => Some l
  | JStr s => Some (map JStr (code_points s))
  | _ => None
  end.

(** [v || []] where [v] may be [undefined]. *)
Definition or_empty_array (v : option json) : json :=
  match v with
  | Some x => if truthy_json x then x else JArr []
  | None => JArr []
  end.

(* ------------------------------------------------------------------ *)
(** ** The state files and the state of the poster                      *)
(* ------------------------------------------------------------------ *)

(** The three state files ([None]: the file does not exist) and whether
    [fs.writeFileSync] succeeds. *)
Record Disk : Type := {
  processedVideosFile : option jsstring;
  offsetFile : option jsstring;
  failedVideosFile : option jsstring;
  writable : bool
}.

(** The fields of [this] the engine reads and writes. *)
Record Poster : Type := {
  groupName : jsstring;
  processedVideos : jsset;
  failedVideos : jsset;
  currentOffset : Z;
  disk : Disk
}.

Definition bind_opt {A B} (x : option A) (f : A -> option B) : option B :=
  match x with
  | Some a => f a
  | None => None
  end.

Notation "x <- e ;; k" := (bind_opt e (fun x => k))
  (at level 61, e at next level, right associativity).

(** The body shared by [loadProcessedVideos] and [loadFailedVideos]: the
    [try] block run on the content of the file; [None] is an exception. *)
Definition read_video_set (data : jsstring) : option jsset :=
  parsed <- JSON_parse data ;;
  match parsed with
  | JArr l => Some (new_Set l)                 (* Array.isArray: old format *)
  | _ =>
    videos <- member parsed (str "videos") ;;
    xs <- iterate (or_empty_array videos) ;;
    Some (new_Set xs)
  end.

(** [loadProcessedVideos()], lines 114-139. *)
Definition loadProcessedVideos (d : Disk) : jsset :=
  match processedVideosFile d with
  | Some data =>
    match read_video_set data with
    | Some videoSet => videoSet
    | None => new_Set []                        (* catch, then fall through *)
    end
  | None => new_Set []
  end.

(** [loadFailedVideos()], lines 193-216. *)
Definition loadFailedVideos (d : Disk) : jsset :=
  match failedVideosFile d with
  | Some data =>
    match read_video_set data with
    | Some videoSet => videoSet
    | None => new_Set []
    end
  | None => new_Set []
  end.

(** [offsetData.offset || 0].  The cursor file holds an integer offset;
    a truthy offset of another type is outside the embedding and reads as
    the default. *)
Definition offset_or_zero (v : option json) : Z :=
  match v with
  | Some (JNum z) => z
  | _ => 0
  end.

(** [loadOffset()], lines 161-175. *)
Definition loadOffset (d : Disk) : Z :=
  match offsetFile d with
  | Some data =>
    match (offsetData <- JSON_parse data ;;
           offset <- member offsetData (str "offset") ;;
           Some (offset_or_zero offset)) with
    | Some n => n
    | None => 0                                 (* catch, then fall through *)
    end
  | None => 0
  end.

(** The constructor, lines 43-45. *)
Definition newPoster (group : jsstring) (d : Disk) : Poster :=
  {| groupName := group;
     processedVideos := loadProcessedVideos d;
     failedVideos := loadFailedVideos d;
     currentOffset := loadOffset d;
     disk := d |}.

Inductive StateFile : Type := ProcessedFile | OffsetFile | FailedFile.

(** [fs.writeFileSync(file, text)]; [None] when the write throws. *)
Definition writeFileSync (d : Disk) (f : StateFile) (text : jsstring)
  : option Disk :=
  if writable d then
    Some match f with
         | ProcessedFile =>
           {| processedVideosFile := Some text; offsetFile := offsetFile d;
              failedVideosFile := failedVideosFile d; writable := writable d |}
         | OffsetFile =>
           {| processedVideosFile := processedVideosFile d;
              offsetFile := Some text;
              failedVideosFile := failedVideosFile d; writable := writable d |}
         | FailedFile =>
           {| processedVideosFile := processedVideosFile d;
              offsetFile := offsetFile d;
              failedVideosFile := Some text; writable := writable d |}
         end
  else None.

Definition with_disk (st : Poster) (d : Disk) : Poster :=
  {| groupName := groupName st; processedVideos := processedVideos st;
     failedVideos := failedVideos st; currentOffset := currentOffset st;
     disk := d |}.

Definition set_size (s : jsset) : Z := Z.of_nat (length s).

(** [saveProcessedVideos()], lines 141-159; [now] is the clock reading. *)
Definition saveProcessedVideos (now : jsstring) (st : Poster) : Poster :=
  let dataToSave :=
    JObj [(str "lastUpdated", JStr now);
          (str "totalProcessed", JNum (set_size (processedVideos st)));
          (str "videos", JArr (processedVideos st))] in
  match writeFileSync (disk st) ProcessedFile (JSON_stringify_2 dataToSave) with
  | Some d => with_disk st d
  | None => st                                  (* catch: logged *)
  end.

(** [offsetData], lines 179-183. *)
Definition offsetData_of (newOffset : Z) (now : jsstring) (total : Z) : json :=
  JObj [(str "offset", JNum newOffset);
        (str "lastUpdated", JStr now);
        (str "totalProcessed", JNum total)].

(** [saveOffset(newOffset)], lines 177-191. *)
Definition saveOffset (now : jsstring) (newOffset : Z) (st : Poster) : Poster :=
  let offsetData :=
    offsetData_of newOffset now (set_size (processedVideos st)) in
  match writeFileSync (disk st) OffsetFile (JSON_stringify_2 offsetData) with
  | Some d =>
    {| groupName := groupName st; processedVideos := processedVideos st;
       failedVideos := failedVideos st; currentOffset := newOffset;
       disk := d |}
  | None => st                                  (* catch: logged *)
  end.

(** [saveFailedVideos()], lines 218-234. *)
Definition saveFailedVideos (now : jsstring) (st : Poster) : Poster :=
  let dataToSave :=
    JObj [(str "lastUpdated", JStr now);
          (str "totalFailed", JNum (set_size (failedVideos st)));
          (str "videos", JArr (failedVideos st))] in
  match writeFileSync (disk st) FailedFile (JSON_stringify_2 dataToSave) with
  | Some d => with_disk st d
  | None => st
  end.

(* ------------------------------------------------------------------ *)
(** ** Failed videos                                                    *)
(* ------------------------------------------------------------------ *)

Module Err.
(** An error thrown by a collaborator: its message and its status code,
    when it carries one. *)
Record Error : Type := {
  message : jsstring;
  code : option Z
}.
End Err.

(** [failedRecord === videoId], for a string [videoId]. *)
Definition is_string (v : json) (s : jsstring) : bool :=
  match v with
  | JStr x => str_eqb x s
  | _ => false
  end.

(** The body of the loop of [isVideoFailed] on one entry: [true] when the
    entry makes the method return [true]. *)
Definition failedRecord_matches (failedRecord : json) (videoId : jsstring)
  : bool :=
  match (record <- JSON_parse (ToString failedRecord) ;;
         member record (str "videoId")) with
  | Some field =>
    match field with
    | Some v => is_string v videoId             (* record.videoId === videoId *)
    | None => false
    end
  | None => is_string failedRecord videoId      (* catch: legacy entry *)
  end.

(** [isVideoFailed(videoId)], lines 249-265. *)
Definition isVideoFailed (st : Poster) (videoId : jsstring) : bool :=
  existsb (fun failedRecord => failedRecord_matches failedRecord videoId)
          (failedVideos st).

(** The record [addFailedVideo] encodes. *)
Definition failureRecord (videoId reason timestamp : jsstring)
  (error : option Err.Error) : json :=
  JObj [(str "videoId", JStr videoId);
        (str "reason", JStr reason);
        (str "timestamp", JStr timestamp);
        (str "error", match error with
                      | Some e => JStr (Err.message e)
                      | None => JNull
                      end)].

(** [addFailedVideo(videoId, reason, error)], lines 236-247; [now] is the
    clock read for the record and [now'] the one read when saving. *)
Definition addFailedVideo (now now' : jsstring) (videoId reason : jsstring)
  (error : option Err.Error) (st : Poster) : Poster :=
  let entry := JStr (stringify (failureRecord videoId reason now error)) in
  saveFailedVideos now'
    {| groupName := groupName st; processedVideos := processedVideos st;
       failedVideos := set_add (failedVideos st) entry;
       currentOffset := currentOffset st; disk := disk st |}.

(** [this.processedVideos.add(videoId); this.saveProcessedVideos()],
    lines 715-716. *)
Definition markProcessed (now : jsstring) (videoId : jsstring) (st : Poster)
  : Poster :=
  saveProcessedVideos now
    {| groupName := groupName st;
       processedVideos := set_add (processedVideos st) (JStr videoId);
       failedVideos := failedVideos st;
       currentOffset := currentOffset st; disk := disk st |}.

(* ------------------------------------------------------------------ *)
(** ** The failure reason of an error, lines 730-756                    *)
(* ------------------------------------------------------------------ *)

(** [uploadError.code === n]. *)
Definition code_is (e : Err.Error) (n : Z) : bool :=
  match Err.code e with
  | Some c => c =? n
  | None => false
  end.

(** [uploadError.code >= n]. *)
Definition code_ge (e : Err.Error) (n : Z) : bool :=
  match Err.code e with
  | Some c => n <=? c
  | None => false
  end.

(** [uploadError.code < n]. *)
Definition code_lt (e : Err.Error) (n : Z) : bool :=
  match Err.code e with
  | Some c => c <? n
  | None => false
  end.

(** [`${uploadError.code}`]. *)
Definition code_text (e : Err.Error) : jsstring := toStr (prop (Err.code e)).

(** The chain of tests that sets [failureReason]. *)
Definition failureReason (uploadError : Err.Error) : jsstring :=
  let msg := Err.message uploadError in
  if includes msg (str "video longer than") then
    str "Video too long (>2 minutes)"
  else if includes msg (str "Forbidden") || code_is uploadError 403 then
    str "Twitter API forbidden (video restrictions)"
  else if includes msg (str "too large") || includes msg (str "file size") then
    str "Video file too large"
  else if includes msg (str "format") || includes msg (str "codec") then
    str "Unsupported video format"
  else if code_is uploadError 429 then
    str "Rate limit exceeded"
  else if code_ge uploadError 400 && code_lt uploadError 500 then
    str "Client error: " ++ code_text uploadError
  else if code_ge uploadError 500 then
    str "Server error: " ++ code_text uploadError
  else
    str "Unknown upload error".

(** The [catch] block of the loop of [run] when a message was found,
    lines 727-760: classify the error and record the failure. *)
Definition recordFailure (now now' : jsstring) (videoMessage : Message)
  (uploadError : Err.Error) (st : Poster) : Poster :=
  let videoId := generateVideoId videoMessage in
  addFailedVideo now now' videoId (failureReason uploadError)
    (Some uploadError) st.

(** *** The taxonomy of the specification *)

Inductive ReasonCategory : Type :=
| DurationExceeded
| SizeExceeded
| ForbiddenPermission
| UnsupportedFormat
| RateLimited
| ClientError
| ServerError
| UnknownReason.

(** When an error matches a category: the test the source makes for it. *)
Definition matches_category (c : ReasonCategory) (e : Err.Error) : bool :=
  let msg := Err.message e in
  match c with
  | DurationExceeded => includes msg (str "video longer than")
  | SizeExceeded => includes msg (str "too large") || includes msg (str "file size")
  | ForbiddenPermission => includes msg (str "Forbidden") || code_is e 403
  | UnsupportedFormat => includes msg (str "format") || includes msg (str "codec")
  | RateLimited => code_is e 429
  | ClientError => code_ge e 400 && code_lt e 500
  | ServerError => code_ge e 500
  | UnknownReason => true
  end.

(** The reason text the source stores for a category. *)
Definition reason_text (c : ReasonCategory) (e : Err.Error) : jsstring :=
  match c with
  | DurationExceeded => str "Video too long (>2 minutes)"
  | SizeExceeded => str "Video file too large"
  | ForbiddenPermission => str "Twitter API forbidden (video restrictions)"
  | UnsupportedFormat => str "Unsupported video format"
  | RateLimited => str "Rate limit exceeded"
  | ClientError => str "Client error: " ++ code_text e
  | ServerError => str "Server error: " ++ code_text e
  | UnknownReason => str "Unknown upload error"
  end.

(** The first category of a priority list that the error matches. *)
Fixpoint first_match (order : list ReasonCategory) (e : Err.Error)
  : ReasonCategory :=
  match order with
  | [] => UnknownReason
  | c :: rest => if matches_category c e then c else first_match rest e
  end.

(** The priority order as the specification words it (section 4.6). *)
Definition spec_priority : list ReasonCategory :=
  [DurationExceeded; SizeExceeded; ForbiddenPermission; UnsupportedFormat;
   RateLimited; ClientError; ServerError; UnknownReason].

(** The priority order of the tests in the source. *)
Definition code_priority : list ReasonCategory :=
  [DurationExceeded; ForbiddenPermission; SizeExceeded; UnsupportedFormat;
   RateLimited; ClientError; ServerError; UnknownReason].


(* ------------------------------------------------------------------ *)
(** ** Asynchronous methods: trees of calls to the collaborators        *)
(* ------------------------------------------------------------------ *)

(** What an awaited call gives: a value, or a thrown error. *)
Inductive Result (A : Type) : Type :=
| Ok (a : A)
| Failed (e : Err.Error).
Arguments Ok {A} a.
Arguments Failed {A} e.

(** The entity [getEntity] resolves; the engine reads its title for a log. *)
Record Entity : Type := { title : option jsstring }.

(** The argument of [chat.completions.create]. *)
Record ChatRequest : Type := {
  model : jsstring;
  systemContent : jsstring;
  userContent : jsstring;
  max_tokens : Z;
  temperature : json
}.

(** What [iterMessages] yields to the [for await] loop: messages, then the
    end of the iteration or an error. *)
Record Page : Type := {
  yielded : list Message;
  iterError : option Err.Error
}.

(** The calls to the collaborators, with the type of their answers.
    [ChatCompletion] answers the content of the first choice ([None]: there
    is none to read); the last four are the collaborators the specification
    keeps at their interface; [RewriteCaption] and [Cleanup] never throw. *)
Inductive Call : Type -> Type :=
| GetEntity (name : jsstring) : Call (Result Entity)
| IterMessages (entity : Entity) (limit : Z) (offsetId : option Z)
  : Call Page
| GetMessages (entity : Entity) (ids : list Z)
  : Call (Result (list (option Message)))
| ChatCompletion (request : ChatRequest) : Call (Result (option jsstring))
| Clock : Call jsstring
| RewriteCaption (caption : jsstring) : Call jsstring
| DownloadVideo (m : Message) : Call (Result jsstring)
| UploadToTwitter (videoPath caption : jsstring) : Call (Result unit)
| Cleanup (videoPath : jsstring) : Call unit.

(** An asynchronous computation: it returns, throws, or makes a call and
    goes on with the answer. *)
Inductive Prog (A : Type) : Type :=
| Ret (a : A)
| Throw (e : Err.Error)
| Do (R : Type) (c : Call R) (k : R -> Prog A).
Arguments Ret {A} a.
Arguments Throw {A} e.
Arguments Do {A R} c k.

Fixpoint bind {A B} (p : Prog A) (f : A -> Prog B) : Prog B :=
  match p with
  | Ret a => f a
  | Throw e => Throw e
  | Do c k => Do c (fun r => bind (k r) f)
  end.

Notation "'let*' x ':=' p 'in' k" := (bind p (fun x => k))
  (at level 10, x name, p at level 200, k at level 200).

(** [try { p } catch (error) { h error }]. *)
Fixpoint try_catch {A} (p : Prog A) (h : Err.Error -> Prog A) : Prog A :=
  match p with
  | Ret a => Ret a
  | Throw e => h e
  | Do c k => Do c (fun r => try_catch (k r) h)
  end.

(** [await] of a call that may throw. *)
Definition await {R} (c : Call (Result R)) : Prog R :=
  Do c (fun r => match r with
                 | Ok a => Ret a
                 | Failed e => Throw e
                 end).

(** [await] of a call that does not throw. *)
Definition perform {R} (c : Call R) : Prog R := Do c (fun r => Ret r).

(** How a computation ends. *)
Inductive Outcome (A : Type) : Type :=
| Returned (a : A)
| Thrown (e : Err.Error).
Arguments Returned {A} a.
Arguments Thrown {A} e.

(** [evals p o]: for some answers of the collaborators, [p] ends as [o]. *)
Fixpoint evals {A} (p : Prog A) (o : Outcome A) : Prop :=
  match p with
  | Ret a => o = Returned a
  | Throw e => o = Thrown e
  | Do c k => exists r, evals (k r) o
  end.

(** An environment answers every call. *)
Definition Env := forall R, Call R -> R.

(** Run against an environment. *)
Fixpoint exec {A} (env : Env) (p : Prog A) : Outcome A :=
  match p with
  | Ret a => Returned a
  | Throw e => Thrown e
  | Do c k => exec env (k (env _ c))
  end.

(** The calls a computation makes against an environment, in order. *)
Inductive AnyCall : Type := a_call (R : Type) (c : Call R).
Arguments a_call {R} c.

Fixpoint calls_made {A} (env : Env) (p : Prog A) : list AnyCall :=
  match p with
  | Ret _ | Throw _ => []
  | Do c k => a_call c :: calls_made env (k (env _ c))
  end.

(* ------------------------------------------------------------------ *)
(** ** The batch scanner, lines 284-355                                 *)
(* ------------------------------------------------------------------ *)

Definition batchSize : Z := 50.

(** The test of lines 308-311: the video is neither processed nor failed. *)
Definition unresolved (st : Poster) (m : Message) : bool :=
  let videoId := generateVideoId m in
  negb (set_has (processedVideos st) (JStr videoId)) &&
  negb (isVideoFailed st videoId).

(** The body of the [for await] loop over the messages of the page: the
    first message that passes the test, if any. *)
Fixpoint scan (st : Poster) (page : list Message) : option Message :=
  match page with
  | [] => None
  | m :: rest => if unresolved st m then Some m else scan st rest
  end.

(** [offsetId: this.currentOffset > 0 ? this.currentOffset : undefined],
    line 301. *)
Definition offsetId_of (st : Poster) : option Z :=
  if currentOffset st >? 0 then Some (currentOffset st) else None.

(** [findOldestUnprocessedVideo()].  The source is asked for the videos
    only, oldest first, [batchSize] at most, from [offsetId].  The [catch]
    block logs the error and throws it again. *)
Definition findOldestUnprocessedVideo (st : Poster)
  : Prog (option Message * Poster) :=
  try_catch
    (let* entity := await (GetEntity (groupName st)) in
     let* page :=
       perform (IterMessages entity batchSize (offsetId_of st)) in
     match scan st (yielded page) with
     | Some m => Ret (Some m, st)
     | None =>
       match iterError page with
       | Some error => Throw error
       | None =>
         let newOffset := currentOffset st + batchSize in
         let* now := perform Clock in
         Ret (None, saveOffset now newOffset st)
       end
     end)
    (fun error => Throw error).

(* ------------------------------------------------------------------ *)
(** ** The caption resolver, lines 357-526                              *)
(* ------------------------------------------------------------------ *)

Inductive Position : Type := before | after.

Definition position_text (p : Position) : jsstring :=
  match p with
  | before => str "before"
  | after => str "after"
  end.

Module Ctx.
(** An entry of the context window, lines 397-404. *)
Record ContextMessage : Type := {
  id : Z;
  text : jsstring;
  senderId : option Z;
  date : Z;
  position : Position;
  timeDiff : Z
}.
End Ctx.

(** [a === b] on sender identifiers, [undefined] included. *)
Definition sender_eqb (a b : option Z) : bool :=
  match a, b with
  | Some x, Some y => x =? y
  | None, None => true
  | _, _ => false
  end.

(** A string is truthy when it is not empty. *)
Definition nonempty (s : jsstring) : bool := negb (is_nil s).

(** [msg && msg.id !== videoMessage.id && msg.message && msg.message.trim()],
    lines 391-395. *)
Definition keeps (videoMessage : Message) (msg : option Message) : bool :=
  match msg with
  | Some m =>
    negb (id m =? id videoMessage) &&
    match message m with
    | Some t => nonempty t && nonempty (trim t)
    | None => false
    end
  | None => false
  end.

(** The entry built for a kept message. *)
Definition context_of (videoMessage m : Message) : Ctx.ContextMessage :=
  {| Ctx.id := id m;
     Ctx.text := match message m with Some t => trim t | None => [] end;
     Ctx.senderId := senderId m;
     Ctx.date := date m;
     Ctx.position := if id m <? id videoMessage then before else after;
     Ctx.timeDiff := Z.abs (date videoMessage - date m) |}.

(** [.sort((a, b) => a.id - b.id)]: a stable sort on the identifier. *)
Fixpoint insert_by_id (x : Ctx.ContextMessage) (l : list Ctx.ContextMessage)
  : list Ctx.ContextMessage :=
  match l with
  | [] => [x]
  | y :: l' =>
    if Ctx.id x <=? Ctx.id y then x :: l else y :: insert_by_id x l'
  end.

Definition sort_by_id (l : list Ctx.ContextMessage)
  : list Ctx.ContextMessage :=
  fold_right insert_by_id [] l.

(** The window built from the fetched messages, lines 389-405. *)
Definition contextMessages_of (videoMessage : Message)
  (surroundingMessages : list (option Message)) : list Ctx.ContextMessage :=
  let kept :=
    flat_map (fun msg =>
                match msg with
                | Some m => if keeps videoMessage msg then [m] else []
                | None => []
                end) surroundingMessages in
  sort_by_id (map (context_of videoMessage) kept).

(** *** The prompt of the ranking call *)

Definition pad (width : nat) (s : jsstring) : jsstring :=
  repeat 48%N (width - length s) ++ s.

(** Year, month and day of a day number counted from 1970-01-01. *)
Definition civil_from_days (z : Z) : Z * Z * Z :=
  let z := z + 719468 in
  let era := z / 146097 in
  let doe := z - era * 146097 in
  let yoe := (doe - doe / 1460 + doe / 36524 - doe / 146096) / 365 in
  let y := yoe + era * 400 in
  let doy := doe - (365 * yoe + yoe / 4 - yoe / 100) in
  let mp := (5 * doy + 2) / 153 in
  let d := doy - (153 * mp + 2) / 5 + 1 in
  let m := if mp <? 10 then mp + 3 else mp - 9 in
  (if m <=? 2 then y + 1 else y, m, d).

(** [new Date(ms).toISOString()]; [None] is the [RangeError] of a time value
    out of the range of [Date]. *)
Definition toISOString (ms : Z) : option jsstring :=
  if Z.abs ms <=? 8640000000000000 then
    let r := ms mod 86400000 in
    let '(y, m, d) := civil_from_days (ms / 86400000) in
    let year :=
      if (0 <=? y) && (y <=? 9999) then pad 4 (Z_to_str y)
      else (if y <? 0 then str "-" else str "+") ++ pad 6 (Z_to_str (Z.abs y)) in
    Some (year ++ str "-" ++ pad 2 (Z_to_str m) ++ str "-" ++
          pad 2 (Z_to_str d) ++ str "T" ++
          pad 2 (Z_to_str (r / 3600000)) ++ str ":" ++
          pad 2 (Z_to_str (r / 60000 mod 60)) ++ str ":" ++
          pad 2 (Z_to_str (r / 1000 mod 60)) ++ str "." ++
          pad 3 (Z_to_str (r mod 1000)) ++ str "Z")
  else None.

Definition dquote : jsstring := [34%N].
Definition squote : jsstring := [39%N].

(** A line of [messageContext], lines 442-443. *)
Definition context_line (msg : Ctx.ContextMessage) : jsstring :=
  str "Message " ++ Z_to_str (Ctx.id msg) ++ str " (" ++
  position_text (Ctx.position msg) ++ str " video, " ++
  Z_to_str (Ctx.timeDiff msg) ++ str "s apart): " ++
  dquote ++ Ctx.text msg ++ dquote.

(** The prompt, lines 447-460; [None] when the date cannot be formatted. *)
Definition prompt_of (videoMessage : Message)
  (contextMessages : list Ctx.ContextMessage) : option jsstring :=
  let messageContext := join newline (map context_line contextMessages) in
  videoDate <- toISOString (date videoMessage * 1000) ;;
  Some (str "I have a video message and several surrounding text messages. Help me identify which message, if any, would be the best caption for this video.

Video Message ID: " ++ Z_to_str (id videoMessage) ++ str "
Video Date: " ++ videoDate ++ str "

Surrounding Messages:
" ++ messageContext ++ str "

Please analyze these messages and determine:
1. Which message (if any) is most likely to be a caption for the video
2. Consider factors like: timing proximity, sender relationship, content relevance, typical social media posting patterns

Respond with ONLY the exact text of the most relevant message, or NONE if no message seems relevant as a caption.
Do not add any explanation, formatting, or quotation marks - just the raw message text or NONE.").

Definition ranking_request (prompt : jsstring) : ChatRequest :=
  {| model := str "gpt-4o-mini";
     systemContent := str "You are an expert at analyzing social media message patterns to identify captions for videos. You understand timing, context, and typical posting behaviors.";
     userContent := prompt;
     max_tokens := 150;
     temperature := JDec 3 (-1) |}.

(** Lines 479-487: trim the answer and remove surrounding quotes. *)
Definition clean_response (content : jsstring) : jsstring :=
  let aiResponse := trim content in
  if (startsWith aiResponse dquote && endsWith aiResponse dquote) ||
     (startsWith aiResponse squote && endsWith aiResponse squote)
  then trim (slice_1_m1 aiResponse)
  else aiResponse.

(** The test of lines 494-499: the answer equals the text of the entry,
    is part of it, or contains it. *)
Definition matches_entry (aiResponse : jsstring) (msg : Ctx.ContextMessage)
  : bool :=
  str_eqb (Ctx.text msg) aiResponse ||
  includes (Ctx.text msg) aiResponse ||
  includes aiResponse (Ctx.text msg).

(** The test of lines 511-513 and 521-523: same sender, less than five
    minutes apart. *)
Definition fallback_candidate (videoMessage : Message)
  (msg : Ctx.ContextMessage) : bool :=
  sender_eqb (Ctx.senderId msg) (senderId videoMessage) &&
  (Ctx.timeDiff msg <? 300).

(** [fallbackMessage ? fallbackMessage.text : ""]. *)
Definition fallback_caption (videoMessage : Message)
  (contextMessages : list Ctx.ContextMessage) : jsstring :=
  match find (fallback_candidate videoMessage) contextMessages with
  | Some fallbackMessage => Ctx.text fallbackMessage
  | None => []
  end.

(** What [findRelevantCaption] does with the content of the answer,
    lines 479-515. *)
Definition select_caption (videoMessage : Message)
  (contextMessages : list Ctx.ContextMessage) (content : jsstring)
  : jsstring :=
  let aiResponse := clean_response content in
  if str_eqb aiResponse (str "NONE") || is_nil aiResponse then []
  else
    match find (matches_entry aiResponse) contextMessages with
    | Some matchingMessage => aiResponse
    | None => fallback_caption videoMessage contextMessages
    end.

(** [findRelevantCaption(videoMessage, contextMessages)], lines 435-526. *)
Definition findRelevantCaption (videoMessage : Message)
  (contextMessages : list Ctx.ContextMessage) : Prog jsstring :=
  if is_nil contextMessages then Ret []
  else
    try_catch
      (match prompt_of videoMessage contextMessages with
       | None =>
         Throw {| Err.message := str "Invalid time value"; Err.code := None |}
       | Some prompt =>
         let* response := await (ChatCompletion (ranking_request prompt)) in
         match response with
         | None =>
           Throw {| Err.message := str "Cannot read properties";
                    Err.code := None |}
         | Some content =>
           Ret (select_caption videoMessage contextMessages content)
         end
       end)
      (fun error => Ret (fallback_caption videoMessage contextMessages)).

(** [videoMessage.message && videoMessage.message.trim()], line 361. *)
Definition own_caption (videoMessage : Message) : option jsstring :=
  match message videoMessage with
  | Some t => if nonempty t && nonempty (trim t) then Some (trim t) else None
  | None => None
  end.

(** [messageIds], lines 372-378. *)
Definition messageIds_of (videoMessage : Message) : list Z :=
  [id videoMessage - 2; id videoMessage - 1; id videoMessage;
   id videoMessage + 1; id videoMessage + 2].

(** [extractVideoCaption(videoMessage)], lines 357-433. *)
Definition extractVideoCaption (st : Poster) (videoMessage : Message)
  : Prog jsstring :=
  match own_caption videoMessage with
  | Some caption => Ret caption
  | None =>
    try_catch
      (let* entity := await (GetEntity (groupName st)) in
       let messageIds := messageIds_of videoMessage in
       let* surroundingMessages := await (GetMessages entity messageIds) in
       let contextMessages :=
         contextMessages_of videoMessage surroundingMessages in
       if is_nil contextMessages then Ret []
       else
         let* relevantCaption :=
           findRelevantCaption videoMessage contextMessages in
         if nonempty relevantCaption then Ret relevantCaption else Ret [])
      (fun error => Ret [])
  end.

(* ------------------------------------------------------------------ *)
(** ** One turn of the loop of [run], lines 682-774                     *)
(* ------------------------------------------------------------------ *)

(** How a turn of the loop ends: a video was posted ([processedCount++]),
    a video was marked as failed ([failedCount++]), there was nothing to
    process ([break]), or no message had been found when the error came
    (neither counter moves and the loop goes round again). *)
Inductive Turn : Type := Posted | MarkedFailed | NothingToDo | TryAgain.

(** The [catch] block, with a message. *)
Definition fail_video (videoMessage : Message) (uploadError : Err.Error)
  (st : Poster) : Prog (Turn * Poster) :=
  let* now := perform Clock in
  let* now' := perform Clock in
  Ret (MarkedFailed, recordFailure now now' videoMessage uploadError st).

(** The body of the loop.  The [try] block is split at the points where
    [videoMessage] and [videoPath] get their values, since the [catch] and
    [finally] blocks test them. *)
Definition loopBody (st : Poster) : Prog (Turn * Poster) :=
  try_catch
    (let* found := findOldestUnprocessedVideo st in
     match found with
     | (None, st1) => Ret (NothingToDo, st1)
     | (Some videoMessage, st1) =>
       try_catch
         (let* originalCaption := extractVideoCaption st1 videoMessage in
          let* rewrittenCaption := perform (RewriteCaption originalCaption) in
          let* videoPath := await (DownloadVideo videoMessage) in
          let* turn :=
            try_catch
              (let* posted :=
                 await (UploadToTwitter videoPath rewrittenCaption) in
               let* now := perform Clock in
               Ret (Posted,
                    markProcessed now (generateVideoId videoMessage) st1))
              (fun uploadError => fail_video videoMessage uploadError st1) in
          let* cleaned := perform (Cleanup videoPath) in
          Ret turn)
         (fun uploadError => fail_video videoMessage uploadError st1)
     end)
    (fun uploadError => Ret (TryAgain, st)).

(* ------------------------------------------------------------------ *)
(** ** The notions of the specification: the two sets              *)
(* ------------------------------------------------------------------ *)

(** The fingerprint is in ProcessedSet. *)
Definition in_ProcessedSet (st : Poster) (fp : jsstring) : Prop :=
  In (JStr fp) (processedVideos st).

(** An entry of the failed set in the old encoding: the bare fingerprint. *)
Definition legacy_entry (fp : jsstring) (entry : json) : Prop :=
  entry = JStr fp.

(** An entry in the structured encoding: its text (for a string, the
    string itself) is the JSON text of a record whose [videoId] is the
    fingerprint. *)
Definition structured_entry (fp : jsstring) (entry : json) : Prop :=
  exists fields,
    JSON_parse (ToString entry) = Some (JObj fields) /\
    lookup_member fields (str "videoId") = Some (JStr fp).

(** The fingerprint is in FailedSet, in one encoding or the other. *)
Definition in_FailedSet (st : Poster) (fp : jsstring) : Prop :=
  exists entry, In entry (failedVideos st) /\
                (legacy_entry fp entry \/ structured_entry fp entry).

(* ------------------------------------------------------------------ *)
(** ** The fingerprint and its segments                            *)
(* ------------------------------------------------------------------ *)

(** The message carries no peer identifier. *)
Definition peer_missing (m : Message) : Prop :=
  match peerId m with
  | None => True
  | Some p => channelId p = None /\ chatId p = None /\ userId p = None
  end.

(** The message carries no video size. *)
Definition size_missing (m : Message) : Prop :=
  match video m with
  | None => True
  | Some v => size v = None
  end.

(** The message carries no video duration. *)
Definition duration_missing (m : Message) : Prop :=
  match video m with
  | None => True
  | Some v => duration v = None
  end.

(** The fingerprint made of its five segments. *)
Definition fingerprint_of (p : jsstring) (i d s u : Z) : jsstring :=
  p ++ underscore ++ Z_to_str i ++ underscore ++ Z_to_str d ++ underscore ++
  Z_to_str s ++ underscore ++ Z_to_str u.

(** A character that ends a number: no digit, dot or exponent mark. *)
Definition ends_number (c : char) : bool :=
  negb (is_digit c) && negb (c =? 46)%N && negb (c =? 101)%N &&
  negb (c =? 69)%N.

(* ------------------------------------------------------------------ *)
(** ** The cursor and the operations of the engine                 *)
(* ------------------------------------------------------------------ *)

(** The offset a later run would load from the cursor file. *)
Definition persistedOffset (st : Poster) : Z := loadOffset (disk st).


(** The state after an operation, as far as the cursor goes: it is as it
    was, or it moved forward by one batch and the cursor file says so. *)
Definition cursor_kept (st st' : Poster) : Prop :=
  currentOffset st' = currentOffset st /\
  offsetFile (disk st') = offsetFile (disk st).

Definition cursor_advanced (st st' : Poster) : Prop :=
  currentOffset st' = currentOffset st + batchSize /\
  persistedOffset st' = currentOffset st + batchSize.

(** The operations of the engine on the state of the poster: a scan, the
    recording of a success or of a failure, the two saves of the sets, a
    whole turn of the loop of [run], and the start of the next run, which
    loads the state from the files again. *)
Inductive engine_step : Poster -> Poster -> Prop :=
| step_scan : forall st found st',
    evals (findOldestUnprocessedVideo st) (Returned (found, st')) ->
    engine_step st st'
| step_markProcessed : forall now videoId st,
    engine_step st (markProcessed now videoId st)
| step_addFailedVideo : forall now now' videoId reason error st,
    engine_step st (addFailedVideo now now' videoId reason error st)
| step_saveProcessedVideos : forall now st,
    engine_step st (saveProcessedVideos now st)
| step_saveFailedVideos : forall now st,
    engine_step st (saveFailedVideos now st)
| step_turn : forall st turn st',
    evals (loopBody st) (Returned (turn, st')) ->
    engine_step st st'
| step_next_run : forall st,
    engine_step st (newPoster (groupName st) (disk st)).

(** Any number of operations, one after the other. *)
Inductive engine_steps : Poster -> Poster -> Prop :=
| steps_none : forall st, engine_steps st st
| steps_more : forall st st' st'',
    engine_step st st' -> engine_steps st' st'' -> engine_steps st st''.

(** A state of the engine: what a poster constructed from the state files
    becomes after any number of operations. *)
Definition reachable (st : Poster) : Prop :=
  exists group d, engine_steps (newPoster group d) st.

(** The page the scanner reads is exhausted with no unresolved candidate:
    the source answered, the iteration ended without an error after [n]
    messages, and all of them are processed or failed. *)
Definition exhausted_page (env : Env) (st : Poster) (n : nat) : Prop :=
  exists entity,
    env _ (GetEntity (groupName st)) = Ok entity /\
    let page := env _ (IterMessages entity batchSize (offsetId_of st)) in
    length (yielded page) = n /\
    iterError page = None /\
    Forall (fun m => in_ProcessedSet st (generateVideoId m) \/
                     in_FailedSet st (generateVideoId m)) (yielded page).


(* ------------------------------------------------------------------ *)
(** ** The failure classifier as the specification words it        *)
(* ------------------------------------------------------------------ *)

(** C4 as the specification words it: the reason is that of the first
    category matched in the order of section 4.6. *)
Definition classified_in_spec_order (e : Err.Error) : Prop :=
  failureReason e = reason_text (first_match spec_priority e) e.

(* ------------------------------------------------------------------ *)
(** ** The notions of the caption resolver                         *)
(* ------------------------------------------------------------------ *)

(** The entry qualifies for the fallback: its sender is the sender of the
    candidate and it is less than 300 seconds away. *)
Definition same_sender_nearby (videoMessage : Message)
  (entry : Ctx.ContextMessage) : Prop :=
  Ctx.senderId entry = senderId videoMessage /\ Ctx.timeDiff entry < 300.


(** The answer matches the entry: it equals its text, is part of it, or
    contains it. *)
Definition matches_text (answer : jsstring) (entry : Ctx.ContextMessage)
  : Prop :=
  Ctx.text entry = answer \/
  includes (Ctx.text entry) answer = true \/
  includes answer (Ctx.text entry) = true.



(** What the ranking step gives against an environment: the caption
    selected from the content of the answer, when there is one. *)
Definition ranked (env : Env) (videoMessage : Message)
  (window : list Ctx.ContextMessage) : option jsstring :=
  match prompt_of videoMessage window with
  | Some prompt =>
    match env _ (ChatCompletion (ranking_request prompt)) with
    | Ok (Some content) => Some content
    | _ => None
    end
  | None => None
  end.

(** Where a caption of the window comes from: it is the cleaned content of
    the answer of the ranking call, which matches an entry, or the text of
    an entry that qualifies for the fallback. *)
Definition from_window (env : Env) (videoMessage : Message)
  (window : list Ctx.ContextMessage) (caption : jsstring) : Prop :=
  (exists content entry,
      ranked env videoMessage window = Some content /\
      caption = clean_response content /\
      In entry window /\ matches_text caption entry) \/
  (exists entry,
      In entry window /\ same_sender_nearby videoMessage entry /\
      caption = Ctx.text entry).

(** C5 as the specification words it: a caption that is not empty is the
    own text of the candidate or the text of an entry of the window. *)
Definition never_invents (env : Env) (st : Poster) (videoMessage : Message)
  (surrounding : list (option Message)) : Prop :=
  forall caption,
    exec env (extractVideoCaption st videoMessage) = Returned caption ->
    caption <> [] ->
    message videoMessage = Some caption \/
    own_caption videoMessage = Some caption \/
    exists entry,
      In entry (contextMessages_of videoMessage surrounding) /\
      caption = Ctx.text entry.

(* ------------------------------------------------------------------ *)
(** ** Sample inputs                                               *)
(* ------------------------------------------------------------------ *)

Definition sample_error : Err.Error :=
  {| Err.message := str "network unreachable"; Err.code := None |}.

Definition sample_disk : Disk :=
  {| processedVideosFile := None; offsetFile := None;
     failedVideosFile := None; writable := true |}.

Definition message_without_peer_and_video : Message :=
  {| id := 7; date := 1700000000; peerId := None; video := None;
     message := None; senderId := None |}.

Definition message_without_video : Message :=
  {| id := 7; date := 1700000000;
     peerId := Some {| channelId := Some 1234; chatId := None;
                       userId := None |};
     video := None; message := None; senderId := None |}.

Definition message_with_empty_video : Message :=
  {| id := 7; date := 1700000000;
     peerId := Some {| channelId := Some 1234; chatId := None;
                       userId := None |};
     video := Some {| size := Some 0; duration := Some 0 |};
     message := None; senderId := None |}.

Definition message_with_text (t : jsstring) : Message :=
  {| id := 7; date := 1700000000; peerId := None; video := None;
     message := Some t; senderId := Some 7 |}.

Definition numbered_message (i : Z) : Message :=
  {| id := i; date := 1700000000 + i;
     peerId := Some {| channelId := Some 1234; chatId := None;
                       userId := None |};
     video := Some {| size := Some 1000; duration := Some 10 |};
     message := None; senderId := Some 7 |}.

Definition fifty_messages : list Message :=
  map (fun n => numbered_message (Z.of_nat n)) (seq 1 50).

Definition page_of_four : list Message :=
  [numbered_message 1; numbered_message 2; numbered_message 3;
   numbered_message 4].

(** A video without text, and the message its sender wrote ten seconds
    before it. *)
Definition silent_video : Message :=
  {| id := 10; date := 1700000010; peerId := None;
     video := Some {| size := Some 1000; duration := Some 10 |};
     message := None; senderId := Some 7 |}.

Definition message_before : Message :=
  {| id := 9; date := 1700000000; peerId := None; video := None;
     message := Some (str "look at this"); senderId := Some 7 |}.

(** An environment where the source yields [page] and ends, there are no
    surrounding messages, the ranking call and the upload fail with
    [failure], and the clock reads a fixed time. *)
Definition env_of_page (page : list Message) (failure : Err.Error) : Env :=
  fun R c =>
    match c in Call R return R with
    | GetEntity _ => Ok {| title := None |}
    | IterMessages _ _ _ => {| yielded := page; iterError := None |}
    | GetMessages _ _ => Ok []
    | ChatCompletion _ => Failed failure
    | Clock => str "2024-01-01T00:00:00.000Z"
    | RewriteCaption caption => caption
    | DownloadVideo _ => Ok (str "downloads/video.mp4")
    | UploadToTwitter _ _ => Failed failure
    | Cleanup _ => tt
    end.

(** An environment where the source gives [surrounding] for the context
    and the ranking call gives [answer]. *)
Definition env_with_ranking (surrounding : list (option Message))
  (answer : Result (option jsstring)) : Env :=
  fun R c =>
    match c in Call R return R with
    | GetEntity _ => Ok {| title := None |}
    | IterMessages _ _ _ => {| yielded := []; iterError := None |}
    | GetMessages _ _ => Ok surrounding
    | ChatCompletion _ => answer
    | Clock => str "2024-01-01T00:00:00.000Z"
    | RewriteCaption caption => caption
    | DownloadVideo _ => Ok (str "downloads/video.mp4")
    | UploadToTwitter _ _ => Ok tt
    | Cleanup _ => tt
    end.

(** An answer of the ranking call that contains the text of the message
    before the video, and more. *)
Definition embellished_answer : jsstring := str "look at this, so cute!".

Definition env_embellishing : Env :=
  env_with_ranking [Some message_before] (Ok (Some embellished_answer)).

(** A failed set that mixes the two encodings: the bare fingerprint of one
    message and the record [addFailedVideo] writes for another. *)
Definition poster_with_mixed_failed_set : Poster :=
  {| groupName := str "videos";
     processedVideos := [];
     failedVideos :=
       [JStr (generateVideoId message_without_peer_and_video);
        JStr (stringify
                (failureRecord (generateVideoId message_without_video)
                   (str "Video file too large")
                   (str "2024-01-01T00:00:00.000Z") None))];
     currentOffset := 0;
     disk := sample_disk |}.

(** A poster for which the first two messages of a page are resolved, one
    processed and one failed. *)
Definition poster_two_resolved : Poster :=
  {| groupName := str "videos";
     processedVideos := [JStr (generateVideoId (numbered_message 1))];
     failedVideos := [JStr (generateVideoId (numbered_message 2))];
     currentOffset := 0;
     disk := sample_disk |}.

(** State files that list the fifty messages as processed, and that can
    be written or not. *)
Definition disk_all_processed (can_write : bool) : Disk :=
  {| processedVideosFile :=
       Some (stringify
               (JArr (map (fun m => JStr (generateVideoId m)) fifty_messages)));
     offsetFile := None;
     failedVideosFile := None;
     writable := can_write |}.

(** The poster constructed from them. *)
Definition poster_all_processed (can_write : bool) : Poster :=
  newPoster (str "videos") (disk_all_processed can_write).

(** A processed file and a failed file that hold [text]. *)
Definition disk_holding (text : jsstring) : Disk :=
  {| processedVideosFile := Some text; offsetFile := None;
     failedVideosFile := Some text; writable := true |}.

Definition two_identifiers : list jsstring :=
  [str "1234_1_1700000001_1000_10"; str "1234_2_1700000002_1000_10"].

(** The two identifiers as a bare array: the old shape of the files. *)
Definition legacy_text : jsstring :=
  stringify (JArr (map JStr two_identifiers)).

(** The two identifiers in an object with metadata: the new shape. *)
Definition structured_text : jsstring :=
  JSON_stringify_2
    (JObj [(str "lastUpdated", JStr (str "2024-01-01T00:00:00.000Z"));
           (str "totalProcessed", JNum 2);
           (str "videos", JArr (map JStr two_identifiers))]).

(** An error that matches two categories: forbidden, and size exceeded. *)
Definition forbidden_and_too_large : Err.Error :=
  {| Err.message := str "Forbidden: video file too large";
     Err.code := Some 403 |}.

(** The error of a video that is too long. *)
Definition too_long_error : Err.Error :=
  {| Err.message := str "Invalid media: video longer than 140 seconds";
     Err.code := Some 400 |}.


(* ================================================================== *)
(** * Part I, continued.  The other methods of the class                *)
(* ================================================================== *)

(* ------------------------------------------------------------------ *)
(** ** Sets of identifiers                                              *)
(* ------------------------------------------------------------------ *)

(** No two entries of the list are the same value: the list is the content
    of a [Set]. *)
Fixpoint distinct (s : jsset) : bool :=
  match s with
  | [] => true
  | x :: r => negb (set_has r x) && distinct r
  end.

Definition is_JStr (v : json) : bool :=
  match v with
  | JStr _ => true
  | _ => false
  end.

(** The set holds strings only, as the sets the engine fills do. *)
Definition strings_only (s : jsset) : bool := forallb is_JStr s.

(** The video is in both sets: processed, and failed. *)
Definition resolved_twice (st : Poster) (videoId : jsstring) : bool :=
  set_has (processedVideos st) (JStr videoId) && isVideoFailed st videoId.

(* ------------------------------------------------------------------ *)
(** ** [rewriteCaption], lines 528-578                                  *)
(* ------------------------------------------------------------------ *)

(** U+1F3A5, the camera of the default texts, as its surrogate pair. *)
Definition video_emoji : jsstring := [55356; 57253]%N.

Definition default_caption : jsstring :=
  video_emoji ++ str " Interesting video content".

Definition default_tweet : jsstring :=
  video_emoji ++ str " Video from Telegram".

Definition default_system_prompt : jsstring :=
  str "You are a social media content creator. Rewrite the given caption to make it more engaging for Twitter/X while keeping the same meaning. Make it concise (under 250 characters), engaging, and suitable for a general audience. Don't use hashtags unless they were in the original. Keep the tone similar to the original but make it more polished.".

(** The request of lines 543-559; [systemPrompt] is
    [process.env.OPENAI_SYSTEM_PROMPT]. *)
Definition rewriting_request (systemPrompt : option jsstring)
  (cleanCaption : jsstring) : ChatRequest :=
  {| model := str "gpt-3.5-turbo";
     systemContent :=
       match systemPrompt with
       | Some p => if nonempty p then p else default_system_prompt
       | None => default_system_prompt
       end;
     userContent := str "Rewrite this caption: " ++ cleanCaption;
     max_tokens := 100;
     temperature := JDec 7 (-1) |}.

(** [rewriteCaption(originalCaption)] for a caption that is a string, as
    [extractVideoCaption] returns it. *)
Definition rewriteCaption (systemPrompt : option jsstring)
  (originalCaption : jsstring) : Prog jsstring :=
  let cleanCaption :=
    if nonempty originalCaption then trim originalCaption else [] in
  if is_nil cleanCaption then Ret default_caption
  else
    try_catch
      (let* response :=
         await (ChatCompletion (rewriting_request systemPrompt cleanCaption)) in
       match response with
       | None =>
         Throw {| Err.message := str "Cannot read properties";
                  Err.code := None |}
       | Some content => Ret (clean_response content)
       end)
      (fun error =>
         Ret (if nonempty cleanCaption then cleanCaption else default_tweet)).

(* ------------------------------------------------------------------ *)
(** ** The configuration of the constructor, lines 16 and 35            *)
(* ------------------------------------------------------------------ *)





(* ------------------------------------------------------------------ *)
(** ** [downloadVideo], lines 580-620                                   *)
(* ------------------------------------------------------------------ *)

(** [(size / (1024 * 1024)).toFixed(2)] for an integer [size]: the division
    by a power of two is exact for the integers a number holds exactly, so
    the digits are those of the integer nearest to [size * 100 / 2^20], the
    larger one of two that are as near. *)
Definition toFixed2_MB (size : Z) : jsstring :=
  let n := (Z.abs size * 100 + 524288) / 1048576 in
  let m := pad 3 (Z_to_str n) in
  (if size <? 0 then str "-" else []) ++
  firstn (length m - 2) m ++ str "." ++ skipn (length m - 2) m.

(** [timestamp.replace(/[:.]/g, "-")]. *)
Definition dashed (timestamp : jsstring) : jsstring :=
  map (fun c => if ((c =? 58) || (c =? 46))%N then 45%N else c) timestamp.

(** [videoSizeMB > this.maxVideoSizeMB]; without a size the quotient is
    [NaN] and the comparison is false. *)
Definition exceeds (v : Video) (maxVideoSizeMB : Z) : bool :=
  match size v with
  | Some s => maxVideoSizeMB * 1048576 <? s
  | None => false
  end.

(** The two errors [downloadVideo] constructs. *)
Definition no_video_error : Err.Error :=
  {| Err.message := str "No video found in message"; Err.code := None |}.

Definition too_large_error (s maxVideoSizeMB : Z) : Err.Error :=
  {| Err.message :=
       str "Video too large: " ++ toFixed2_MB s ++ str "MB (max: " ++
       Z_to_str maxVideoSizeMB ++ str "MB)";
     Err.code := None |}.

Section Download.

(** [this.maxVideoSizeMB] and [this.downloadDir], [path.join] and the
    [downloadMedia] of the client. *)
Variable maxVideoSizeMB : Z.
Variable downloadDir : jsstring.
Variable path_join : jsstring -> jsstring -> jsstring.
Variable downloadMedia : Message -> jsstring -> Result unit.

(** [downloadVideo(message)]; [now] is the clock reading of line 599. *)
Definition downloadVideo (now : jsstring) (msg : Message) : Result jsstring :=
  match video msg with
  | None => Failed no_video_error
  | Some v =>
    if exceeds v maxVideoSizeMB then
      Failed (too_large_error
                (match size v with Some s => s | None => 0 end)
                maxVideoSizeMB)
    else
      let timestamp := dashed now in
      let filename :=
        str "video_" ++ Z_to_str (id msg) ++ str "_" ++ timestamp ++
        str ".mp4" in
      let filepath := path_join downloadDir filename in
      match downloadMedia msg filepath with
      | Ok _ => Ok filepath
      | Failed e => Failed e
      end
  end.

End Download.

(* ------------------------------------------------------------------ *)
(** ** [uploadToTwitter], lines 622-659                                 *)
(* ------------------------------------------------------------------ *)

(** The text of the tweet, lines 637-644. *)
Definition tweetText_of (caption : jsstring) : jsstring :=
  let tweetText :=
    if (280 <? length caption)%nat
    then firstn 277 caption ++ str "..."
    else caption in
  if is_nil (trim tweetText) then default_tweet else tweetText.

Section Upload.

(** [fs.readFile], [v1.uploadMedia] and [v2.tweet]. *)
Variables Buffer MediaId Tweet : Type.
Variable readFile : jsstring -> Result Buffer.
Variable uploadMedia : Buffer -> Result MediaId.
Variable tweet : jsstring -> MediaId -> Result Tweet.

(** [uploadToTwitter(videoPath, caption)]; the [catch] block logs the error
    and throws it again. *)
Definition uploadToTwitter (videoPath caption : jsstring) : Result Tweet :=
  match readFile videoPath with
  | Failed error => Failed error
  | Ok videoBuffer =>
    match uploadMedia videoBuffer with
    | Failed error => Failed error
    | Ok mediaId => tweet (tweetText_of caption) mediaId
    end
  end.

End Upload.

(* ------------------------------------------------------------------ *)
(** ** The loop of [run], lines 673-774                                 *)
(* ------------------------------------------------------------------ *)

Definition maxVideosPerRun : Z := 1.

(** How the loop ends: the two counters and the state of the poster. *)
Record RunEnd : Type := {
  processedCount : Z;
  failedCount : Z;
  finalState : Poster
}.

(** [while (processedCount + failedCount < maxVideosPerRun) { ... }], at
    most [turns] turns of it; [None]: the loop has not ended by then. *)
Fixpoint run_loop (turns : nat) (processed failed : Z) (st : Poster)
  : Prog (option RunEnd) :=
  if processed + failed <? maxVideosPerRun then
    match turns with
    | O => Ret None
    | S turns' =>
      let* r := loopBody st in
      match r with
      | (Posted, st') => run_loop turns' (processed + 1) failed st'
      | (MarkedFailed, st') => run_loop turns' processed (failed + 1) st'
      | (NothingToDo, st') =>                                     (* break *)
        Ret (Some {| processedCount := processed; failedCount := failed;
                     finalState := st' |})
      | (TryAgain, st') => run_loop turns' processed failed st'
      end
    end
  else
    Ret (Some {| processedCount := processed; failedCount := failed;
                 finalState := st |}).

(* ------------------------------------------------------------------ *)
(** ** The calls of a computation, by kind                              *)
(* ------------------------------------------------------------------ *)



(** The calls to the ranking model among the calls of a computation. *)
Definition is_completion (c : AnyCall) : bool :=
  match c with
  | a_call (ChatCompletion _) => true
  | a_call _ => false
  end.

(* ------------------------------------------------------------------ *)
(** ** The order of the context window                                  *)
(* ------------------------------------------------------------------ *)

(** The entries of a window are in the order of their identifiers. *)
Fixpoint ordered_by_id (l : list Ctx.ContextMessage) : bool :=
  match l with
  | [] => true
  | x :: r =>
    forallb (fun y => Ctx.id x <=? Ctx.id y) r && ordered_by_id r
  end.

(* ------------------------------------------------------------------ *)
(** ** The segments of a fingerprint                                    *)
(* ------------------------------------------------------------------ *)

(** The peer segment: the first identifier of the peer that is not zero,
    or the text [unknown]. *)
Definition peer_text (m : Message) : jsstring :=
  toStr (jor (optChain (peerId m) channelId)
           (jor (optChain (peerId m) chatId)
              (jor (optChain (peerId m) userId)
                 (VStr (str "unknown"))))).

(** The size and the duration segments, as numbers. *)
Definition size_or_zero (m : Message) : Z :=
  match video m with
  | Some v => match size v with Some s => s | None => 0 end
  | None => 0
  end.

Definition duration_or_zero (m : Message) : Z :=
  match video m with
  | Some v => match duration v with Some u => u | None => 0 end
  | None => 0
  end.

(* ------------------------------------------------------------------ *)
(** ** More sample inputs                                               *)
(* ------------------------------------------------------------------ *)

Definition clock_reading : jsstring := str "2024-01-01T00:00:00.000Z".

(** The poster of a first run: no state file yet. *)
Definition fresh_poster : Poster := newPoster (str "videos") sample_disk.

(** An environment where the source does not answer. *)
Definition env_unreachable : Env :=
  fun R c =>
    match c in Call R return R with
    | GetEntity _ => Failed sample_error
    | IterMessages _ _ _ => {| yielded := []; iterError := None |}
    | GetMessages _ _ => Failed sample_error
    | ChatCompletion _ => Failed sample_error
    | Clock => clock_reading
    | RewriteCaption caption => caption
    | DownloadVideo _ => Failed sample_error
    | UploadToTwitter _ _ => Failed sample_error
    | Cleanup _ => tt
    end.

(** An environment where everything succeeds for the videos of [page]. *)
Definition env_posting (page : list Message) : Env :=
  fun R c =>
    match c in Call R return R with
    | GetEntity _ => Ok {| title := None |}
    | IterMessages _ _ _ => {| yielded := page; iterError := None |}
    | GetMessages _ _ => Ok []
    | ChatCompletion _ => Ok (Some (str "NONE"))
    | Clock => clock_reading
    | RewriteCaption caption => caption
    | DownloadVideo _ => Ok (str "downloads/video.mp4")
    | UploadToTwitter _ _ => Ok tt
    | Cleanup _ => tt
    end.

(** A video of sixty megabytes. *)
Definition big_video : Message :=
  {| id := 11; date := 1700000011; peerId := None;
     video := Some {| size := Some 62914560; duration := Some 10 |};
     message := None; senderId := Some 7 |}.

(* ================================================================== *)
(** * Part II.  Properties                                              *)
(* ================================================================== *)

(* ------------------------------------------------------------------ *)
(** ** Strings and sets                                                 *)
(* ------------------------------------------------------------------ *)

Lemma str_eqb_eq : forall a b, str_eqb a b = true <-> a = b.
Proof.
  induction a as [|x a IH]; destruct b as [|y b]; simpl; split;
    try congruence; try reflexivity.
  - intros H. apply andb_true_iff in H as [Hx Hab].
    apply N.eqb_eq in Hx. apply IH in Hab. congruence.
  - intros H. inversion H; subst. rewrite N.eqb_refl. simpl.
    apply IH. reflexivity.
Qed.

Lemma str_eqb_refl : forall a, str_eqb a a = true.
Proof. intros a. apply str_eqb_eq. reflexivity. Qed.

Lemma is_string_eq : forall v s, is_string v s = true <-> v = JStr s.
Proof.
  intros v s. destruct v; simpl; split; try congruence.
  - intros H. apply str_eqb_eq in H. congruence.
  - intros H. inversion H. apply str_eqb_refl.
Qed.

Lemma sameValueZero_string :
  forall s v, sameValueZero (JStr s) v = true <-> v = JStr s.
Proof.
  intros s v. destruct v; simpl; split; try congruence.
  - intros H. apply str_eqb_eq in H. congruence.
  - intros H. inversion H. apply str_eqb_refl.
Qed.

Lemma set_has_string :
  forall s fp, set_has s (JStr fp) = true <-> In (JStr fp) s.
Proof.
  intros s fp. unfold set_has. rewrite existsb_exists. split.
  - intros [v [Hin Hv]]. apply sameValueZero_string in Hv. subst. exact Hin.
  - intros Hin. exists (JStr fp). split; [exact Hin|].
    apply sameValueZero_string. reflexivity.
Qed.

(* ------------------------------------------------------------------ *)
(** ** The fingerprint                                                  *)
(* ------------------------------------------------------------------ *)

Lemma optChain_prop :
  forall A (o : option A) f,
    @optChain A o f = prop (match o with Some a => f a | None => None end).
Proof. intros A o f. destruct o; reflexivity. Qed.

Lemma jor_num_zero :
  forall x : option Z,
    exists n, toStr (jor (prop x) (VNum 0)) = Z_to_str n /\
              (x = None -> n = 0) /\ (x = Some 0 -> n = 0).
Proof.
  intros [z|]; simpl.
  - unfold jor, truthy. destruct (z =? 0) eqn:E; simpl.
    + exists 0. repeat split; reflexivity.
    + exists z. repeat split; try discriminate.
      intros H. inversion H. subst. discriminate.
  - exists 0. repeat split; reflexivity.
Qed.

(** C3.  For every message, with or without a peer identifier, a video size
    or a video duration, [generateVideoId] returns a string (it is a total
    function: no input makes it throw), the same string for equal inputs,
    made of five segments joined by underscores, where a missing peer
    identifier reads ["unknown"] and a missing size or duration reads [0]. *)
Theorem generateVideoId_total_with_sentinels :
  forall m : Message,
    (forall m', m' = m -> generateVideoId m' = generateVideoId m) /\
    exists p s u,
      generateVideoId m = fingerprint_of p (id m) (date m) s u /\
      (peer_missing m -> p = str "unknown") /\
      (size_missing m -> s = 0) /\
      (duration_missing m -> u = 0).
Proof.
  intros m. split.
  - intros m' ->. reflexivity.
  - unfold generateVideoId, fingerprint_of.
    set (pv := jor (optChain (peerId m) channelId) _).
    assert (Hs : exists s, toStr (jor (optChain (video m) size) (VNum 0))
                           = Z_to_str s /\ (size_missing m -> s = 0)).
    { rewrite optChain_prop.
      destruct (jor_num_zero (match video m with
                              | Some a => size a
                              | None => None
                              end)) as [n [Hn [Hu _]]].
      exists n. split; [exact Hn|]. intros Hm. apply Hu.
      unfold size_missing in Hm. destruct (video m) as [v|];
        [exact Hm|reflexivity]. }
    assert (Hd : exists u, toStr (jor (optChain (video m) duration) (VNum 0))
                           = Z_to_str u /\ (duration_missing m -> u = 0)).
    { rewrite optChain_prop.
      destruct (jor_num_zero (match video m with
                              | Some a => duration a
                              | None => None
                              end)) as [n [Hn [Hu _]]].
      exists n. split; [exact Hn|]. intros Hm. apply Hu.
      unfold duration_missing in Hm. destruct (video m) as [v|];
        [exact Hm|reflexivity]. }
    destruct Hs as [s [Es Hs]]. destruct Hd as [u [Eu Hu]].
    exists (toStr pv), s, u. simpl toStr at 2 3. rewrite Es, Eu.
    split; [reflexivity|]. split; [|split; assumption].
    intros Hp. subst pv. unfold peer_missing in Hp.
    destruct (peerId m) as [p|]; simpl.
    + destruct Hp as [H1 [H2 H3]]. rewrite H1, H2, H3. reflexivity.
    + reflexivity.
Qed.

Lemma generateVideoId_total_with_sentinels_witness :
  generateVideoId message_without_peer_and_video
  = str "unknown_7_1700000000_0_0".
Proof.
  destruct (generateVideoId_total_with_sentinels
              message_without_peer_and_video)
    as [_ [p [s [u [E [Hp [Hs Hu]]]]]]].
  rewrite E, (Hp I), (Hs I), (Hu I). reflexivity.
Defined.

(** C10.  Absence and zero give the same fingerprint: two messages equal in
    peer identifier, message id and date, one with no video object and the
    other with a video whose size and duration are falsy (absent or zero),
    are distinct messages with the identical fingerprint. *)
Theorem generateVideoId_absent_video_collides :
  forall (m1 m2 : Message) (v : Video),
    peerId m1 = peerId m2 ->
    id m1 = id m2 ->
    date m1 = date m2 ->
    video m1 = None ->
    video m2 = Some v ->
    (size v = None \/ size v = Some 0) ->
    (duration v = None \/ duration v = Some 0) ->
    m1 <> m2 /\ generateVideoId m1 = generateVideoId m2.
Proof.
  intros m1 m2 v Hp Hi Hd H1 H2 Hs Hu. split.
  - intros E. rewrite E, H2 in H1. discriminate.
  - unfold generateVideoId. rewrite Hp, Hi, Hd, H1, H2. simpl.
    destruct Hs as [-> | ->]; destruct Hu as [-> | ->]; reflexivity.
Qed.

Lemma generateVideoId_absent_video_collides_witness :
  message_without_video <> message_with_empty_video /\
  generateVideoId message_without_video
  = generateVideoId message_with_empty_video.
Proof.
  apply (generateVideoId_absent_video_collides
           message_without_video message_with_empty_video
           {| size := Some 0; duration := Some 0 |});
    try reflexivity; right; reflexivity.
Defined.

(* ------------------------------------------------------------------ *)
(** ** A fingerprint is not a JSON text                                 *)
(* ------------------------------------------------------------------ *)

Lemma take_digits_uint_chars :
  forall u c rest,
    is_digit c = false ->
    take_digits (uint_chars u ++ c :: rest) = (uint_chars u, c :: rest).
Proof.
  intros u c rest Hc.
  induction u; simpl; try rewrite IHu; try reflexivity.
  rewrite Hc. reflexivity.
Qed.

Lemma ends_number_inv :
  forall c, ends_number c = true ->
    is_digit c = false /\ (c =? 46)%N = false /\
    (c =? 101)%N = false /\ (c =? 69)%N = false.
Proof.
  unfold ends_number. intros c H.
  repeat (apply andb_true_iff in H as [H ?]).
  repeat split; apply negb_true_iff; assumption.
Qed.

Lemma parse_fraction_stops :
  forall c rest, (c =? 46)%N = false ->
    parse_fraction (c :: rest) = Some ([], c :: rest).
Proof. intros c rest H. unfold parse_fraction. rewrite H. reflexivity. Qed.

Lemma parse_exponent_stops :
  forall c rest, (c =? 101)%N = false -> (c =? 69)%N = false ->
    parse_exponent (c :: rest) = Some (0, c :: rest).
Proof.
  intros c rest H1 H2. unfold parse_exponent. rewrite H1, H2. reflexivity.
Qed.

(** After a run of digits and a character that ends the number, the number
    parser fails or stops just before that character. *)
Lemma parse_unsigned_stops :
  forall neg u c rest,
    ends_number c = true ->
    parse_unsigned neg (uint_chars u ++ c :: rest) = None \/
    exists v, parse_unsigned neg (uint_chars u ++ c :: rest)
              = Some (v, c :: rest).
Proof.
  intros neg u c rest Hc.
  apply ends_number_inv in Hc as [Hd [Hdot [He HE]]].
  unfold parse_unsigned. rewrite (take_digits_uint_chars u c rest Hd).
  cbv beta iota.
  destruct (uint_chars u) as [|d ds]; [left; reflexivity|].
  destruct ((d =? 48)%N && negb (is_nil ds)); [left; reflexivity|].
  rewrite (parse_fraction_stops c rest Hdot).
  rewrite (parse_exponent_stops c rest He HE).
  right. eexists. reflexivity.
Qed.

Lemma uint_chars_head :
  forall u, uint_chars u = [] \/
            exists d ds, uint_chars u = d :: ds /\ is_digit d = true.
Proof.
  destruct u; simpl; [left; reflexivity | right; eexists; eexists;
                                          split; reflexivity ..].
Qed.

(** A value that starts with a digit or a minus sign is a number. *)
Lemma parse_value_number :
  forall f c r,
    is_digit c = true \/ c = 45%N ->
    parse_value (S f) (c :: r) = parse_number (c :: r).
Proof.
  intros f c r Hc.
  assert (Hr : (45 <= c <= 57)%N).
  { destruct Hc as [Hc | ->]; [|lia].
    unfold is_digit in Hc. apply andb_true_iff in Hc as [H1 H2].
    apply N.leb_le in H1. apply N.leb_le in H2. lia. }
  assert (Hne : forall k, (57 < k \/ k < 45)%N -> (c =? k)%N = false).
  { intros k Hk. apply N.eqb_neq. lia. }
  cbn [parse_value skip_ws].
  assert (Hw : is_ws c = false).
  { unfold is_ws. rewrite !Hne by lia. reflexivity. }
  rewrite Hw. rewrite !Hne by lia. reflexivity.
Qed.

(** A decimal integer followed by an underscore is not a JSON text: the
    parser fails, or stops before the underscore. *)
Lemma parse_value_integer_underscore :
  forall f z rest,
    parse_value (S f) (Z_to_str z ++ 95%N :: rest) = None \/
    exists v, parse_value (S f) (Z_to_str z ++ 95%N :: rest)
              = Some (v, 95%N :: rest).
Proof.
  intros f z rest.
  assert (Hu : forall neg u,
             parse_unsigned neg (uint_chars u ++ 95%N :: rest) = None \/
             exists v, parse_unsigned neg (uint_chars u ++ 95%N :: rest)
                       = Some (v, 95%N :: rest)).
  { intros neg u. apply parse_unsigned_stops. reflexivity. }
  assert (Hpos : forall u,
             parse_value (S f) (uint_chars u ++ 95%N :: rest) = None \/
             exists v, parse_value (S f) (uint_chars u ++ 95%N :: rest)
                       = Some (v, 95%N :: rest)).
  { intros u. destruct (uint_chars_head u) as [E | [d [ds [E Hd]]]].
    - rewrite E. left. reflexivity.
    - specialize (Hu false u). rewrite E in *. simpl app in *.
      rewrite parse_value_number by (left; exact Hd).
      unfold parse_number.
      assert (H45 : (d =? 45)%N = false).
      { unfold is_digit in Hd. apply andb_true_iff in Hd as [H1 H2].
        apply N.leb_le in H1. apply N.eqb_neq. lia. }
      rewrite H45. exact Hu. }
  destruct z as [|p|p]; unfold Z_to_str.
  - apply (Hpos (D0 Nil)).
  - apply Hpos.
  - simpl app. rewrite parse_value_number by (right; reflexivity).
    unfold parse_number. rewrite N.eqb_refl. apply Hu.
Qed.

(** The first segment of a fingerprint is ["unknown"] or a decimal integer,
    and an underscore follows it. *)
Lemma fingerprint_head :
  forall m, exists rest,
    generateVideoId m = str "unknown" ++ 95%N :: rest \/
    exists z, generateVideoId m = Z_to_str z ++ 95%N :: rest.
Proof.
  intros m. unfold generateVideoId.
  set (tail := toStr (VNum (id m)) ++ _).
  exists tail.
  assert (H : forall a b c : option Z,
             toStr (jor (prop a) (jor (prop b)
                      (jor (prop c) (VStr (str "unknown")))))
             = str "unknown" \/
             exists z, toStr (jor (prop a) (jor (prop b)
                         (jor (prop c) (VStr (str "unknown")))))
                       = Z_to_str z).
  { intros a b c. unfold jor.
    destruct a as [x|]; simpl; [destruct (x =? 0); simpl|];
      try (right; eexists; reflexivity);
      (destruct b as [y|]; simpl; [destruct (y =? 0); simpl|];
       try (right; eexists; reflexivity);
       (destruct c as [w|]; simpl; [destruct (w =? 0); simpl|];
        try (right; eexists; reflexivity); left; reflexivity)). }
  rewrite !optChain_prop.
  destruct (H (match peerId m with Some a => channelId a | None => None end)
              (match peerId m with Some a => chatId a | None => None end)
              (match peerId m with Some a => userId a | None => None end))
    as [E | [z E]]; rewrite E.
  - left. reflexivity.
  - right. exists z. reflexivity.
Qed.

Lemma JSON_parse_fuel :
  forall text : jsstring,
    (2 * length text + 2)%nat = S (S (2 * length text)).
Proof. intros text. lia. Qed.

(** [JSON.parse] throws on every fingerprint. *)
Lemma JSON_parse_fingerprint :
  forall m, JSON_parse (generateVideoId m) = None.
Proof.
  intros m. unfold JSON_parse. rewrite JSON_parse_fuel.
  destruct (fingerprint_head m) as [rest [E | [z E]]]; rewrite E.
  - reflexivity.
  - destruct (parse_value_integer_underscore (S (2 * length
                (Z_to_str z ++ 95%N :: rest))) z rest) as [H | [v H]];
      rewrite H; reflexivity.
Qed.

(* ------------------------------------------------------------------ *)
(** ** [isVideoFailed] and the two encodings of the failed set          *)
(* ------------------------------------------------------------------ *)

Lemma legacy_entry_matches :
  forall m entry,
    legacy_entry (generateVideoId m) entry ->
    failedRecord_matches entry (generateVideoId m) = true.
Proof.
  intros m entry ->. unfold failedRecord_matches. simpl ToString.
  rewrite JSON_parse_fingerprint. simpl. apply str_eqb_refl.
Qed.

Lemma structured_entry_matches :
  forall fp entry,
    structured_entry fp entry -> failedRecord_matches entry fp = true.
Proof.
  intros fp entry [fields [Hp Hl]]. unfold failedRecord_matches.
  rewrite Hp. simpl. rewrite Hl. simpl. apply str_eqb_refl.
Qed.

(** What makes [isVideoFailed] answer [true]: some entry is the bare
    identifier and is not read as a JSON record, or some entry is read as a
    record with that [videoId]. *)
Lemma failedRecord_matches_inv :
  forall entry fp,
    failedRecord_matches entry fp = true ->
    legacy_entry fp entry \/ structured_entry fp entry.
Proof.
  intros entry fp. unfold failedRecord_matches.
  destruct (JSON_parse (ToString entry)) as [record|] eqn:Hp; simpl.
  - destruct record; simpl; try discriminate.
    + intros H. left. apply is_string_eq. exact H.
    + destruct (lookup_member l (str "videoId")) as [v|] eqn:Hl;
        [|discriminate].
      intros H. apply is_string_eq in H. subst v.
      right. exists l. split; [exact Hp | exact Hl].
  - intros H. left. apply is_string_eq. exact H.
Qed.

(** An entry in either encoding makes [isVideoFailed] answer [true]. *)
Lemma in_FailedSet_isVideoFailed :
  forall st m,
    in_FailedSet st (generateVideoId m) ->
    isVideoFailed st (generateVideoId m) = true.
Proof.
  intros st m [entry [Hin Henc]].
  unfold isVideoFailed. apply existsb_exists. exists entry.
  split; [exact Hin|].
  destruct Henc as [Hl | Hs].
  - apply legacy_entry_matches. exact Hl.
  - apply structured_entry_matches. exact Hs.
Qed.

(** C8.  For every fingerprint (the identifier of any message) and every
    content of the failed set, [isVideoFailed] answers [true] when the set
    holds the bare fingerprint (the old encoding) and when it holds the JSON
    text of a record whose [videoId] is the fingerprint. *)
Theorem isVideoFailed_checks_both_encodings :
  forall (st : Poster) (m : Message),
    (exists entry, In entry (failedVideos st) /\
                   legacy_entry (generateVideoId m) entry) \/
    (exists entry, In entry (failedVideos st) /\
                   structured_entry (generateVideoId m) entry) ->
    isVideoFailed st (generateVideoId m) = true.
Proof.
  intros st m H. apply in_FailedSet_isVideoFailed.
  destruct H as [[entry [Hin He]] | [entry [Hin He]]];
    exists entry; split; auto.
Qed.

Lemma isVideoFailed_checks_both_encodings_witness :
  isVideoFailed poster_with_mixed_failed_set
    (generateVideoId message_without_peer_and_video) = true /\
  isVideoFailed poster_with_mixed_failed_set
    (generateVideoId message_without_video) = true.
Proof.
  split; apply isVideoFailed_checks_both_encodings.
  - left. exists (JStr (generateVideoId message_without_peer_and_video)).
    split; [left; reflexivity | reflexivity].
  - right. eexists. split; [right; left; reflexivity|].
    eexists. split; vm_compute; reflexivity.
Defined.

(** [isVideoFailed] answers [true] exactly for the fingerprints in the
    failed set. *)
Lemma isVideoFailed_iff :
  forall st m,
    isVideoFailed st (generateVideoId m) = true <->
    in_FailedSet st (generateVideoId m).
Proof.
  intros st m. split.
  - unfold isVideoFailed. intros H. apply existsb_exists in H.
    destruct H as [entry [Hin Hm]]. exists entry. split; [exact Hin|].
    apply failedRecord_matches_inv. exact Hm.
  - apply in_FailedSet_isVideoFailed.
Qed.

(** The comparison with a bare entry sits in the [catch] block, so it is
    made only for an entry that is not a JSON text.  Fingerprints never are
    ([JSON_parse_fingerprint]); a string that is one, such as a plain
    number, would not be found when held bare. *)
Remark bare_json_text_is_not_matched :
  failedRecord_matches (JStr (str "123")) (str "123") = false.
Proof. vm_compute. reflexivity. Qed.

(* ------------------------------------------------------------------ *)
(** ** The batch scanner                                                *)
(* ------------------------------------------------------------------ *)

Lemma unresolved_true :
  forall st m,
    unresolved st m = true <->
    ~ in_ProcessedSet st (generateVideoId m) /\
    ~ in_FailedSet st (generateVideoId m).
Proof.
  intros st m. unfold unresolved, in_ProcessedSet.
  rewrite andb_true_iff, !negb_true_iff.
  rewrite <- set_has_string, <- isVideoFailed_iff.
  rewrite <- !not_true_iff_false. reflexivity.
Qed.

Lemma unresolved_false :
  forall st m,
    unresolved st m = false <->
    in_ProcessedSet st (generateVideoId m) \/
    in_FailedSet st (generateVideoId m).
Proof.
  intros st m. unfold unresolved, in_ProcessedSet.
  rewrite andb_false_iff, !negb_false_iff.
  rewrite <- set_has_string, <- isVideoFailed_iff. reflexivity.
Qed.

(** The loop returns the first message of the page that passes the test. *)
Lemma scan_first :
  forall st page m,
    scan st page = Some m ->
    exists earlier later,
      page = earlier ++ m :: later /\
      unresolved st m = true /\
      Forall (fun x => unresolved st x = false) earlier.
Proof.
  intros st page m. induction page as [|x page IH]; simpl; [discriminate|].
  destruct (unresolved st x) eqn:Hx.
  - intros H. inversion H; subst. exists [], page. auto.
  - intros H. destruct (IH H) as [earlier [later [E [Hm Hall]]]].
    exists (x :: earlier), later. subst page. auto.
Qed.

Lemma scan_none :
  forall st page,
    scan st page = None <-> Forall (fun x => unresolved st x = false) page.
Proof.
  intros st page. induction page as [|x page IH]; simpl.
  - split; auto.
  - destruct (unresolved st x) eqn:Hx; split; intros H.
    + discriminate.
    + inversion H; congruence.
    + constructor; [exact Hx | apply IH; exact H].
    + inversion H; subst. apply IH. assumption.
Qed.

(** How [findOldestUnprocessedVideo] runs against an environment. *)
Lemma exec_findOldestUnprocessedVideo :
  forall env st,
    exec env (findOldestUnprocessedVideo st) =
    match env _ (GetEntity (groupName st)) with
    | Failed e => Thrown e
    | Ok entity =>
      let page := env _ (IterMessages entity batchSize (offsetId_of st)) in
      match scan st (yielded page) with
      | Some m => Returned (Some m, st)
      | None =>
        match iterError page with
        | Some e => Thrown e
        | None =>
          Returned (None,
                    saveOffset (env _ Clock) (currentOffset st + batchSize) st)
        end
      end
    end.
Proof.
  intros env st. unfold findOldestUnprocessedVideo. simpl.
  destruct (env _ (GetEntity (groupName st))) as [entity|e]; simpl;
    [|reflexivity].
  destruct (scan st (yielded _)); simpl; [reflexivity|].
  destruct (iterError _); reflexivity.
Qed.

(** C1.  Whatever page the source yields and whatever the processed and
    failed sets hold, the message [findOldestUnprocessedVideo] returns has
    its fingerprint in neither set, and every message before it in the page
    has its fingerprint in one of them: it is the first unresolved one. *)
Theorem findOldestUnprocessedVideo_returns_first_unresolved :
  forall (env : Env) (st st' : Poster) (m : Message),
    exec env (findOldestUnprocessedVideo st) = Returned (Some m, st') ->
    exists entity earlier later,
      env _ (GetEntity (groupName st)) = Ok entity /\
      yielded (env _ (IterMessages entity batchSize (offsetId_of st)))
      = earlier ++ m :: later /\
      ~ in_ProcessedSet st (generateVideoId m) /\
      ~ in_FailedSet st (generateVideoId m) /\
      Forall (fun x => in_ProcessedSet st (generateVideoId x) \/
                       in_FailedSet st (generateVideoId x)) earlier.
Proof.
  intros env st st' m. rewrite exec_findOldestUnprocessedVideo.
  destruct (env _ (GetEntity (groupName st))) as [entity|e]; [|discriminate].
  cbv zeta.
  destruct (scan st (yielded _)) as [x|] eqn:Hscan.
  - intros H. inversion H; subst x st'.
    destruct (scan_first _ _ _ Hscan) as [earlier [later [E [Hm Hall]]]].
    apply unresolved_true in Hm as [Hp Hf].
    exists entity, earlier, later. repeat split; try assumption.
    eapply Forall_impl; [|exact Hall].
    intros a Ha. apply unresolved_false. exact Ha.
  - destruct (iterError _); discriminate.
Qed.

(* ------------------------------------------------------------------ *)
(** ** [JSON.parse] reads back what [JSON.stringify] writes             *)
(* ------------------------------------------------------------------ *)

#[local] Ltac Zify.zify_post_hook ::= Z.to_euclidean_division_equations.

Lemma hex_val_hex_digit :
  forall n, (n < 16)%N -> hex_val (hex_digit n) = Some n.
Proof.
  intros n Hn. unfold hex_digit.
  destruct (N.ltb_spec n 10) as [Hlow | Hhigh]; unfold hex_val, is_digit.
  - replace (48 <=? 48 + n)%N with true by (symmetry; apply N.leb_le; lia).
    replace (48 + n <=? 57)%N with true by (symmetry; apply N.leb_le; lia).
    cbn [andb]. f_equal. lia.
  - replace (87 + n <=? 57)%N with false by (symmetry; apply N.leb_gt; lia).
    rewrite andb_false_r.
    replace (97 <=? 87 + n)%N with true by (symmetry; apply N.leb_le; lia).
    replace (87 + n <=? 102)%N with true by (symmetry; apply N.leb_le; lia).
    cbn [andb]. f_equal. lia.
Qed.

Lemma parse_chars_unicode_escape :
  forall c r, (c < 65536)%N ->
    parse_chars (unicode_escape c ++ r) = cons_char c (parse_chars r).
Proof.
  intros c r Hc. unfold unicode_escape.
  cbn [app parse_chars]. change (92 =? 34)%N with false.
  change (92 =? 92)%N with true. change (117 =? 117)%N with true.
  cbv iota. unfold hex4.
  rewrite !hex_val_hex_digit by lia.
  replace (c / 4096 mod 16 * 4096 + c / 256 mod 16 * 256 +
           c / 16 mod 16 * 16 + c mod 16)%N with c by lia.
  reflexivity.
Qed.

Lemma parse_chars_plain :
  forall c r,
    (c =? 34)%N = false -> (c =? 92)%N = false -> (c <? 32)%N = false ->
    parse_chars (c :: r) = cons_char c (parse_chars r).
Proof.
  intros c r H1 H2 H3. cbn [parse_chars]. rewrite H1, H2, H3. reflexivity.
Qed.

(** A quoted code unit reads back as the code unit. *)
Lemma parse_chars_quote_char :
  forall c r, parse_chars (quote_char c ++ r) = cons_char c (parse_chars r).
Proof.
  intros c r. unfold quote_char.
  destruct (N.eqb_spec c 8) as [-> | H8]; [reflexivity|].
  destruct (N.eqb_spec c 9) as [-> | H9]; [reflexivity|].
  destruct (N.eqb_spec c 10) as [-> | H10]; [reflexivity|].
  destruct (N.eqb_spec c 12) as [-> | H12]; [reflexivity|].
  destruct (N.eqb_spec c 13) as [-> | H13]; [reflexivity|].
  destruct (N.eqb_spec c 34) as [-> | H34]; [reflexivity|].
  destruct (N.eqb_spec c 92) as [-> | H92]; [reflexivity|].
  destruct (N.ltb_spec c 32) as [H32 | H32].
  - apply parse_chars_unicode_escape. lia.
  - destruct (is_high_surrogate c || is_low_surrogate c) eqn:Hs.
    + apply parse_chars_unicode_escape.
      unfold is_high_surrogate, is_low_surrogate in Hs.
      apply orb_true_iff in Hs as [Hs | Hs];
        apply andb_true_iff in Hs as [_ Hs]; apply N.leb_le in Hs; lia.
    + apply parse_chars_plain.
      * apply N.eqb_neq. exact H34.
      * apply N.eqb_neq. exact H92.
      * apply N.ltb_ge. exact H32.
Qed.

Lemma parse_chars_surrogate :
  forall c r, is_high_surrogate c || is_low_surrogate c = true ->
    parse_chars (c :: r) = cons_char c (parse_chars r).
Proof.
  intros c r Hs.
  assert (Hc : (55296 <= c)%N).
  { unfold is_high_surrogate, is_low_surrogate in Hs.
    apply orb_true_iff in Hs as [Hs | Hs];
      apply andb_true_iff in Hs as [Hs _]; apply N.leb_le in Hs; lia. }
  apply parse_chars_plain.
  - apply N.eqb_neq. lia.
  - apply N.eqb_neq. lia.
  - apply N.ltb_ge. lia.
Qed.

Lemma quote_chars_pair :
  forall c d r,
    quote_chars (c :: d :: r) =
    if is_high_surrogate c && is_low_surrogate d
    then c :: d :: quote_chars r
    else quote_char c ++ quote_chars (d :: r).
Proof. reflexivity. Qed.

Lemma parse_chars_quote_chars_length :
  forall n s rest, (length s <= n)%nat ->
    parse_chars (quote_chars s ++ 34%N :: rest) = Some (s, rest).
Proof.
  induction n as [|n IH]; intros s rest Hn.
  - destruct s; [reflexivity | simpl in Hn; lia].
  - destruct s as [|c r]; [reflexivity|].
    destruct r as [|d r'].
    + cbn [quote_chars]. rewrite parse_chars_quote_char. reflexivity.
    + rewrite quote_chars_pair.
      destruct (is_high_surrogate c && is_low_surrogate d) eqn:Hp.
      * apply andb_true_iff in Hp as [Hc Hd].
        cbn [app]. rewrite parse_chars_surrogate by (rewrite Hc; reflexivity).
        rewrite parse_chars_surrogate
          by (rewrite Hd; apply orb_true_r).
        rewrite IH by (simpl in *; lia). reflexivity.
      * rewrite <- app_assoc. rewrite parse_chars_quote_char.
        rewrite IH by (simpl in *; lia). reflexivity.
Qed.

(** The characters of a quoted string read back as the string. *)
Lemma parse_chars_quote_chars :
  forall s rest, parse_chars (quote_chars s ++ 34%N :: rest) = Some (s, rest).
Proof.
  intros s rest. apply (parse_chars_quote_chars_length (length s)). lia.
Qed.

Lemma quote_app :
  forall s rest, quote s ++ rest = 34%N :: quote_chars s ++ 34%N :: rest.
Proof.
  intros s rest. unfold quote. cbn [app]. rewrite <- app_assoc. reflexivity.
Qed.

(** A quoted string is read as that string. *)
Lemma parse_value_string :
  forall f s rest, parse_value (S f) (quote s ++ rest) = Some (JStr s, rest).
Proof.
  intros f s rest. rewrite quote_app. cbn [parse_value skip_ws].
  change (is_ws 34) with false. cbv iota.
  change (34 =? 123)%N with false. change (34 =? 91)%N with false.
  change (34 =? 34)%N with true. cbv iota.
  rewrite parse_chars_quote_chars. reflexivity.
Qed.

Lemma chars_uint_uint_chars : forall u, chars_uint (uint_chars u) = u.
Proof. induction u; simpl; try rewrite IHu; reflexivity. Qed.

(** The decimal numeral of a positive number does not start with a zero. *)
Lemma to_uint_no_leading_zero : forall p u, Pos.to_uint p <> D0 u.
Proof.
  intros p u E.
  assert (Hn : unorm (Pos.to_uint p) = Pos.to_uint p).
  { rewrite <- DecimalPos.Unsigned.to_of, DecimalPos.Unsigned.of_to.
    reflexivity. }
  rewrite E, DecimalFacts.unorm_D0 in Hn.
  destruct (uint_eq_dec u Nil) as [-> | Hne].
  - apply (DecimalPos.Unsigned.to_uint_nonzero p). exact E.
  - pose proof (DecimalFacts.nb_digits_unorm u Hne) as Hd.
    rewrite Hn in Hd. simpl in Hd. lia.
Qed.

Lemma digits_val_uint_chars :
  forall u, digits_val (uint_chars u ++ []) = Z.of_N (N.of_uint u).
Proof.
  intros u. rewrite app_nil_r. unfold digits_val.
  rewrite chars_uint_uint_chars. reflexivity.
Qed.

Lemma mk_number_integer : forall z, mk_number z (0 - Z.of_nat 0) = JNum z.
Proof.
  intros z. unfold mk_number. simpl.
  destruct (Z.eqb_spec z 0) as [-> | Hz]; [reflexivity|].
  rewrite Z.mul_1_r. reflexivity.
Qed.

(** The digits of a number, then a character that ends it, read back as
    the number. *)
Lemma parse_unsigned_integer :
  forall neg n c rest,
    ends_number c = true ->
    parse_unsigned neg (N_to_str n ++ c :: rest)
    = Some (JNum (if neg then - Z.of_N n else Z.of_N n), c :: rest).
Proof.
  intros neg n c rest Hc.
  apply ends_number_inv in Hc as [Hd [Hdot [He HE]]].
  unfold parse_unsigned, N_to_str.
  rewrite (take_digits_uint_chars (N.to_uint n) c rest Hd). cbv beta iota.
  assert (Hv : digits_val (uint_chars (N.to_uint n) ++ []) = Z.of_N n).
  { rewrite digits_val_uint_chars, DecimalN.Unsigned.of_to. reflexivity. }
  assert (Hz : forall d ds,
             uint_chars (N.to_uint n) = d :: ds ->
             (d =? 48)%N && negb (is_nil ds) = false).
  { intros d ds E. destruct n as [|p].
    - simpl in E. inversion E. reflexivity.
    - simpl in E. destruct (Pos.to_uint p) eqn:Ep; simpl in E;
        inversion E; subst; try reflexivity.
      exfalso. exact (to_uint_no_leading_zero _ _ Ep). }
  destruct (uint_chars (N.to_uint n)) as [|d ds] eqn:E.
  - exfalso. destruct n as [|p]; [discriminate E|].
    simpl in E. destruct (Pos.to_uint p) eqn:Ep; try discriminate E.
    exact (DecimalPos.Unsigned.to_uint_nonnil _ Ep).
  - rewrite (Hz d ds eq_refl).
    rewrite (parse_fraction_stops c rest Hdot).
    rewrite (parse_exponent_stops c rest He HE).
    rewrite Hv.
    change (length (@nil N)) with 0%nat. rewrite mk_number_integer.
    reflexivity.
Qed.

Lemma N_to_str_head :
  forall n, exists d ds, N_to_str n = d :: ds /\ is_digit d = true.
Proof.
  intros n. unfold N_to_str.
  destruct (uint_chars_head (N.to_uint n)) as [E | H]; [|exact H].
  exfalso. destruct n as [|p]; [discriminate E|].
  simpl in E. destruct (Pos.to_uint p) eqn:Ep; try discriminate E.
  exact (DecimalPos.Unsigned.to_uint_nonnil _ Ep).
Qed.

Lemma is_digit_not_minus : forall d, is_digit d = true -> (d =? 45)%N = false.
Proof.
  intros d Hd. unfold is_digit in Hd. apply andb_true_iff in Hd as [H1 H2].
  apply N.leb_le in H1. apply N.eqb_neq. lia.
Qed.

(** An integer, then a character that ends it, is read as that integer. *)
Lemma parse_value_integer :
  forall f z c rest,
    ends_number c = true ->
    parse_value (S f) (Z_to_str z ++ c :: rest) = Some (JNum z, c :: rest).
Proof.
  intros f z c rest Hc.
  assert (Hpos : forall n,
             parse_value (S f) (N_to_str n ++ c :: rest)
             = Some (JNum (Z.of_N n), c :: rest)).
  { intros n. pose proof (parse_unsigned_integer false n c rest Hc) as Hu.
    destruct (N_to_str_head n) as [d [ds [E Hd]]]. rewrite E in *.
    cbn [app] in *. rewrite parse_value_number by (left; exact Hd).
    unfold parse_number. rewrite (is_digit_not_minus d Hd). exact Hu. }
  destruct z as [|p|p]; unfold Z_to_str.
  - apply (Hpos 0%N).
  - apply (Hpos (Npos p)).
  - cbn [app]. rewrite parse_value_number by (right; reflexivity).
    unfold parse_number. rewrite N.eqb_refl.
    apply (parse_unsigned_integer true (Npos p) c rest Hc).
Qed.

(** One member of an object, followed by a comma. *)
Lemma parse_members_more :
  forall f s k r2 v r3 rest,
    skip_ws s = quote k ++ 58%N :: r2 ->
    parse_value f r2 = Some (v, r3) ->
    skip_ws r3 = 44%N :: rest ->
    parse_members (S f) s =
    match parse_members f rest with
    | Some (ms, r) => Some ((k, v) :: ms, r)
    | None => None
    end.
Proof.
  intros f s k r2 v r3 rest Hs Hv Hr.
  cbn [parse_members]. rewrite Hs, quote_app.
  change (34 =? 34)%N with true. cbv iota.
  rewrite parse_chars_quote_chars. cbn [skip_ws].
  change (is_ws 58) with false. cbv iota.
  change (58 =? 58)%N with true. cbv iota.
  rewrite Hv, Hr. reflexivity.
Qed.

(** The last member of an object. *)
Lemma parse_members_last :
  forall f s k r2 v r3 rest,
    skip_ws s = quote k ++ 58%N :: r2 ->
    parse_value f r2 = Some (v, r3) ->
    skip_ws r3 = 125%N :: rest ->
    parse_members (S f) s = Some ([(k, v)], rest).
Proof.
  intros f s k r2 v r3 rest Hs Hv Hr.
  cbn [parse_members]. rewrite Hs, quote_app.
  change (34 =? 34)%N with true. cbv iota.
  rewrite parse_chars_quote_chars. cbn [skip_ws].
  change (is_ws 58) with false. cbv iota.
  change (58 =? 58)%N with true. cbv iota.
  rewrite Hv, Hr. reflexivity.
Qed.

(** An object with at least one member. *)
Lemma parse_value_object :
  forall f r k r',
    skip_ws r = quote k ++ r' ->
    parse_value (S f) (123%N :: r) =
    match parse_members f r with
    | Some (ms, rest) => Some (JObj ms, rest)
    | None => None
    end.
Proof.
  intros f r k r' Hr. cbn [parse_value skip_ws].
  change (is_ws 123) with false. cbv iota.
  change (123 =? 123)%N with true. cbv iota.
  rewrite Hr, quote_app. change (34 =? 125)%N with false. reflexivity.
Qed.

Lemma parse_value_null :
  forall f rest, parse_value (S f) (str "null" ++ rest) = Some (JNull, rest).
Proof. reflexivity. Qed.

Lemma skip_ws_quote : forall k r, skip_ws (quote k ++ r) = quote k ++ r.
Proof. intros k r. rewrite quote_app. reflexivity. Qed.

Lemma parse_value_ws :
  forall f c s, is_ws c = true -> parse_value f (c :: s) = parse_value f s.
Proof.
  intros [|f] c s Hc; [reflexivity|].
  cbn [parse_value skip_ws]. rewrite Hc. reflexivity.
Qed.

Lemma skip_ws_indent :
  forall k r,
    skip_ws (10%N :: 32%N :: 32%N :: quote k ++ r) = quote k ++ r.
Proof. intros k r. rewrite quote_app. reflexivity. Qed.

Lemma JSON_parse_enough_fuel :
  forall (text : jsstring) c d rest,
    text = c :: d :: rest ->
    exists f, (2 * length text + 2)%nat = S (S (S (S (S (S f))))).
Proof.
  intros text c d rest ->. exists (2 * length rest)%nat. simpl. lia.
Qed.

(** The text of a failure record, character by character. *)
Lemma failureRecord_text :
  forall videoId reason timestamp error,
    stringify (failureRecord videoId reason timestamp error) =
    123%N :: quote (str "videoId") ++ 58%N :: quote videoId ++
    44%N :: quote (str "reason") ++ 58%N :: quote reason ++
    44%N :: quote (str "timestamp") ++ 58%N :: quote timestamp ++
    44%N :: quote (str "error") ++ 58%N ::
    match error with
    | Some e => quote (Err.message e) ++ [125%N]
    | None => str "null" ++ [125%N]
    end.
Proof.
  intros videoId reason timestamp error. unfold failureRecord.
  cbn [stringify map join fst snd]. repeat rewrite <- app_assoc.
  destruct error; reflexivity.
Qed.

(** [JSON.parse] reads the text [addFailedVideo] stores back as the record. *)
Lemma JSON_parse_failureRecord :
  forall videoId reason timestamp error,
    JSON_parse (stringify (failureRecord videoId reason timestamp error))
    = Some (failureRecord videoId reason timestamp error).
Proof.
  intros videoId reason timestamp error. unfold JSON_parse.
  destruct (JSON_parse_enough_fuel
              (stringify (failureRecord videoId reason timestamp error))
              123%N 34%N
              (tl (tl (stringify
                         (failureRecord videoId reason timestamp error)))))
    as [f Hf].
  { rewrite failureRecord_text, quote_app. reflexivity. }
  rewrite Hf, failureRecord_text.
  erewrite parse_value_object by apply skip_ws_quote.
  erewrite parse_members_more;
    [| apply skip_ws_quote | apply parse_value_string | reflexivity].
  erewrite parse_members_more;
    [| apply skip_ws_quote | apply parse_value_string | reflexivity].
  erewrite parse_members_more;
    [| apply skip_ws_quote | apply parse_value_string | reflexivity].
  destruct error as [e|].
  - erewrite parse_members_last;
      [| apply skip_ws_quote | apply parse_value_string | reflexivity].
    reflexivity.
  - erewrite parse_members_last;
      [| apply skip_ws_quote | apply parse_value_null | reflexivity].
    reflexivity.
Qed.

(** The text of the cursor file, character by character. *)
Lemma offsetData_text :
  forall newOffset now total,
    JSON_stringify_2 (offsetData_of newOffset now total) =
    123%N :: 10%N :: 32%N :: 32%N :: quote (str "offset") ++
    58%N :: 32%N :: Z_to_str newOffset ++
    44%N :: 10%N :: 32%N :: 32%N :: quote (str "lastUpdated") ++
    58%N :: 32%N :: quote now ++
    44%N :: 10%N :: 32%N :: 32%N :: quote (str "totalProcessed") ++
    58%N :: 32%N :: Z_to_str total ++ [10%N; 125%N].
Proof.
  intros newOffset now total. unfold JSON_stringify_2, offsetData_of.
  cbn [stringify_indented stringify map join fst snd].
  repeat rewrite <- app_assoc. reflexivity.
Qed.

(** [JSON.parse] reads the cursor file [saveOffset] writes back as the
    object it was made from. *)
Lemma JSON_parse_offsetData :
  forall newOffset now total,
    JSON_parse (JSON_stringify_2 (offsetData_of newOffset now total))
    = Some (offsetData_of newOffset now total).
Proof.
  intros newOffset now total. unfold JSON_parse.
  destruct (JSON_parse_enough_fuel
              (JSON_stringify_2 (offsetData_of newOffset now total))
              123%N 10%N
              (tl (tl (JSON_stringify_2
                         (offsetData_of newOffset now total)))))
    as [f Hf].
  { rewrite offsetData_text. reflexivity. }
  rewrite Hf, offsetData_text.
  erewrite parse_value_object by apply skip_ws_indent.
  erewrite parse_members_more;
    [| apply skip_ws_indent
     | rewrite parse_value_ws by reflexivity;
       apply parse_value_integer; reflexivity
     | reflexivity].
  erewrite parse_members_more;
    [| apply skip_ws_indent
     | rewrite parse_value_ws by reflexivity; apply parse_value_string
     | reflexivity].
  erewrite parse_members_last;
    [| apply skip_ws_indent
     | rewrite parse_value_ws by reflexivity;
       apply parse_value_integer; reflexivity
     | reflexivity].
  reflexivity.
Qed.

(* ------------------------------------------------------------------ *)
(** ** The fuel of the parser                                           *)
(* ------------------------------------------------------------------ *)

Lemma skip_ws_length : forall s, (length (skip_ws s) <= length s)%nat.
Proof.
  induction s as [|c s IH]; simpl; [lia|].
  destruct (is_ws c); simpl; lia.
Qed.

Lemma cons_char_shorter :
  forall c o x r (n : nat),
    (forall y r', o = Some (y, r') -> (length r' < n)%nat) ->
    cons_char c o = Some (x, r) -> (length r < n)%nat.
Proof.
  intros c [[y r']|] x r n H E; simpl in E; [|discriminate].
  inversion E; subst. apply (H y r). reflexivity.
Qed.

Lemma parse_chars_shorter_length :
  forall n s x r,
    (length s <= n)%nat ->
    parse_chars s = Some (x, r) -> (length r < length s)%nat.
Proof.
  induction n as [|n IH]; intros s x r Hn H.
  - destruct s; [discriminate | simpl in Hn; lia].
  - destruct s as [|c s]; [discriminate|]. cbn [parse_chars] in H.
    destruct (c =? 34)%N.
    { inversion H; subst. simpl. lia. }
    destruct (c =? 92)%N.
    + destruct s as [|e r1]; [discriminate|].
      destruct (e =? 117)%N.
      * destruct r1 as [|h1 [|h2 [|h3 [|h4 r2]]]]; try discriminate.
        destruct (hex4 h1 h2 h3 h4); [|discriminate].
        eapply cons_char_shorter; [|exact H].
        intros y r' E. apply IH in E; simpl in *; lia.
      * destruct (unescape e); [|discriminate].
        eapply cons_char_shorter; [|exact H].
        intros y r' E. apply IH in E; simpl in *; lia.
    + destruct (c <? 32)%N; [discriminate|].
      eapply cons_char_shorter; [|exact H].
      intros y r' E. apply IH in E; simpl in *; lia.
Qed.

Lemma parse_chars_shorter :
  forall s x r, parse_chars s = Some (x, r) -> (length r < length s)%nat.
Proof.
  intros s x r. apply (parse_chars_shorter_length (length s)). lia.
Qed.

Lemma take_digits_length :
  forall s d r, take_digits s = (d, r) -> length s = (length d + length r)%nat.
Proof.
  induction s as [|c s IH]; simpl; intros d r H.
  - inversion H. reflexivity.
  - destruct (is_digit c).
    + destruct (take_digits s) as [d' r'] eqn:E. inversion H; subst.
      simpl. rewrite (IH d' r eq_refl). reflexivity.
    + inversion H; subst. reflexivity.
Qed.

Lemma parse_fraction_length :
  forall s fp r, parse_fraction s = Some (fp, r) -> (length r <= length s)%nat.
Proof.
  intros s fp r H. unfold parse_fraction in H.
  destruct s as [|c s]; [inversion H; subst; lia|].
  destruct (c =? 46)%N.
  - destruct (take_digits s) as [d r'] eqn:E.
    destruct (is_nil d); [discriminate|]. inversion H; subst.
    apply take_digits_length in E. simpl. lia.
  - inversion H; subst. lia.
Qed.

Lemma parse_exponent_length :
  forall s ex r, parse_exponent s = Some (ex, r) -> (length r <= length s)%nat.
Proof.
  intros s ex r H. unfold parse_exponent in H.
  destruct s as [|c s]; [inversion H; subst; lia|].
  destruct ((c =? 101) || (c =? 69))%N.
  - assert (Hr : forall eneg r1,
               (let (ep, rest) := take_digits r1 in
                if is_nil ep then None
                else Some (if eneg : bool then - digits_val ep
                           else digits_val ep, rest)) = Some (ex, r) ->
               (length r <= length r1)%nat).
    { intros eneg r1 E. destruct (take_digits r1) as [ep rest] eqn:Et.
      destruct (is_nil ep); [discriminate|]. inversion E; subst.
      apply take_digits_length in Et. lia. }
    destruct s as [|g s'].
    + apply (Hr false) in H. simpl in *. lia.
    + destruct (g =? 45)%N; [apply (Hr true) in H; simpl in *; lia|].
      destruct (g =? 43)%N; apply (Hr false) in H; simpl in *; lia.
  - inversion H; subst. lia.
Qed.

Lemma parse_unsigned_shorter :
  forall neg s v r,
    parse_unsigned neg s = Some (v, r) -> (length r < length s)%nat.
Proof.
  intros neg s v r H. unfold parse_unsigned in H.
  destruct (take_digits s) as [ip s2] eqn:Et.
  destruct ip as [|d ds]; [discriminate|].
  destruct ((d =? 48)%N && negb (is_nil ds)); [discriminate|].
  destruct (parse_fraction s2) as [[fp s3]|] eqn:Ef; [|discriminate].
  destruct (parse_exponent s3) as [[ex rest]|] eqn:Ee; [|discriminate].
  inversion H; subst.
  apply take_digits_length in Et. apply parse_fraction_length in Ef.
  apply parse_exponent_length in Ee. simpl in Et. lia.
Qed.

Lemma parse_number_shorter :
  forall s v r, parse_number s = Some (v, r) -> (length r < length s)%nat.
Proof.
  intros s v r H. unfold parse_number in H.
  destruct s as [|c s]; [discriminate|].
  destruct (c =? 45)%N; apply parse_unsigned_shorter in H; simpl in *; lia.
Qed.

Lemma parse_literal_shorter :
  forall lit v s v' r,
    lit <> [] ->
    parse_literal lit v s = Some (v', r) -> (length r < length s)%nat.
Proof.
  intros lit v s v' r Hl H. unfold parse_literal in H.
  destruct (startsWith s lit) eqn:E; [|discriminate]. inversion H; subst.
  clear H. revert s E. induction lit as [|x lit IH]; [contradiction|].
  intros [|y s] E; simpl in E; [discriminate|].
  apply andb_true_iff in E as [_ E]. simpl.
  destruct lit as [|x' lit'].
  - simpl. lia.
  - assert (Hn : x' :: lit' <> []) by discriminate.
    specialize (IH Hn s E). simpl in *. lia.
Qed.

Lemma parse_shorter :
  forall f,
    (forall s v r, parse_value f s = Some (v, r) ->
                   (length r < length s)%nat) /\
    (forall s vs r, parse_elements f s = Some (vs, r) ->
                    (length r < length s)%nat) /\
    (forall s ms r, parse_members f s = Some (ms, r) ->
                    (length r < length s)%nat).
Proof.
  induction f as [|f [IHv [IHe IHm]]];
    [repeat split; intros; discriminate|].
  repeat split.
  - intros s v r H. cbn [parse_value] in H.
    pose proof (skip_ws_length s) as Hs.
    destruct (skip_ws s) as [|c r0]; [discriminate|]. simpl in Hs.
    destruct (c =? 123)%N.
    { pose proof (skip_ws_length r0) as Hr0.
      destruct (skip_ws r0) as [|c' r']; [discriminate|]. simpl in Hr0.
      destruct (c' =? 125)%N; [inversion H; subst; lia|].
      destruct (parse_members f r0) as [[ms rest]|] eqn:E; [|discriminate].
      inversion H; subst. apply IHm in E. lia. }
    destruct (c =? 91)%N.
    { pose proof (skip_ws_length r0) as Hr0.
      destruct (skip_ws r0) as [|c' r']; [discriminate|]. simpl in Hr0.
      destruct (c' =? 93)%N; [inversion H; subst; lia|].
      destruct (parse_elements f r0) as [[vs rest]|] eqn:E; [|discriminate].
      inversion H; subst. apply IHe in E. lia. }
    destruct (c =? 34)%N.
    { destruct (parse_chars r0) as [[x rest]|] eqn:E; [|discriminate].
      inversion H; subst. apply parse_chars_shorter in E. lia. }
    destruct (c =? 116)%N.
    { apply parse_literal_shorter in H; [simpl in H; lia | discriminate]. }
    destruct (c =? 102)%N.
    { apply parse_literal_shorter in H; [simpl in H; lia | discriminate]. }
    destruct (c =? 110)%N.
    { apply parse_literal_shorter in H; [simpl in H; lia | discriminate]. }
    apply parse_number_shorter in H. simpl in H. lia.
  - intros s vs r H. cbn [parse_elements] in H.
    destruct (parse_value f s) as [[v r1]|] eqn:Ev; [|discriminate].
    apply IHv in Ev.
    pose proof (skip_ws_length r1) as Hr1.
    destruct (skip_ws r1) as [|c r']; [discriminate|]. simpl in Hr1.
    destruct (c =? 44)%N.
    { destruct (parse_elements f r') as [[vs' rest]|] eqn:E; [|discriminate].
      inversion H; subst. apply IHe in E. lia. }
    destruct (c =? 93)%N; [|discriminate]. inversion H; subst. lia.
  - intros s ms r H. cbn [parse_members] in H.
    pose proof (skip_ws_length s) as Hs.
    destruct (skip_ws s) as [|q r0]; [discriminate|]. simpl in Hs.
    destruct (q =? 34)%N; [|discriminate].
    destruct (parse_chars r0) as [[k r1]|] eqn:Ek; [|discriminate].
    apply parse_chars_shorter in Ek.
    pose proof (skip_ws_length r1) as Hr1.
    destruct (skip_ws r1) as [|c1 r2]; [discriminate|]. simpl in Hr1.
    destruct (c1 =? 58)%N; [|discriminate].
    destruct (parse_value f r2) as [[v r3]|] eqn:Ev; [|discriminate].
    apply IHv in Ev.
    pose proof (skip_ws_length r3) as Hr3.
    destruct (skip_ws r3) as [|c r']; [discriminate|]. simpl in Hr3.
    destruct (c =? 44)%N.
    { destruct (parse_members f r') as [[ms' rest]|] eqn:E; [|discriminate].
      inversion H; subst. apply IHm in E. lia. }
    destruct (c =? 125)%N; [|discriminate]. inversion H; subst. lia.
Qed.

(** With fuel above twice the length of the text, the result does not
    depend on the fuel. *)
Lemma parse_fuel_irrelevant :
  forall f,
    (forall s g, (2 * length s + 1 <= f)%nat -> (2 * length s + 1 <= g)%nat ->
                 parse_value f s = parse_value g s) /\
    (forall s g, (2 * length s + 2 <= f)%nat -> (2 * length s + 2 <= g)%nat ->
                 parse_elements f s = parse_elements g s) /\
    (forall s g, (2 * length s <= f)%nat -> (2 * length s <= g)%nat ->
                 parse_members f s = parse_members g s).
Proof.
  induction f as [|f [IHv [IHe IHm]]].
  - repeat split; intros s g Hf Hg; try lia.
    destruct s; [|simpl in Hf; lia]. destruct g; reflexivity.
  - repeat split.
    + intros s [|g] Hf Hg; [lia|]. cbn [parse_value].
      pose proof (skip_ws_length s) as Hs.
      destruct (skip_ws s) as [|c r0]; [reflexivity|]. simpl in Hs.
      rewrite (IHm r0 g) by lia. rewrite (IHe r0 g) by lia. reflexivity.
    + intros s [|g] Hf Hg; [lia|]. cbn [parse_elements].
      rewrite (IHv s g) by lia.
      destruct (parse_value g s) as [[v r1]|] eqn:Ev; [|reflexivity].
      apply (proj1 (parse_shorter g)) in Ev.
      pose proof (skip_ws_length r1) as Hr1.
      destruct (skip_ws r1) as [|c r']; [reflexivity|]. simpl in Hr1.
      rewrite (IHe r' g) by lia. reflexivity.
    + intros s [|g] Hf Hg.
      * destruct s; [|simpl in Hg; lia]. reflexivity.
      * cbn [parse_members].
        pose proof (skip_ws_length s) as Hs.
        destruct (skip_ws s) as [|q r0]; [reflexivity|]. simpl in Hs.
        destruct (q =? 34)%N; [|reflexivity].
        destruct (parse_chars r0) as [[k r1]|] eqn:Ek; [|reflexivity].
        apply parse_chars_shorter in Ek.
        pose proof (skip_ws_length r1) as Hr1.
        destruct (skip_ws r1) as [|c1 r2]; [reflexivity|]. simpl in Hr1.
        destruct (c1 =? 58)%N; [|reflexivity].
        rewrite (IHv r2 g) by lia.
        destruct (parse_value g r2) as [[v r3]|] eqn:Ev; [|reflexivity].
        apply (proj1 (parse_shorter g)) in Ev.
        pose proof (skip_ws_length r3) as Hr3.
        destruct (skip_ws r3) as [|c r']; [reflexivity|]. simpl in Hr3.
        rewrite (IHm r' g) by lia. reflexivity.
Qed.

(** [JSON_parse] gives enough fuel: more would not change the result. *)
Lemma JSON_parse_fuel_enough :
  forall text f,
    (2 * length text + 2 <= f)%nat ->
    parse_value f text = parse_value (2 * length text + 2) text.
Proof.
  intros text f Hf.
  apply (proj1 (parse_fuel_irrelevant f)); lia.
Qed.

(* ------------------------------------------------------------------ *)
(** ** Computations                                                     *)
(* ------------------------------------------------------------------ *)

Lemma exec_evals :
  forall A (env : Env) (p : Prog A) o, exec env p = o -> evals p o.
Proof.
  intros A env p. induction p as [a | e | R c k IH]; simpl; intros o H.
  - congruence.
  - congruence.
  - exists (env _ c). apply IH. exact H.
Qed.

Lemma evals_bind :
  forall A B (p : Prog A) (f : A -> Prog B) o,
    evals (bind p f) o ->
    (exists a, evals p (Returned a) /\ evals (f a) o) \/
    (exists e, evals p (Thrown e) /\ o = Thrown e).
Proof.
  intros A B p f o. induction p as [a | e | R c k IH]; simpl; intros H.
  - left. exists a. split; [reflexivity | exact H].
  - right. exists e. split; [reflexivity | exact H].
  - destruct H as [r H]. destruct (IH r H) as [[a [H1 H2]] | [e [H1 H2]]].
    + left. exists a. split; [exists r; exact H1 | exact H2].
    + right. exists e. split; [exists r; exact H1 | exact H2].
Qed.

Lemma evals_try_catch :
  forall A (p : Prog A) (h : Err.Error -> Prog A) o,
    evals (try_catch p h) o ->
    (exists a, evals p (Returned a) /\ o = Returned a) \/
    (exists e, evals p (Thrown e) /\ evals (h e) o).
Proof.
  intros A p h o. induction p as [a | e | R c k IH]; simpl; intros H.
  - left. exists a. split; [reflexivity | exact H].
  - right. exists e. split; [reflexivity | exact H].
  - destruct H as [r H]. destruct (IH r H) as [[a [H1 H2]] | [e [H1 H2]]].
    + left. exists a. split; [exists r; exact H1 | exact H2].
    + right. exists e. split; [exists r; exact H1 | exact H2].
Qed.

(* ------------------------------------------------------------------ *)
(** ** The cursor                                                       *)
(* ------------------------------------------------------------------ *)


Lemma loadOffset_offsetFile :
  forall d d', offsetFile d = offsetFile d' -> loadOffset d = loadOffset d'.
Proof. intros d d' H. unfold loadOffset. rewrite H. reflexivity. Qed.

(** A later run loads the offset [saveOffset] has written. *)
Lemma loadOffset_written :
  forall d newOffset now total,
    offsetFile d = Some (JSON_stringify_2 (offsetData_of newOffset now total))
    -> loadOffset d = newOffset.
Proof.
  intros d newOffset now total H. unfold loadOffset.
  rewrite H, JSON_parse_offsetData. reflexivity.
Qed.

(** [saveOffset] writes the cursor and moves to it, or, when the write
    fails, leaves the poster as it was. *)
Lemma saveOffset_cases :
  forall now newOffset st,
    (writable (disk st) = true /\
     currentOffset (saveOffset now newOffset st) = newOffset /\
     persistedOffset (saveOffset now newOffset st) = newOffset) \/
    (writable (disk st) = false /\ saveOffset now newOffset st = st).
Proof.
  intros now newOffset st. unfold saveOffset, writeFileSync.
  destruct (writable (disk st)) eqn:Hw.
  - left. split; [reflexivity|]. split; [reflexivity|].
    unfold persistedOffset. cbn [disk].
    apply (loadOffset_written _ newOffset now
             (set_size (processedVideos st))).
    reflexivity.
  - right. split; reflexivity.
Qed.






Lemma cursor_kept_trans :
  forall a b c, cursor_kept a b -> cursor_kept b c -> cursor_kept a c.
Proof.
  intros a b c [H1 H2] [H3 H4]. split; congruence.
Qed.

Lemma cursor_advanced_kept :
  forall a b c, cursor_advanced a b -> cursor_kept b c -> cursor_advanced a c.
Proof.
  intros a b c [H1 H2] [H3 H4]. split; [congruence|].
  unfold persistedOffset in *.
  rewrite (loadOffset_offsetFile (disk c) (disk b) H4). exact H2.
Qed.


(** The poster after a scan: as it was, or after [saveOffset] of the next
    batch. *)
Lemma findOldestUnprocessedVideo_state :
  forall st found st',
    evals (findOldestUnprocessedVideo st) (Returned (found, st')) ->
    (found <> None /\ st' = st) \/
    (found = None /\
     exists now, st' = saveOffset now (currentOffset st + batchSize) st).
Proof.
  intros st found st'. unfold findOldestUnprocessedVideo. simpl.
  intros [r H]. destruct r as [entity|e]; simpl in H; [|discriminate].
  destruct H as [page H].
  destruct (scan st (yielded page)) as [m|]; simpl in H.
  - inversion H; subst. left. split; [discriminate | reflexivity].
  - destruct (iterError page); simpl in H; [discriminate|].
    destruct H as [now H]. inversion H; subst.
    right. split; [reflexivity|]. exists now. reflexivity.
Qed.



(** How a turn of the loop of [run] can end. *)
Lemma loopBody_outcomes :
  forall st turn st',
    evals (loopBody st) (Returned (turn, st')) ->
    (turn = TryAgain /\ st' = st) \/
    (turn = NothingToDo /\
     evals (findOldestUnprocessedVideo st) (Returned (None, st'))) \/
    (exists videoMessage,
        evals (findOldestUnprocessedVideo st)
          (Returned (Some videoMessage, st)) /\
        ((turn = Posted /\
          exists now,
            st' = markProcessed now (generateVideoId videoMessage) st) \/
         (turn = MarkedFailed /\
          exists uploadError now now',
            st' = recordFailure now now' videoMessage uploadError st))).
Proof.
  intros st turn st' H. unfold loopBody in H.
  apply evals_try_catch in H as [[a [H Ea]] | [e [_ H]]].
  2:{ simpl in H. inversion H; subst. left. split; reflexivity. }
  inversion Ea; subst a. clear Ea.
  apply evals_bind in H as [[[found st1] [Hscan H]] | [e [_ H]]];
    [|discriminate].
  destruct found as [videoMessage|].
  2:{ simpl in H. inversion H; subst. right. left.
      split; [reflexivity | exact Hscan]. }
  right. right. exists videoMessage.
  assert (Est : st1 = st).
  { destruct (findOldestUnprocessedVideo_state _ _ _ Hscan)
      as [[_ E] | [E _]]; [exact E | discriminate E]. }
  subst st1. split; [exact Hscan|].
  apply evals_try_catch in H as [[a [H Ea]] | [e [_ H]]].
  - inversion Ea; subst a. clear Ea.
    apply evals_bind in H as [[caption [_ H]] | [e [_ H]]];
      [|discriminate].
    simpl in H. destruct H as [rewritten [r H]].
    destruct r as [videoPath|e]; simpl in H; [|discriminate].
    destruct H as [r H]. unfold fail_video in H.
    destruct r as [posted|e]; simpl in H.
    + destruct H as [now [cleaned H]]. inversion H; subst.
      left. split; [reflexivity|]. exists now. reflexivity.
    + destruct H as [now [now' [cleaned H]]]. inversion H; subst.
      right. split; [reflexivity|]. exists e, now, now'. reflexivity.
  - unfold fail_video in H. simpl in H.
    destruct H as [now [now' H]]. inversion H; subst.
    right. split; [reflexivity|]. exists e, now, now'. reflexivity.
Qed.


Lemma findOldestUnprocessedVideo_returns_first_unresolved_witness :
  exists entity earlier later,
    env_of_page page_of_four sample_error _
      (GetEntity (groupName poster_two_resolved)) = Ok entity /\
    yielded (env_of_page page_of_four sample_error _
               (IterMessages entity batchSize
                  (offsetId_of poster_two_resolved)))
    = earlier ++ numbered_message 3 :: later /\
    ~ in_ProcessedSet poster_two_resolved
        (generateVideoId (numbered_message 3)) /\
    ~ in_FailedSet poster_two_resolved
        (generateVideoId (numbered_message 3)) /\
    Forall (fun x => in_ProcessedSet poster_two_resolved (generateVideoId x) \/
                     in_FailedSet poster_two_resolved (generateVideoId x))
           earlier.
Proof.
  apply (findOldestUnprocessedVideo_returns_first_unresolved
           (env_of_page page_of_four sample_error)
           poster_two_resolved poster_two_resolved (numbered_message 3)).
  vm_compute. reflexivity.
Defined.




Lemma exhausted_page_scan :
  forall env st n,
    exhausted_page env st n ->
    exec env (findOldestUnprocessedVideo st) =
    Returned (None,
              saveOffset (env _ Clock) (currentOffset st + batchSize) st).
Proof.
  intros env st n [entity [He [_ [Herr Hall]]]].
  rewrite exec_findOldestUnprocessedVideo, He. cbv zeta.
  assert (Hs : scan st (yielded (env _ (IterMessages entity batchSize
                                          (offsetId_of st)))) = None).
  { apply scan_none. eapply Forall_impl; [|exact Hall].
    intros m Hm. apply unresolved_false. exact Hm. }
  rewrite Hs, Herr. reflexivity.
Qed.



Lemma reachable_newPoster : forall group d, reachable (newPoster group d).
Proof. intros group d. exists group, d. apply steps_none. Qed.






(* ------------------------------------------------------------------ *)
(** ** Loading the sets                                                 *)
(* ------------------------------------------------------------------ *)

Lemma read_video_set_legacy :
  forall text ids,
    JSON_parse text = Some (JArr ids) ->
    read_video_set text = Some (new_Set ids).
Proof. intros text ids H. unfold read_video_set. rewrite H. reflexivity. Qed.

Lemma read_video_set_structured :
  forall text fields ids,
    JSON_parse text = Some (JObj fields) ->
    lookup_member fields (str "videos") = Some (JArr ids) ->
    read_video_set text = Some (new_Set ids).
Proof.
  intros text fields ids H Hv. unfold read_video_set. rewrite H.
  cbn [bind_opt member]. rewrite Hv. reflexivity.
Qed.

(** C9.  For every sequence of identifiers, a file that holds them as a bare
    JSON array and a file that holds an object whose [videos] member is the
    same array load into the same set, for the processed set and for the
    failed set: the set made of the identifiers, so membership agrees. *)
Theorem legacy_and_structured_files_load_the_same_set :
  forall (identifiers : list jsstring) (legacy structured : jsstring)
         (fields : list (jsstring * json)) (d1 d2 : Disk),
    JSON_parse legacy = Some (JArr (map JStr identifiers)) ->
    JSON_parse structured = Some (JObj fields) ->
    lookup_member fields (str "videos")
    = Some (JArr (map JStr identifiers)) ->
    (processedVideosFile d1 = Some legacy ->
     processedVideosFile d2 = Some structured ->
     loadProcessedVideos d1 = new_Set (map JStr identifiers) /\
     loadProcessedVideos d2 = new_Set (map JStr identifiers) /\
     forall x, set_has (loadProcessedVideos d1) x
               = set_has (loadProcessedVideos d2) x) /\
    (failedVideosFile d1 = Some legacy ->
     failedVideosFile d2 = Some structured ->
     loadFailedVideos d1 = new_Set (map JStr identifiers) /\
     loadFailedVideos d2 = new_Set (map JStr identifiers) /\
     forall x, set_has (loadFailedVideos d1) x
               = set_has (loadFailedVideos d2) x).
Proof.
  intros identifiers legacy structured fields d1 d2 Hl Hs Hv.
  pose proof (read_video_set_legacy _ _ Hl) as H1.
  pose proof (read_video_set_structured _ _ _ Hs Hv) as H2.
  split; intros E1 E2.
  - unfold loadProcessedVideos. rewrite E1, E2, H1, H2.
    repeat split; reflexivity.
  - unfold loadFailedVideos. rewrite E1, E2, H1, H2.
    repeat split; reflexivity.
Qed.

Lemma legacy_and_structured_files_load_the_same_set_witness :
  (loadProcessedVideos (disk_holding legacy_text)
   = new_Set (map JStr two_identifiers) /\
   loadProcessedVideos (disk_holding structured_text)
   = new_Set (map JStr two_identifiers) /\
   forall x, set_has (loadProcessedVideos (disk_holding legacy_text)) x
             = set_has (loadProcessedVideos (disk_holding structured_text)) x)
  /\
  (loadFailedVideos (disk_holding legacy_text)
   = new_Set (map JStr two_identifiers) /\
   loadFailedVideos (disk_holding structured_text)
   = new_Set (map JStr two_identifiers) /\
   forall x, set_has (loadFailedVideos (disk_holding legacy_text)) x
             = set_has (loadFailedVideos (disk_holding structured_text)) x).
Proof.
  destruct (legacy_and_structured_files_load_the_same_set
              two_identifiers legacy_text structured_text
              [(str "lastUpdated", JStr (str "2024-01-01T00:00:00.000Z"));
               (str "totalProcessed", JNum 2);
               (str "videos", JArr (map JStr two_identifiers))]
              (disk_holding legacy_text) (disk_holding structured_text))
    as [Hp Hf]; try (vm_compute; reflexivity).
  split; [apply Hp | apply Hf]; reflexivity.
Defined.

(* ------------------------------------------------------------------ *)
(** ** The caption resolver                                             *)
(* ------------------------------------------------------------------ *)

Lemma trim_nil : trim [] = [].
Proof. reflexivity. Qed.

(** C7.  For every candidate whose own text is not empty after trimming,
    [extractVideoCaption] returns the trimmed text at once: the computation
    is a bare return, so whatever the collaborators would answer no call is
    made, neither the fetch of the surrounding messages nor the ranking. *)
Theorem extractVideoCaption_own_text_first :
  forall (st : Poster) (videoMessage : Message) (t : jsstring),
    message videoMessage = Some t ->
    trim t <> [] ->
    extractVideoCaption st videoMessage = Ret (trim t) /\
    forall env : Env,
      exec env (extractVideoCaption st videoMessage) = Returned (trim t) /\
      calls_made env (extractVideoCaption st videoMessage) = [].
Proof.
  intros st videoMessage t Ht Hne.
  assert (E : extractVideoCaption st videoMessage = Ret (trim t)).
  { unfold extractVideoCaption, own_caption. rewrite Ht.
    assert (Hn : nonempty t = true).
    { destruct t; [exfalso; apply Hne; apply trim_nil | reflexivity]. }
    assert (Hn' : nonempty (trim t) = true).
    { destruct (trim t); [exfalso; apply Hne; reflexivity | reflexivity]. }
    rewrite Hn, Hn'. reflexivity. }
  split; [exact E|]. intros env. rewrite E. split; reflexivity.
Qed.

Lemma extractVideoCaption_own_text_first_witness :
  extractVideoCaption poster_two_resolved (message_with_text (str "  hello "))
  = Ret (str "hello") /\
  forall env : Env,
    exec env (extractVideoCaption poster_two_resolved
                (message_with_text (str "  hello ")))
    = Returned (str "hello") /\
    calls_made env (extractVideoCaption poster_two_resolved
                      (message_with_text (str "  hello "))) = [].
Proof.
  apply (extractVideoCaption_own_text_first poster_two_resolved
           (message_with_text (str "  hello ")) (str "  hello ")).
  - reflexivity.
  - discriminate.
Defined.

(* ------------------------------------------------------------------ *)
(** ** The failure classifier                                           *)
(* ------------------------------------------------------------------ *)

(** The chain of tests of the source is a first match in [code_priority]. *)
Lemma failureReason_first_match :
  forall e, failureReason e = reason_text (first_match code_priority e) e.
Proof.
  intros e. unfold failureReason, code_priority, first_match,
    matches_category.
  destruct (includes (Err.message e) (str "video longer than"));
    [reflexivity|].
  destruct (includes (Err.message e) (str "Forbidden") || code_is e 403);
    [reflexivity|].
  destruct (includes (Err.message e) (str "too large")
            || includes (Err.message e) (str "file size")); [reflexivity|].
  destruct (includes (Err.message e) (str "format")
            || includes (Err.message e) (str "codec")); [reflexivity|].
  destruct (code_is e 429); [reflexivity|].
  destruct (code_ge e 400 && code_lt e 500); [reflexivity|].
  destruct (code_ge e 500); reflexivity.
Qed.

Lemma set_add_In : forall s x, In (JStr x) (set_add s (JStr x)).
Proof.
  intros s x. unfold set_add.
  destruct (set_has s (JStr x)) eqn:H.
  - apply set_has_string. exact H.
  - apply in_or_app. right. left. reflexivity.
Qed.

(** The record [addFailedVideo] stores is an entry in the structured
    encoding for its [videoId]. *)
Lemma failureRecord_structured :
  forall videoId reason timestamp error,
    structured_entry videoId
      (JStr (stringify (failureRecord videoId reason timestamp error))).
Proof.
  intros videoId reason timestamp error.
  exists [(str "videoId", JStr videoId);
          (str "reason", JStr reason);
          (str "timestamp", JStr timestamp);
          (str "error", match error with
                        | Some e => JStr (Err.message e)
                        | None => JNull
                        end)].
  split; [apply JSON_parse_failureRecord | reflexivity].
Qed.

Lemma failedVideos_saveFailedVideos :
  forall now st, failedVideos (saveFailedVideos now st) = failedVideos st.
Proof.
  intros now st. unfold saveFailedVideos, writeFileSync.
  destruct (writable (disk st)); reflexivity.
Qed.

(** After [addFailedVideo], the record is in the failed set and
    [isVideoFailed] answers [true] for the identifier. *)
Lemma addFailedVideo_isVideoFailed :
  forall now now' videoId reason error st,
    let st' := addFailedVideo now now' videoId reason error st in
    In (JStr (stringify (failureRecord videoId reason now error)))
       (failedVideos st') /\
    isVideoFailed st' videoId = true.
Proof.
  intros now now' videoId reason error st st'. subst st'.
  assert (Hin : In (JStr (stringify (failureRecord videoId reason now error)))
                   (failedVideos
                      (addFailedVideo now now' videoId reason error st))).
  { unfold addFailedVideo. rewrite failedVideos_saveFailedVideos.
    cbn [failedVideos]. apply set_add_In. }
  split; [exact Hin|].
  unfold isVideoFailed. apply existsb_exists. eexists. split; [exact Hin|].
  apply structured_entry_matches, failureRecord_structured.
Qed.

(** C4, amended.  The reason of every error is that of the first category
    it matches in the order of the tests of the source: duration exceeded,
    forbidden, size exceeded, unsupported format, rate limited, client
    error, server error, unknown.  An error whose message contains
    ["video longer than"] gets the duration reason; the [catch] block of
    [run] puts a record with that reason in the failed set, and
    [isVideoFailed] then answers [true] for the fingerprint.  Every turn of
    the loop of [run] that ends with a failure has recorded it so. *)
Theorem failureReason_first_match_in_code_order :
  (forall e : Err.Error,
      failureReason e = reason_text (first_match code_priority e) e) /\
  (forall (now now' : jsstring) (videoMessage : Message)
          (uploadError : Err.Error) (st : Poster),
      includes (Err.message uploadError) (str "video longer than") = true ->
      let videoId := generateVideoId videoMessage in
      let st' := recordFailure now now' videoMessage uploadError st in
      first_match code_priority uploadError = DurationExceeded /\
      failureReason uploadError = str "Video too long (>2 minutes)" /\
      In (JStr (stringify
                  (failureRecord videoId (str "Video too long (>2 minutes)")
                     now (Some uploadError))))
         (failedVideos st') /\
      isVideoFailed st' videoId = true) /\
  (forall (st st' : Poster),
      evals (loopBody st) (Returned (MarkedFailed, st')) ->
      exists videoMessage uploadError now now',
        evals (findOldestUnprocessedVideo st)
          (Returned (Some videoMessage, st)) /\
        st' = recordFailure now now' videoMessage uploadError st /\
        In (JStr (stringify
                    (failureRecord (generateVideoId videoMessage)
                       (failureReason uploadError) now (Some uploadError))))
           (failedVideos st') /\
        isVideoFailed st' (generateVideoId videoMessage) = true).
Proof.
  split; [apply failureReason_first_match|]. split.
  - intros now now' videoMessage uploadError st Hlong videoId st'.
    assert (Hr : failureReason uploadError
                 = str "Video too long (>2 minutes)").
    { unfold failureReason. rewrite Hlong. reflexivity. }
    split; [unfold code_priority, first_match, matches_category;
            rewrite Hlong; reflexivity|].
    split; [exact Hr|].
    subst st'. unfold recordFailure. fold videoId. rewrite Hr.
    apply addFailedVideo_isVideoFailed.
  - intros st st' H.
    destruct (loopBody_outcomes _ _ _ H)
      as [[E _] | [[E _] | [videoMessage [Hscan [[E _]
                                                  | [_ [e [now [now' ->]]]]]]]]];
      try discriminate E.
    exists videoMessage, e, now, now'.
    split; [exact Hscan|]. split; [reflexivity|].
    unfold recordFailure. apply addFailedVideo_isVideoFailed.
Qed.

Lemma failureReason_first_match_in_code_order_witness :
  failureReason forbidden_and_too_large
  = str "Twitter API forbidden (video restrictions)" /\
  (let videoId := generateVideoId message_without_video in
   let st' :=
     recordFailure (str "2024-01-01T00:00:00.000Z")
       (str "2024-01-01T00:00:00.001Z") message_without_video
       too_long_error poster_two_resolved in
   first_match code_priority too_long_error = DurationExceeded /\
   failureReason too_long_error = str "Video too long (>2 minutes)" /\
   In (JStr (stringify
               (failureRecord videoId (str "Video too long (>2 minutes)")
                  (str "2024-01-01T00:00:00.000Z") (Some too_long_error))))
      (failedVideos st') /\
   isVideoFailed st' videoId = true) /\
  (let st := poster_two_resolved in
   let st' :=
     recordFailure (str "2024-01-01T00:00:00.000Z")
       (str "2024-01-01T00:00:00.000Z") (numbered_message 3)
       too_long_error st in
   exists videoMessage uploadError now now',
     evals (findOldestUnprocessedVideo st)
       (Returned (Some videoMessage, st)) /\
     st' = recordFailure now now' videoMessage uploadError st /\
     In (JStr (stringify
                 (failureRecord (generateVideoId videoMessage)
                    (failureReason uploadError) now (Some uploadError))))
        (failedVideos st') /\
     isVideoFailed st' (generateVideoId videoMessage) = true).
Proof.
  destruct failureReason_first_match_in_code_order
    as [Horder [Hlong Hturn]].
  split; [rewrite Horder; reflexivity|]. split.
  - apply Hlong. reflexivity.
  - apply Hturn.
    apply (exec_evals _ (env_of_page page_of_four too_long_error)).
    vm_compute. reflexivity.
Defined.

(** C4 as worded fails: an error that is forbidden and too large gets the
    forbidden reason, where the order of the specification gives the size
    reason. *)
Lemma forbidden_is_tested_before_size :
  ~ classified_in_spec_order forbidden_and_too_large.
Proof. unfold classified_in_spec_order. vm_compute. discriminate. Qed.

Lemma exec_bind :
  forall A B (env : Env) (p : Prog A) (f : A -> Prog B),
    exec env (bind p f) =
    match exec env p with
    | Returned a => exec env (f a)
    | Thrown e => Thrown e
    end.
Proof.
  intros A B env p f. induction p as [a | e | R c k IH]; simpl;
    [reflexivity | reflexivity | apply IH].
Qed.

Lemma exec_try_catch :
  forall A (env : Env) (p : Prog A) (h : Err.Error -> Prog A),
    exec env (try_catch p h) =
    match exec env p with
    | Returned a => Returned a
    | Thrown e => exec env (h e)
    end.
Proof.
  intros A env p h. induction p as [a | e | R c k IH]; simpl;
    [reflexivity | reflexivity | apply IH].
Qed.

(** How [findRelevantCaption] runs against an environment. *)
Lemma exec_findRelevantCaption :
  forall env videoMessage window,
    exec env (findRelevantCaption videoMessage window) =
    Returned
      (if is_nil window then []
       else match ranked env videoMessage window with
            | Some content => select_caption videoMessage window content
            | None => fallback_caption videoMessage window
            end).
Proof.
  intros env videoMessage window. unfold findRelevantCaption, ranked.
  destruct (is_nil window); [reflexivity|].
  destruct (prompt_of videoMessage window) as [prompt|]; [|reflexivity].
  simpl.
  destruct (env _ (ChatCompletion (ranking_request prompt)))
    as [[content|]|e]; reflexivity.
Qed.

(** How [extractVideoCaption] runs against an environment. *)
Lemma exec_extractVideoCaption :
  forall env st videoMessage,
    exec env (extractVideoCaption st videoMessage) =
    Returned
      match own_caption videoMessage with
      | Some caption => caption
      | None =>
        match env _ (GetEntity (groupName st)) with
        | Ok entity =>
          match env _ (GetMessages entity (messageIds_of videoMessage)) with
          | Ok surrounding =>
            let window := contextMessages_of videoMessage surrounding in
            if is_nil window then []
            else match ranked env videoMessage window with
                 | Some content => select_caption videoMessage window content
                 | None => fallback_caption videoMessage window
                 end
          | Failed _ => []
          end
        | Failed _ => []
        end
      end.
Proof.
  intros env st videoMessage. unfold extractVideoCaption.
  destruct (own_caption videoMessage) as [caption|]; [reflexivity|].
  rewrite exec_try_catch. simpl.
  destruct (env _ (GetEntity (groupName st))) as [entity|e];
    [|reflexivity].
  simpl.
  destruct (env _ (GetMessages entity (messageIds_of videoMessage)))
    as [surrounding|e]; [|reflexivity].
  simpl.
  destruct (is_nil (contextMessages_of videoMessage surrounding)) eqn:Hn;
    [reflexivity|].
  rewrite exec_bind, exec_findRelevantCaption, Hn.
  match goal with
  | |- context [nonempty ?c] => destruct c; reflexivity
  end.
Qed.

Lemma sender_eqb_eq : forall a b, sender_eqb a b = true <-> a = b.
Proof.
  intros [x|] [y|]; simpl; split; intros H; try congruence.
  - apply Z.eqb_eq in H. congruence.
  - inversion H. apply Z.eqb_refl.
Qed.

Lemma fallback_candidate_iff :
  forall videoMessage entry,
    fallback_candidate videoMessage entry = true <->
    same_sender_nearby videoMessage entry.
Proof.
  intros videoMessage entry. unfold fallback_candidate, same_sender_nearby.
  rewrite andb_true_iff, sender_eqb_eq, Z.ltb_lt. reflexivity.
Qed.

Lemma matches_entry_iff :
  forall answer entry,
    matches_entry answer entry = true <-> matches_text answer entry.
Proof.
  intros answer entry. unfold matches_entry, matches_text.
  rewrite !orb_true_iff, str_eqb_eq. tauto.
Qed.









(** The scenario of the specification: the sender wrote ["look at this"]
    ten seconds before the video and the ranking call errors. *)
Lemma fallback_scenario :
  exec (env_with_ranking [Some message_before] (Failed sample_error))
    (extractVideoCaption poster_two_resolved silent_video)
  = Returned (str "look at this").
Proof. vm_compute. reflexivity. Qed.

(** A [NONE] answer is not a failure: the resolver returns the empty
    string and the fallback is not tried. *)
Lemma none_answer_gives_no_caption :
  forall videoMessage window,
    select_caption videoMessage window (str "NONE") = [].
Proof. reflexivity. Qed.

(** Where a caption selected from the content of an answer comes from. *)
Lemma select_caption_origin :
  forall videoMessage window content caption,
    select_caption videoMessage window content = caption ->
    caption <> [] ->
    (caption = clean_response content /\
     exists entry, In entry window /\ matches_text caption entry) \/
    (exists entry, In entry window /\
                   same_sender_nearby videoMessage entry /\
                   caption = Ctx.text entry).
Proof.
  intros videoMessage window content caption H Hne.
  unfold select_caption in H.
  destruct (str_eqb (clean_response content) (str "NONE")
            || is_nil (clean_response content)); [congruence|].
  destruct (find (matches_entry (clean_response content)) window)
    as [m|] eqn:Hf.
  - left. apply find_some in Hf as [Hin Hm]. subst caption.
    split; [reflexivity|]. exists m. split; [exact Hin|].
    apply matches_entry_iff. exact Hm.
  - right. unfold fallback_caption in H.
    destruct (find (fallback_candidate videoMessage) window)
      as [m|] eqn:Hb; [|congruence].
    apply find_some in Hb as [Hin Hm]. exists m.
    split; [exact Hin|]. split; [|congruence].
    apply fallback_candidate_iff. exact Hm.
Qed.

Lemma fallback_caption_origin :
  forall videoMessage window caption,
    fallback_caption videoMessage window = caption ->
    caption <> [] ->
    exists entry, In entry window /\
                  same_sender_nearby videoMessage entry /\
                  caption = Ctx.text entry.
Proof.
  intros videoMessage window caption H Hne. unfold fallback_caption in H.
  destruct (find (fallback_candidate videoMessage) window) as [m|] eqn:Hb;
    [|congruence].
  apply find_some in Hb as [Hin Hm]. exists m.
  split; [exact Hin|]. split; [|congruence].
  apply fallback_candidate_iff. exact Hm.
Qed.

Lemma window_caption_origin :
  forall env videoMessage window caption,
    (if is_nil window then []
     else match ranked env videoMessage window with
          | Some content => select_caption videoMessage window content
          | None => fallback_caption videoMessage window
          end) = caption ->
    caption <> [] ->
    from_window env videoMessage window caption.
Proof.
  intros env videoMessage window caption H Hne.
  destruct (is_nil window); [congruence|].
  destruct (ranked env videoMessage window) as [content|] eqn:Hr.
  - destruct (select_caption_origin _ _ _ _ H Hne)
      as [[Hc [entry [Hin Hm]]] | Hfb].
    + left. exists content, entry. repeat split; assumption.
    + right. exact Hfb.
  - right. apply (fallback_caption_origin _ _ _ H Hne).
Qed.

(** C5, amended.  A caption that is not empty is never made up by the
    resolver itself: it is the trimmed own text of the candidate, or the
    text of an entry of the window from the sender of the candidate and
    less than 300 seconds away, or the cleaned content of the answer of the
    ranking call, which is accepted only when it equals the text of some
    entry of the window, is part of it, or contains it. *)
Theorem caption_is_own_text_or_matches_window :
  (forall (env : Env) (videoMessage : Message)
          (window : list Ctx.ContextMessage) (caption : jsstring),
      exec env (findRelevantCaption videoMessage window) = Returned caption ->
      caption <> [] ->
      from_window env videoMessage window caption) /\
  (forall (env : Env) (st : Poster) (videoMessage : Message)
          (caption : jsstring),
      exec env (extractVideoCaption st videoMessage) = Returned caption ->
      caption <> [] ->
      own_caption videoMessage = Some caption \/
      exists entity surrounding,
        env _ (GetEntity (groupName st)) = Ok entity /\
        env _ (GetMessages entity (messageIds_of videoMessage))
        = Ok surrounding /\
        from_window env videoMessage
          (contextMessages_of videoMessage surrounding) caption).
Proof.
  split.
  - intros env videoMessage window caption H Hne.
    rewrite exec_findRelevantCaption in H. injection H as H.
    apply (window_caption_origin _ _ _ _ H Hne).
  - intros env st videoMessage caption H Hne.
    rewrite exec_extractVideoCaption in H. injection H as H.
    destruct (own_caption videoMessage) as [own|]; [left; congruence|].
    right.
    destruct (env _ (GetEntity (groupName st))) as [entity|e] eqn:He;
      [|congruence].
    destruct (env _ (GetMessages entity (messageIds_of videoMessage)))
      as [surrounding|e] eqn:Hm; [|congruence].
    exists entity, surrounding. split; [reflexivity|].
    split; [exact Hm|].
    apply (window_caption_origin _ _ _ _ H Hne).
Qed.

Lemma embellished_caption :
  exec env_embellishing (extractVideoCaption poster_two_resolved silent_video)
  = Returned embellished_answer.
Proof. vm_compute. reflexivity. Qed.

Lemma caption_is_own_text_or_matches_window_witness :
  from_window env_embellishing silent_video
    (contextMessages_of silent_video [Some message_before])
    embellished_answer /\
  (own_caption silent_video = Some embellished_answer \/
   exists entity surrounding,
     env_embellishing _ (GetEntity (groupName poster_two_resolved))
     = Ok entity /\
     env_embellishing _ (GetMessages entity (messageIds_of silent_video))
     = Ok surrounding /\
     from_window env_embellishing silent_video
       (contextMessages_of silent_video surrounding) embellished_answer).
Proof.
  destruct caption_is_own_text_or_matches_window as [Hfind Hextract].
  split.
  - apply Hfind; [vm_compute; reflexivity | discriminate].
  - apply (Hextract env_embellishing poster_two_resolved silent_video
             embellished_answer embellished_caption).
    discriminate.
Defined.

(** C5 as worded fails: the ranking call answers with the text of the
    message before the video and some words more; the answer contains the
    text of that entry, so it is accepted and returned, and it is neither
    the own text of the candidate nor the text of an entry. *)
Lemma accepted_answer_is_not_an_entry :
  ~ never_invents env_embellishing poster_two_resolved silent_video
      [Some message_before].
Proof.
  intros Hclaim.
  destruct (Hclaim embellished_answer embellished_caption)
    as [Hown | [Hown | [entry [Hin Htext]]]]; try discriminate.
  vm_compute in Hin. destruct Hin as [<- | []].
  vm_compute in Htext. discriminate Htext.
Qed.

(* ================================================================== *)
(** * Part II, continued.  Further properties of the code               *)
(* ================================================================== *)

(* ------------------------------------------------------------------ *)
(** ** Sets: no entry twice                                             *)
(* ------------------------------------------------------------------ *)

Lemma sameValueZero_sym :
  forall a b, sameValueZero a b = sameValueZero b a.
Proof.
  intros a b. destruct a, b; simpl; try reflexivity.
  - destruct b, b0; reflexivity.
  - apply Z.eqb_sym.
  - rewrite (Z.eqb_sym m m0), (Z.eqb_sym e e0). reflexivity.
  - destruct (str_eqb s s0) eqn:H1, (str_eqb s0 s) eqn:H2; try reflexivity.
    + apply str_eqb_eq in H1. subst. rewrite str_eqb_refl in H2. congruence.
    + apply str_eqb_eq in H2. subst. rewrite str_eqb_refl in H1. congruence.
Qed.

Lemma set_has_app :
  forall a b x, set_has (a ++ b) x = set_has a x || set_has b x.
Proof. intros a b x. unfold set_has. apply existsb_app. Qed.

Lemma set_has_one :
  forall x y, set_has [x] y = sameValueZero y x.
Proof. intros x y. unfold set_has. simpl. apply orb_false_r. Qed.

Lemma distinct_app_one :
  forall s x,
    distinct s = true -> set_has s x = false -> distinct (s ++ [x]) = true.
Proof.
  induction s as [|y s IH]; intros x Hd Hx.
  - reflexivity.
  - simpl in Hd. apply andb_true_iff in Hd as [Hy Hs].
    unfold set_has in Hx. simpl in Hx.
    apply orb_false_iff in Hx as [Hxy Hx].
    simpl. rewrite set_has_app, set_has_one.
    apply negb_true_iff in Hy. rewrite Hy.
    rewrite sameValueZero_sym, Hxy. simpl.
    apply IH; assumption.
Qed.

Lemma set_add_distinct :
  forall s x, distinct s = true -> distinct (set_add s x) = true.
Proof.
  intros s x Hd. unfold set_add.
  destruct (set_has s x) eqn:Hx; [exact Hd|].
  apply distinct_app_one; assumption.
Qed.

Lemma fold_set_add_distinct :
  forall xs acc,
    distinct acc = true -> distinct (fold_left set_add xs acc) = true.
Proof.
  induction xs as [|x xs IH]; intros acc Hd; simpl.
  - exact Hd.
  - apply IH. apply set_add_distinct. exact Hd.
Qed.

Lemma new_Set_distinct : forall xs, distinct (new_Set xs) = true.
Proof. intros xs. apply fold_set_add_distinct. reflexivity. Qed.

(** Adding the entries of a set, in order, to a set that holds none of
    them appends them. *)
Lemma fold_set_add_fresh :
  forall s acc,
    distinct s = true ->
    forallb (fun x => negb (set_has acc x)) s = true ->
    fold_left set_add s acc = acc ++ s.
Proof.
  induction s as [|x s IH]; intros acc Hd Hf; simpl.
  - symmetry. apply app_nil_r.
  - simpl in Hd, Hf.
    apply andb_true_iff in Hd as [Hx Hs].
    apply andb_true_iff in Hf as [Hax Hf].
    apply negb_true_iff in Hax. unfold set_add at 2. rewrite Hax.
    rewrite IH.
    + rewrite <- app_assoc. reflexivity.
    + exact Hs.
    + apply forallb_forall. intros y Hy.
      rewrite forallb_forall in Hf. specialize (Hf y Hy).
      rewrite set_has_app, set_has_one.
      apply negb_true_iff in Hf. rewrite Hf. simpl.
      apply negb_true_iff. apply negb_true_iff in Hx.
      unfold set_has in Hx.
      destruct (sameValueZero y x) eqn:Hyx; [|reflexivity].
      rewrite sameValueZero_sym in Hyx.
      assert (existsb (sameValueZero x) s = true)
        by (apply existsb_exists; exists y; split; assumption).
      congruence.
Qed.

(** [new Set(s)] of the content of a set is that set again. *)
Lemma new_Set_of_set :
  forall s, distinct s = true -> new_Set s = s.
Proof.
  intros s Hd. unfold new_Set. rewrite fold_set_add_fresh.
  - reflexivity.
  - exact Hd.
  - apply forallb_forall. intros x _. reflexivity.
Qed.

Lemma strings_only_app :
  forall a b, strings_only (a ++ b) = strings_only a && strings_only b.
Proof. intros a b. unfold strings_only. apply forallb_app. Qed.

Lemma set_add_strings_only :
  forall s x,
    strings_only s = true -> strings_only (set_add s (JStr x)) = true.
Proof.
  intros s x H. unfold set_add. destruct (set_has s (JStr x)); [exact H|].
  rewrite strings_only_app, H. reflexivity.
Qed.

Lemma strings_only_map :
  forall s, strings_only s = true -> exists ids, s = map JStr ids.
Proof.
  induction s as [|x s IH]; intros H.
  - exists []. reflexivity.
  - simpl in H. apply andb_true_iff in H as [Hx Hs].
    destruct (IH Hs) as [ids ->].
    destruct x as [|b|z|m e|t|l|l]; try discriminate Hx.
    exists (t :: ids). reflexivity.
Qed.

(* ------------------------------------------------------------------ *)
(** ** The files of the two sets, written and read back                 *)
(* ------------------------------------------------------------------ *)

Lemma parse_value_spaces :
  forall n f s, parse_value f (spaces n ++ s) = parse_value f s.
Proof.
  induction n as [|n IH]; intros f s.
  - reflexivity.
  - change (spaces (S n) ++ s) with (32%N :: spaces n ++ s).
    rewrite parse_value_ws by reflexivity. apply IH.
Qed.

Lemma skip_ws_spaces :
  forall n c s, is_ws c = false -> skip_ws (spaces n ++ c :: s) = c :: s.
Proof.
  induction n as [|n IH]; intros c s Hc.
  - simpl. rewrite Hc. reflexivity.
  - change (spaces (S n) ++ c :: s) with (32%N :: spaces n ++ c :: s).
    simpl. apply IH. exact Hc.
Qed.

Lemma parse_elements_step :
  forall f s,
    parse_elements (S f) s =
    match parse_value f s with
    | Some (v, r) =>
      match skip_ws r with
      | c :: r' =>
        if (c =? 44)%N then
          match parse_elements f r' with
          | Some (vs, rest) => Some (v :: vs, rest)
          | None => None
          end
        else if (c =? 93)%N then Some ([v], r')
        else None
      | [] => None
      end
    | None => None
    end.
Proof. reflexivity. Qed.

Lemma join_more :
  forall sep a b l, join sep (a :: b :: l) = a ++ sep ++ join sep (b :: l).
Proof. reflexivity. Qed.

(** The elements of an array of strings, one on a line. *)
Lemma parse_elements_strings :
  forall (i j : nat) ids f rest,
    ids <> [] ->
    (length ids <= f)%nat ->
    parse_elements (S f)
      (10%N :: join [44%N; 10%N] (map (fun x => spaces i ++ quote x) ids) ++
       10%N :: spaces j ++ 93%N :: rest)
    = Some (map JStr ids, rest).
Proof.
  intros i j. induction ids as [|x ids IH]; intros f rest Hne Hlen.
  - congruence.
  - destruct f as [|f]; [simpl in Hlen; lia|].
    rewrite parse_elements_step.
    rewrite parse_value_ws by reflexivity.
    destruct ids as [|y more].
    + cbn [map join].
      rewrite <- app_assoc. rewrite parse_value_spaces.
      rewrite parse_value_string.
      cbn [skip_ws is_ws N.eqb Pos.eqb orb app].
      rewrite skip_ws_spaces by reflexivity.
      reflexivity.
    + change (map (fun x0 => spaces i ++ quote x0) (x :: y :: more))
        with ((spaces i ++ quote x) ::
              map (fun x0 => spaces i ++ quote x0) (y :: more)).
      cbn [map]. rewrite join_more.
      repeat rewrite <- app_assoc. rewrite parse_value_spaces.
      rewrite parse_value_string.
      cbn [skip_ws is_ws N.eqb Pos.eqb orb app].
      specialize (IH f rest).
      cbn [map] in IH. rewrite IH.
      * reflexivity.
      * discriminate.
      * simpl in *. lia.
Qed.

(** An array with at least one element, the first a string. *)
Lemma parse_value_array :
  forall f r k r',
    skip_ws r = quote k ++ r' ->
    parse_value (S f) (91%N :: r) =
    match parse_elements f r with
    | Some (vs, rest) => Some (JArr vs, rest)
    | None => None
    end.
Proof.
  intros f r k r' Hr. cbn [parse_value skip_ws].
  change (is_ws 91) with false. cbv iota.
  change (91 =? 123)%N with false. change (91 =? 91)%N with true. cbv iota.
  rewrite Hr, quote_app. change (34 =? 93)%N with false. reflexivity.
Qed.

Lemma skip_ws_line :
  forall n k r, skip_ws (10%N :: spaces n ++ quote k ++ r) = quote k ++ r.
Proof.
  intros n k r. cbn [skip_ws]. change (is_ws 10) with true. cbv iota.
  rewrite quote_app. apply skip_ws_spaces. reflexivity.
Qed.

Lemma parse_value_string_array :
  forall (j : nat) ids f rest,
    (length ids <= f)%nat ->
    parse_value (S (S f))
      (stringify_indented j (JArr (map JStr ids)) ++ rest)
    = Some (JArr (map JStr ids), rest).
Proof.
  intros j ids f rest Hlen. destruct ids as [|x more].
  - reflexivity.
  - assert (Htext :
      stringify_indented j (JArr (map JStr (x :: more))) ++ rest =
      91%N :: 10%N ::
      join [44%N; 10%N]
        (map (fun y => spaces (j + 2) ++ quote y) (x :: more)) ++
      10%N :: spaces j ++ 93%N :: rest).
    { cbn [stringify_indented map]. rewrite map_map.
      cbn [stringify_indented stringify].
      change (str "[") with [91%N]. change newline with [10%N].
      change (str "," ++ [10%N]) with [44%N; 10%N].
      change (str "]") with [93%N].
      repeat rewrite <- app_assoc. reflexivity. }
    rewrite Htext.
    assert (Hhead : exists r',
      skip_ws (10%N ::
               join [44%N; 10%N]
                 (map (fun y => spaces (j + 2) ++ quote y) (x :: more)) ++
               10%N :: spaces j ++ 93%N :: rest) = quote x ++ r').
    { destruct more as [|y more]; eexists.
      - cbn [map join]. rewrite <- app_assoc. apply skip_ws_line.
      - cbn [map]. rewrite join_more. repeat rewrite <- app_assoc.
        apply skip_ws_line. }
    destruct Hhead as [r' Hhead].
    rewrite (parse_value_array _ _ _ _ Hhead).
    rewrite parse_elements_strings; [reflexivity | discriminate | exact Hlen].
Qed.

(** [JSON.parse] reads the file of a set of strings back as the object it
    was written from. *)
Lemma JSON_parse_set_file :
  forall count_key now n ids,
    JSON_parse
      (JSON_stringify_2
         (JObj [(str "lastUpdated", JStr now); (count_key, JNum n);
                (str "videos", JArr (map JStr ids))]))
    = Some (JObj [(str "lastUpdated", JStr now); (count_key, JNum n);
                  (str "videos", JArr (map JStr ids))]).
Proof.
  intros count_key now n ids.
  assert (Htext :
    JSON_stringify_2
      (JObj [(str "lastUpdated", JStr now); (count_key, JNum n);
             (str "videos", JArr (map JStr ids))]) =
    123%N :: 10%N :: 32%N :: 32%N :: quote (str "lastUpdated") ++
    58%N :: 32%N :: quote now ++
    44%N :: 10%N :: 32%N :: 32%N :: quote count_key ++
    58%N :: 32%N :: Z_to_str n ++
    44%N :: 10%N :: 32%N :: 32%N :: quote (str "videos") ++
    58%N :: 32%N :: stringify_indented 2 (JArr (map JStr ids)) ++
    [10%N; 125%N]).
  { unfold JSON_stringify_2.
    cbn [stringify_indented stringify map join fst snd Nat.add].
    repeat rewrite <- app_assoc. reflexivity. }
  unfold JSON_parse.
  rewrite <- (JSON_parse_fuel_enough _
                (8 + (length ids + 2 * length
                   (JSON_stringify_2
                      (JObj [(str "lastUpdated", JStr now);
                             (count_key, JNum n);
                             (str "videos", JArr (map JStr ids))])))))
    by lia.
  rewrite Htext. cbn [Nat.add].
  erewrite parse_value_object by apply skip_ws_indent.
  erewrite parse_members_more;
    [| apply skip_ws_indent
     | rewrite parse_value_ws by reflexivity; apply parse_value_string
     | reflexivity].
  erewrite parse_members_more;
    [| apply skip_ws_indent
     | rewrite parse_value_ws by reflexivity;
       apply parse_value_integer; reflexivity
     | reflexivity].
  erewrite parse_members_last;
    [| apply skip_ws_indent
     | rewrite parse_value_ws by reflexivity;
       apply parse_value_string_array; lia
     | reflexivity].
  reflexivity.
Qed.

(** What [read_video_set] makes of the file of a set of strings. *)
Lemma read_video_set_written :
  forall count_key now n s,
    strings_only s = true ->
    distinct s = true ->
    read_video_set
      (JSON_stringify_2
         (JObj [(str "lastUpdated", JStr now); (count_key, JNum n);
                (str "videos", JArr s)]))
    = Some s.
Proof.
  intros count_key now n s Hs Hd.
  destruct (strings_only_map _ Hs) as [ids ->].
  erewrite read_video_set_structured.
  - rewrite new_Set_of_set by exact Hd. reflexivity.
  - apply JSON_parse_set_file.
  - reflexivity.
Qed.

(** The sets of a poster, across the operations that save. *)
Ltac save_fields :=
  intros;
  unfold markProcessed, addFailedVideo, recordFailure, saveOffset,
    saveProcessedVideos, saveFailedVideos, writeFileSync, with_disk;
  cbn [disk processedVideos failedVideos currentOffset groupName];
  match goal with
  | |- context [writable ?d] => destruct (writable d); reflexivity
  end.

Lemma saveOffset_sets :
  forall now n st,
    processedVideos (saveOffset now n st) = processedVideos st /\
    failedVideos (saveOffset now n st) = failedVideos st.
Proof. split; save_fields. Qed.

Lemma saveProcessedVideos_sets :
  forall now st,
    processedVideos (saveProcessedVideos now st) = processedVideos st /\
    failedVideos (saveProcessedVideos now st) = failedVideos st.
Proof. split; save_fields. Qed.

Lemma saveFailedVideos_sets :
  forall now st,
    processedVideos (saveFailedVideos now st) = processedVideos st /\
    failedVideos (saveFailedVideos now st) = failedVideos st.
Proof. split; save_fields. Qed.

Lemma markProcessed_sets :
  forall now videoId st,
    processedVideos (markProcessed now videoId st)
    = set_add (processedVideos st) (JStr videoId) /\
    failedVideos (markProcessed now videoId st) = failedVideos st.
Proof. split; save_fields. Qed.

Lemma addFailedVideo_sets :
  forall now now' videoId reason error st,
    processedVideos (addFailedVideo now now' videoId reason error st)
    = processedVideos st /\
    failedVideos (addFailedVideo now now' videoId reason error st)
    = set_add (failedVideos st)
        (JStr (stringify (failureRecord videoId reason now error))).
Proof. split; save_fields. Qed.

(** What a scan and a turn of the loop do to the two sets: nothing, or one
    entry more in one of them, for a video the scan found unresolved. *)
Lemma findOldestUnprocessedVideo_sets :
  forall st found st',
    evals (findOldestUnprocessedVideo st) (Returned (found, st')) ->
    processedVideos st' = processedVideos st /\
    failedVideos st' = failedVideos st.
Proof.
  intros st found st' H.
  destruct (findOldestUnprocessedVideo_state _ _ _ H)
    as [[_ ->] | [_ [now ->]]].
  - split; reflexivity.
  - apply saveOffset_sets.
Qed.

Lemma findOldestUnprocessedVideo_found :
  forall st m st',
    evals (findOldestUnprocessedVideo st) (Returned (Some m, st')) ->
    unresolved st m = true.
Proof.
  intros st m st'. unfold findOldestUnprocessedVideo. simpl.
  intros [r H]. destruct r as [entity|e]; simpl in H; [|discriminate].
  destruct H as [page H].
  destruct (scan st (yielded page)) as [m'|] eqn:Hscan; simpl in H.
  - inversion H; subst.
    destruct (scan_first _ _ _ Hscan) as [earlier [later [_ [Hm _]]]].
    exact Hm.
  - destruct (iterError page); simpl in H; [discriminate|].
    destruct H as [now H]. discriminate H.
Qed.

Lemma read_video_set_distinct :
  forall data s, read_video_set data = Some s -> distinct s = true.
Proof.
  intros data s. unfold read_video_set.
  destruct (JSON_parse data) as [parsed|]; [|discriminate].
  cbn [bind_opt].
  destruct parsed;
    try (destruct (member _ _) as [videos|]; [|discriminate];
         cbn [bind_opt];
         destruct (iterate (or_empty_array videos)); [|discriminate];
         cbn [bind_opt]);
    intros H; inversion H; apply new_Set_distinct.
Qed.

Lemma newPoster_distinct :
  forall group d,
    distinct (processedVideos (newPoster group d)) = true /\
    distinct (failedVideos (newPoster group d)) = true.
Proof.
  intros group d. unfold newPoster, loadProcessedVideos, loadFailedVideos.
  cbn [processedVideos failedVideos]. split.
  - destruct (processedVideosFile d) as [data|]; [|reflexivity].
    destruct (read_video_set data) eqn:H; [|reflexivity].
    apply (read_video_set_distinct _ _ H).
  - destruct (failedVideosFile d) as [data|]; [|reflexivity].
    destruct (read_video_set data) eqn:H; [|reflexivity].
    apply (read_video_set_distinct _ _ H).
Qed.

Lemma engine_step_distinct :
  forall st st',
    engine_step st st' ->
    distinct (processedVideos st) = true /\
    distinct (failedVideos st) = true ->
    distinct (processedVideos st') = true /\
    distinct (failedVideos st') = true.
Proof.
  intros st st' Hstep [Hp Hf]. destruct Hstep.
  - destruct (findOldestUnprocessedVideo_sets _ _ _ H) as [-> ->].
    split; assumption.
  - destruct (markProcessed_sets now videoId st) as [-> ->].
    split; [apply set_add_distinct|]; assumption.
  - destruct (addFailedVideo_sets now now' videoId reason error st)
      as [-> ->].
    split; [|apply set_add_distinct]; assumption.
  - destruct (saveProcessedVideos_sets now st) as [-> ->].
    split; assumption.
  - destruct (saveFailedVideos_sets now st) as [-> ->].
    split; assumption.
  - destruct (loopBody_outcomes _ _ _ H)
      as [[_ ->] | [[_ Hs] | [m [_ [[_ [now ->]] | [_ [e [now [now' ->]]]]]]]]].
    + split; assumption.
    + destruct (findOldestUnprocessedVideo_sets _ _ _ Hs) as [-> ->].
      split; assumption.
    + destruct (markProcessed_sets now (generateVideoId m) st) as [-> ->].
      split; [apply set_add_distinct|]; assumption.
    + unfold recordFailure.
      destruct (addFailedVideo_sets now now' (generateVideoId m)
                  (failureReason e) (Some e) st) as [-> ->].
      split; [|apply set_add_distinct]; assumption.
  - apply newPoster_distinct.
Qed.

Lemma reachable_distinct :
  forall st,
    reachable st ->
    distinct (processedVideos st) = true /\
    distinct (failedVideos st) = true.
Proof.
  intros st [group [d Hsteps]].
  remember (newPoster group d) as st0 eqn:E0.
  assert (H0 : distinct (processedVideos st0) = true /\
               distinct (failedVideos st0) = true)
    by (subst st0; apply newPoster_distinct).
  clear E0. induction Hsteps as [st|st st' st'' Hstep _ IH].
  - exact H0.
  - apply IH. apply (engine_step_distinct _ _ Hstep H0).
Qed.

Lemma saveProcessedVideos_file :
  forall now st,
    writable (disk st) = true ->
    processedVideosFile (disk (saveProcessedVideos now st)) =
    Some (JSON_stringify_2
            (JObj [(str "lastUpdated", JStr now);
                   (str "totalProcessed",
                    JNum (set_size (processedVideos st)));
                   (str "videos", JArr (processedVideos st))])).
Proof.
  intros now st Hw. unfold saveProcessedVideos, writeFileSync.
  rewrite Hw. reflexivity.
Qed.

Lemma saveFailedVideos_file :
  forall now st,
    writable (disk st) = true ->
    failedVideosFile (disk (saveFailedVideos now st)) =
    Some (JSON_stringify_2
            (JObj [(str "lastUpdated", JStr now);
                   (str "totalFailed", JNum (set_size (failedVideos st)));
                   (str "videos", JArr (failedVideos st))])).
Proof.
  intros now st Hw. unfold saveFailedVideos, writeFileSync.
  rewrite Hw. reflexivity.
Qed.

Lemma saveProcessedVideos_loads :
  forall now st,
    writable (disk st) = true ->
    strings_only (processedVideos st) = true ->
    distinct (processedVideos st) = true ->
    loadProcessedVideos (disk (saveProcessedVideos now st))
    = processedVideos st.
Proof.
  intros now st Hw Hs Hd. unfold loadProcessedVideos.
  rewrite saveProcessedVideos_file by exact Hw.
  rewrite read_video_set_written by assumption. reflexivity.
Qed.

Lemma saveFailedVideos_loads :
  forall now st,
    writable (disk st) = true ->
    strings_only (failedVideos st) = true ->
    distinct (failedVideos st) = true ->
    loadFailedVideos (disk (saveFailedVideos now st)) = failedVideos st.
Proof.
  intros now st Hw Hs Hd. unfold loadFailedVideos.
  rewrite saveFailedVideos_file by exact Hw.
  rewrite read_video_set_written by assumption. reflexivity.
Qed.

(** X1.  In every state of the engine whose state files can be written, a
    set that holds strings is read back from the file it was saved to as
    the very same set, in the same order: the processed set by
    [loadProcessedVideos] after [saveProcessedVideos], the failed set by
    [loadFailedVideos] after [saveFailedVideos]. *)
Theorem saved_sets_load_back :
  forall (now : jsstring) (st : Poster),
    reachable st ->
    writable (disk st) = true ->
    (strings_only (processedVideos st) = true ->
     loadProcessedVideos (disk (saveProcessedVideos now st))
     = processedVideos st) /\
    (strings_only (failedVideos st) = true ->
     loadFailedVideos (disk (saveFailedVideos now st)) = failedVideos st).
Proof.
  intros now st Hr Hw. destruct (reachable_distinct _ Hr) as [Hp Hf].
  split; intros Hs.
  - apply saveProcessedVideos_loads; assumption.
  - apply saveFailedVideos_loads; assumption.
Qed.

Lemma saved_sets_load_back_witness :
  loadProcessedVideos
    (disk (saveProcessedVideos (str "2024-01-02T00:00:00.000Z")
             (poster_all_processed true)))
  = processedVideos (poster_all_processed true) /\
  loadFailedVideos
    (disk (saveFailedVideos (str "2024-01-02T00:00:00.000Z")
             (poster_all_processed true)))
  = failedVideos (poster_all_processed true).
Proof.
  destruct (saved_sets_load_back (str "2024-01-02T00:00:00.000Z")
              (poster_all_processed true)
              (reachable_newPoster _ _) eq_refl) as [Hp Hf].
  split; [apply Hp | apply Hf]; vm_compute; reflexivity.
Defined.

Lemma isVideoFailed_failedVideos :
  forall a b videoId,
    failedVideos a = failedVideos b ->
    isVideoFailed a videoId = isVideoFailed b videoId.
Proof. intros a b videoId H. unfold isVideoFailed. rewrite H. reflexivity. Qed.

(** X2.  A video handled in a turn of the loop, posted or marked as failed,
    was unresolved before the turn and is resolved for the poster the next
    run constructs from the state files, when the files can be written and
    the sets hold strings: it is not handled a second time. *)
Theorem handled_video_is_resolved_in_the_next_run :
  forall (st st' : Poster) (turn : Turn),
    reachable st ->
    writable (disk st) = true ->
    strings_only (processedVideos st) = true ->
    strings_only (failedVideos st) = true ->
    evals (loopBody st) (Returned (turn, st')) ->
    turn = Posted \/ turn = MarkedFailed ->
    exists videoMessage,
      evals (findOldestUnprocessedVideo st)
        (Returned (Some videoMessage, st)) /\
      unresolved st videoMessage = true /\
      unresolved (newPoster (groupName st') (disk st')) videoMessage = false.
Proof.
  intros st st' turn Hr Hw Hsp Hsf Hturn Hhandled.
  destruct (reachable_distinct _ Hr) as [Hdp Hdf].
  destruct (loopBody_outcomes _ _ _ Hturn)
    as [[E _] | [[E _] | [m [Hscan Hcase]]]];
    [destruct Hhandled; congruence | destruct Hhandled; congruence |].
  exists m. split; [exact Hscan|].
  split; [apply (findOldestUnprocessedVideo_found _ _ _ Hscan)|].
  unfold unresolved.
  destruct Hcase as [[_ [now ->]] | [_ [e [now [now' ->]]]]].
  - unfold markProcessed. cbn [newPoster processedVideos].
    rewrite saveProcessedVideos_loads.
    + cbn [processedVideos].
      assert (H : set_has (set_add (processedVideos st)
                             (JStr (generateVideoId m)))
                    (JStr (generateVideoId m)) = true)
        by (apply set_has_string; apply set_add_In).
      rewrite H. reflexivity.
    + exact Hw.
    + cbn [processedVideos]. apply set_add_strings_only. exact Hsp.
    + cbn [processedVideos]. apply set_add_distinct. exact Hdp.
  - unfold recordFailure.
    assert (H : isVideoFailed
                  (newPoster
                     (groupName (addFailedVideo now now' (generateVideoId m)
                                   (failureReason e) (Some e) st))
                     (disk (addFailedVideo now now' (generateVideoId m)
                              (failureReason e) (Some e) st)))
                  (generateVideoId m) = true).
    { rewrite (isVideoFailed_failedVideos _
                 (addFailedVideo now now' (generateVideoId m)
                    (failureReason e) (Some e) st)).
      - apply addFailedVideo_isVideoFailed.
      - unfold addFailedVideo. cbn [newPoster failedVideos].
        rewrite saveFailedVideos_loads.
        + symmetry. apply saveFailedVideos_sets.
        + exact Hw.
        + cbn [failedVideos]. apply set_add_strings_only. exact Hsf.
        + cbn [failedVideos]. apply set_add_distinct. exact Hdf. }
    rewrite H. apply andb_false_r.
Qed.

Lemma handled_video_is_resolved_in_the_next_run_witness :
  let st1 :=
    recordFailure clock_reading clock_reading (numbered_message 1)
      sample_error fresh_poster in
  exists videoMessage,
    evals (findOldestUnprocessedVideo fresh_poster)
      (Returned (Some videoMessage, fresh_poster)) /\
    unresolved fresh_poster videoMessage = true /\
    unresolved (newPoster (groupName st1) (disk st1)) videoMessage = false.
Proof.
  intros st1.
  apply (handled_video_is_resolved_in_the_next_run fresh_poster st1
           MarkedFailed).
  - apply reachable_newPoster.
  - reflexivity.
  - reflexivity.
  - reflexivity.
  - apply (exec_evals _ (env_of_page page_of_four sample_error)).
    vm_compute. reflexivity.
  - right. reflexivity.
Defined.

(** X3.  The offset [saveOffset] writes is the offset [loadOffset] reads:
    when the cursor file can be written, the offset in memory and the
    offset a later run loads are the integer given, whatever it is, and
    the two sets are left as they were. *)
Theorem saved_offset_loads_back :
  forall (now : jsstring) (newOffset : Z) (st : Poster),
    writable (disk st) = true ->
    currentOffset (saveOffset now newOffset st) = newOffset /\
    loadOffset (disk (saveOffset now newOffset st)) = newOffset /\
    processedVideos (saveOffset now newOffset st) = processedVideos st /\
    failedVideos (saveOffset now newOffset st) = failedVideos st.
Proof.
  intros now newOffset st Hw.
  destruct (saveOffset_cases now newOffset st) as [[_ [H1 H2]] | [Hw' _]];
    [|congruence].
  split; [exact H1|]. split; [exact H2|]. apply saveOffset_sets.
Qed.

Lemma saved_offset_loads_back_witness :
  currentOffset (saveOffset clock_reading (-3) fresh_poster) = -3 /\
  loadOffset (disk (saveOffset clock_reading (-3) fresh_poster)) = -3 /\
  processedVideos (saveOffset clock_reading (-3) fresh_poster)
  = processedVideos fresh_poster /\
  failedVideos (saveOffset clock_reading (-3) fresh_poster)
  = failedVideos fresh_poster.
Proof.
  apply (saved_offset_loads_back clock_reading (-3) fresh_poster).
  reflexivity.
Defined.

(** X4.  A page that ends with no unresolved video moves the cursor forward
    by fifty whatever its length: a page shorter than fifty, and the empty
    page of a source that has no more videos, advance it as a full page
    does, when the cursor file can be written. *)
Theorem exhausted_page_of_any_length_advances_fifty :
  forall (env : Env) (st : Poster) (n : nat),
    exhausted_page env st n ->
    writable (disk st) = true ->
    exists st',
      exec env (findOldestUnprocessedVideo st) = Returned (None, st') /\
      currentOffset st' = currentOffset st + 50 /\
      loadOffset (disk st') = currentOffset st + 50.
Proof.
  intros env st n Hpage Hw. eexists. split.
  - apply (exhausted_page_scan _ _ _ Hpage).
  - destruct (saveOffset_cases (env _ Clock)
                (currentOffset st + batchSize) st)
      as [[_ [H1 H2]] | [Hw' _]]; [|congruence].
    unfold persistedOffset in H2. unfold batchSize in *.
    split; assumption.
Qed.

Lemma empty_page_exhausted :
  exhausted_page (env_posting []) fresh_poster 0.
Proof.
  exists {| title := None |}. split; [reflexivity|]. cbv zeta.
  split; [reflexivity|]. split; [reflexivity|]. constructor.
Qed.

Lemma exhausted_page_of_any_length_advances_fifty_witness :
  exists st',
    exec (env_posting []) (findOldestUnprocessedVideo fresh_poster)
    = Returned (None, st') /\
    currentOffset st' = currentOffset fresh_poster + 50 /\
    loadOffset (disk st') = currentOffset fresh_poster + 50.
Proof.
  apply (exhausted_page_of_any_length_advances_fifty (env_posting [])
           fresh_poster 0 empty_page_exhausted).
  reflexivity.
Defined.

(* ------------------------------------------------------------------ *)
(** ** The two sets under the operations of a turn                      *)
(* ------------------------------------------------------------------ *)

Lemma existsb_set_add_string :
  forall (f : json -> bool) s t,
    existsb f (set_add s (JStr t)) = existsb f s || f (JStr t).
Proof.
  intros f s t. unfold set_add.
  destruct (set_has s (JStr t)) eqn:H.
  - apply set_has_string in H.
    destruct (f (JStr t)) eqn:Hf.
    + rewrite orb_true_r. apply existsb_exists.
      exists (JStr t). split; assumption.
    + rewrite orb_false_r. reflexivity.
  - rewrite existsb_app. simpl. rewrite orb_false_r. reflexivity.
Qed.

Lemma set_has_set_add_string :
  forall s t x,
    set_has (set_add s (JStr t)) x = set_has s x || sameValueZero x (JStr t).
Proof. intros s t x. unfold set_has. apply existsb_set_add_string. Qed.

(** The record stored for a video matches that video and no other. *)
Lemma failedRecord_matches_record :
  forall videoId reason timestamp error fp,
    failedRecord_matches
      (JStr (stringify (failureRecord videoId reason timestamp error))) fp
    = str_eqb videoId fp.
Proof.
  intros videoId reason timestamp error fp. unfold failedRecord_matches.
  cbn [ToString]. rewrite JSON_parse_failureRecord. reflexivity.
Qed.

Lemma str_eqb_neq : forall a b, a <> b -> str_eqb a b = false.
Proof.
  intros a b H. destruct (str_eqb a b) eqn:E; [|reflexivity].
  apply str_eqb_eq in E. contradiction.
Qed.

Lemma isVideoFailed_addFailedVideo :
  forall now now' videoId reason error st fp,
    isVideoFailed (addFailedVideo now now' videoId reason error st) fp
    = isVideoFailed st fp || str_eqb videoId fp.
Proof.
  intros now now' videoId reason error st fp. unfold isVideoFailed.
  destruct (addFailedVideo_sets now now' videoId reason error st) as [_ ->].
  rewrite existsb_set_add_string, failedRecord_matches_record. reflexivity.
Qed.

Lemma set_has_markProcessed :
  forall now videoId st fp,
    set_has (processedVideos (markProcessed now videoId st)) (JStr fp)
    = set_has (processedVideos st) (JStr fp) || str_eqb fp videoId.
Proof.
  intros now videoId st fp.
  destruct (markProcessed_sets now videoId st) as [-> _].
  apply set_has_set_add_string.
Qed.

(** X5.  Recording a video, as processed or as failed, changes the answer
    of the membership test of its own set for that video, which is [true]
    from then on, and nothing else: for every other identifier, and in the
    other set, [processedVideos.has] and [isVideoFailed] answer as they did
    before. *)
Theorem recording_a_video_changes_its_own_answer_only :
  forall (now now' videoId reason x : jsstring)
         (error : option Err.Error) (st : Poster),
    let failed := addFailedVideo now now' videoId reason error st in
    let posted := markProcessed now videoId st in
    isVideoFailed failed x = isVideoFailed st x || str_eqb videoId x /\
    set_has (processedVideos failed) (JStr x)
    = set_has (processedVideos st) (JStr x) /\
    set_has (processedVideos posted) (JStr x)
    = set_has (processedVideos st) (JStr x) || str_eqb x videoId /\
    isVideoFailed posted x = isVideoFailed st x.
Proof.
  intros now now' videoId reason x error st failed posted.
  subst failed posted. repeat split.
  - apply isVideoFailed_addFailedVideo.
  - destruct (addFailedVideo_sets now now' videoId reason error st)
      as [-> _]. reflexivity.
  - apply set_has_markProcessed.
  - apply isVideoFailed_failedVideos. apply markProcessed_sets.
Qed.

Lemma unresolved_parts :
  forall st m,
    unresolved st m = true ->
    set_has (processedVideos st) (JStr (generateVideoId m)) = false /\
    isVideoFailed st (generateVideoId m) = false.
Proof.
  intros st m H. unfold unresolved in H.
  apply andb_true_iff in H as [H1 H2].
  apply negb_true_iff in H1. apply negb_true_iff in H2.
  split; assumption.
Qed.

(** The two sets after a turn of the loop, by the way the turn ends. *)
Lemma loopBody_sets :
  forall st turn st',
    evals (loopBody st) (Returned (turn, st')) ->
    (processedVideos st' = processedVideos st /\
     failedVideos st' = failedVideos st) \/
    (exists m now,
        unresolved st m = true /\
        st' = markProcessed now (generateVideoId m) st) \/
    (exists m e now now',
        unresolved st m = true /\
        st' = recordFailure now now' m e st).
Proof.
  intros st turn st' H.
  destruct (loopBody_outcomes _ _ _ H)
    as [[_ ->] | [[_ Hs] | [m [Hscan Hcase]]]].
  - left. split; reflexivity.
  - left. apply (findOldestUnprocessedVideo_sets _ _ _ Hs).
  - pose proof (findOldestUnprocessedVideo_found _ _ _ Hscan) as Hm.
    destruct Hcase as [[_ [now ->]] | [_ [e [now [now' ->]]]]].
    + right. left. exists m, now. split; [exact Hm | reflexivity].
    + right. right. exists m, e, now, now'.
      split; [exact Hm | reflexivity].
Qed.

(** X6.  A turn of the loop keeps the two sets apart: if no identifier is
    both processed and failed before the turn, none is after it, however
    the turn ends. *)
Theorem turn_keeps_the_sets_apart :
  forall (st st' : Poster) (turn : Turn),
    (forall videoId, resolved_twice st videoId = false) ->
    evals (loopBody st) (Returned (turn, st')) ->
    forall videoId, resolved_twice st' videoId = false.
Proof.
  intros st st' turn Hinv Hturn videoId.
  specialize (Hinv videoId). unfold resolved_twice in *.
  destruct (loopBody_sets _ _ _ Hturn)
    as [[Hp Hf] | [[m [now [Hm ->]]] | [m [e [now [now' [Hm ->]]]]]]].
  - rewrite Hp, (isVideoFailed_failedVideos st' st) by exact Hf.
    exact Hinv.
  - destruct (unresolved_parts _ _ Hm) as [_ Hnf].
    rewrite set_has_markProcessed.
    rewrite (isVideoFailed_failedVideos _ st)
      by apply markProcessed_sets.
    destruct (str_eqb videoId (generateVideoId m)) eqn:E.
    + apply str_eqb_eq in E. subst videoId. rewrite Hnf.
      apply andb_false_r.
    + rewrite orb_false_r. exact Hinv.
  - destruct (unresolved_parts _ _ Hm) as [Hnp _].
    unfold recordFailure. rewrite isVideoFailed_addFailedVideo.
    destruct (addFailedVideo_sets now now' (generateVideoId m)
                (failureReason e) (Some e) st) as [-> _].
    destruct (str_eqb (generateVideoId m) videoId) eqn:E.
    + apply str_eqb_eq in E. subst videoId. rewrite Hnp. reflexivity.
    + rewrite orb_false_r. exact Hinv.
Qed.

Lemma turn_keeps_the_sets_apart_witness :
  resolved_twice
    (recordFailure clock_reading clock_reading (numbered_message 1)
       sample_error fresh_poster)
    (generateVideoId (numbered_message 1)) = false.
Proof.
  apply (turn_keeps_the_sets_apart fresh_poster _ MarkedFailed).
  - intros videoId. reflexivity.
  - apply (exec_evals _ (env_of_page page_of_four sample_error)).
    vm_compute. reflexivity.
Defined.

(** X7.  A turn of the loop never turns a resolved video into an
    unresolved one: what is processed or failed before the turn is still so
    after it, so the scanner of a later turn passes over it again. *)
Theorem turn_keeps_resolved_videos_resolved :
  forall (st st' : Poster) (turn : Turn) (m : Message),
    evals (loopBody st) (Returned (turn, st')) ->
    unresolved st m = false ->
    unresolved st' m = false.
Proof.
  intros st st' turn m Hturn Hm. unfold unresolved in *.
  destruct (loopBody_sets _ _ _ Hturn)
    as [[Hp Hf] | [[m' [now [_ ->]]] | [m' [e [now [now' [_ ->]]]]]]].
  - rewrite Hp, (isVideoFailed_failedVideos st' st) by exact Hf.
    exact Hm.
  - rewrite set_has_markProcessed.
    rewrite (isVideoFailed_failedVideos _ st)
      by apply markProcessed_sets.
    apply andb_false_iff in Hm as [Hm | Hm].
    + apply negb_false_iff in Hm. rewrite Hm. reflexivity.
    + rewrite Hm. apply andb_false_r.
  - unfold recordFailure. rewrite isVideoFailed_addFailedVideo.
    destruct (addFailedVideo_sets now now' (generateVideoId m')
                (failureReason e) (Some e) st) as [-> _].
    apply andb_false_iff in Hm as [Hm | Hm].
    + rewrite Hm. reflexivity.
    + apply negb_false_iff in Hm. rewrite Hm. apply andb_false_r.
Qed.

Lemma turn_keeps_resolved_videos_resolved_witness :
  unresolved
    (recordFailure clock_reading clock_reading (numbered_message 3)
       sample_error poster_two_resolved) (numbered_message 2) = false.
Proof.
  apply (turn_keeps_resolved_videos_resolved poster_two_resolved _
           MarkedFailed (numbered_message 2)).
  - apply (exec_evals _ (env_of_page page_of_four sample_error)).
    vm_compute. reflexivity.
  - vm_compute. reflexivity.
Defined.

(* ------------------------------------------------------------------ *)
(** ** How a turn of the loop ends                                      *)
(* ------------------------------------------------------------------ *)

(** Every way a turn can end, by what the scan did. *)
Lemma loopBody_ends :
  forall st o,
    evals (loopBody st) o ->
    (exists e,
        evals (findOldestUnprocessedVideo st) (Thrown e) /\
        o = Returned (TryAgain, st)) \/
    (exists st',
        evals (findOldestUnprocessedVideo st) (Returned (None, st')) /\
        o = Returned (NothingToDo, st')) \/
    (exists m,
        evals (findOldestUnprocessedVideo st) (Returned (Some m, st)) /\
        ((exists now,
             o = Returned (Posted,
                           markProcessed now (generateVideoId m) st)) \/
         (exists e now now',
             o = Returned (MarkedFailed,
                           recordFailure now now' m e st)))).
Proof.
  intros st o H. unfold loopBody in H.
  apply evals_try_catch in H as [[a [H Ea]] | [e [H He]]].
  - subst o.
    apply evals_bind in H as [[[found st1] [Hscan H]] | [e [_ H]]];
      [|discriminate].
    destruct found as [m|].
    2:{ simpl in H. inversion H; subst. right. left.
        exists st1. split; [exact Hscan | reflexivity]. }
    right. right. exists m.
    assert (Est : st1 = st).
    { destruct (findOldestUnprocessedVideo_state _ _ _ Hscan)
        as [[_ E] | [E _]]; [exact E | discriminate E]. }
    subst st1. split; [exact Hscan|].
    apply evals_try_catch in H as [[b [H Eb]] | [e [_ H]]].
    + inversion Eb; subst b. clear Eb.
      apply evals_bind in H as [[caption [_ H]] | [e [_ H]]];
        [|discriminate].
      simpl in H. destruct H as [rewritten [r H]].
      destruct r as [videoPath|e]; simpl in H; [|discriminate].
      destruct H as [r H]. unfold fail_video in H.
      destruct r as [posted|e]; simpl in H.
      * destruct H as [now [cleaned H]]. inversion H; subst.
        left. exists now. reflexivity.
      * destruct H as [now [now' [cleaned H]]]. inversion H; subst.
        right. exists e, now, now'. reflexivity.
    + unfold fail_video in H. simpl in H.
      destruct H as [now [now' H]]. inversion H; subst.
      right. exists e, now, now'. reflexivity.
  - simpl in He. subst o. left.
    apply evals_bind in H as [[[found st1] [Hscan H]] | [e' [Hscan H]]].
    + destruct found as [m|]; [|simpl in H; discriminate].
      apply evals_try_catch in H as [[b [_ Eb]] | [e' [_ H]]];
        [discriminate|].
      unfold fail_video in H. simpl in H.
      destruct H as [now [now' H]]. discriminate H.
    + inversion H; subst e'. exists e. split; [exact Hscan | reflexivity].
Qed.



(* ------------------------------------------------------------------ *)
(** ** The loop of [run]                                                *)
(* ------------------------------------------------------------------ *)

Lemma run_loop_step :
  forall turns st,
    run_loop (S turns) 0 0 st =
    bind (loopBody st)
      (fun r =>
         match r with
         | (Posted, st') => run_loop turns (0 + 1) 0 st'
         | (MarkedFailed, st') => run_loop turns 0 (0 + 1) st'
         | (NothingToDo, st') =>
           Ret (Some {| processedCount := 0; failedCount := 0;
                        finalState := st' |})
         | (TryAgain, st') => run_loop turns 0 0 st'
         end).
Proof. reflexivity. Qed.

Lemma run_loop_done :
  forall turns processed failed st,
    (processed + failed <? maxVideosPerRun) = false ->
    run_loop turns processed failed st =
    Ret (Some {| processedCount := processed; failedCount := failed;
                 finalState := st |}).
Proof.
  intros turns processed failed st H. destruct turns; simpl; rewrite H;
    reflexivity.
Qed.

(** X9.  The loop of [run] handles one video at most.  When it ends, either
    nothing was posted or recorded and the scan had found no unresolved
    video in its page, or exactly one video, unresolved until then, was
    posted and added to the processed set, or exactly one was recorded as
    failed.  And one turn is enough for the loop to end, unless the scan
    of that turn threw. *)
Theorem run_handles_one_video :
  (forall (turns : nat) (st : Poster) (r : RunEnd),
      evals (run_loop turns 0 0 st) (Returned (Some r)) ->
      (processedCount r = 0 /\ failedCount r = 0 /\
       evals (findOldestUnprocessedVideo st)
         (Returned (None, finalState r))) \/
      (exists m now,
          processedCount r = 1 /\ failedCount r = 0 /\
          unresolved st m = true /\
          finalState r = markProcessed now (generateVideoId m) st) \/
      (exists m e now now',
          processedCount r = 0 /\ failedCount r = 1 /\
          unresolved st m = true /\
          finalState r = recordFailure now now' m e st)) /\
  (forall (env : Env) (st st' : Poster) (turn : Turn) (turns : nat),
      exec env (loopBody st) = Returned (turn, st') ->
      turn <> TryAgain ->
      exists r,
        exec env (run_loop (S turns) 0 0 st) = Returned (Some r) /\
        finalState r = st').
Proof.
  split.
  - induction turns as [|turns IH]; intros st r H.
    + simpl in H. discriminate H.
    + rewrite run_loop_step in H.
      apply evals_bind in H as [[[turn st'] [Hturn H]] | [e [_ H]]];
        [|discriminate].
      destruct (loopBody_ends _ _ Hturn)
        as [[e [Hs E]] | [[st1 [Hs E]] |
            [m [Hs [[now E] | [e [now [now' E]]]]]]]];
        inversion E; subst; clear E.
      * apply IH. exact H.
      * simpl in H. inversion H; subst. left. cbn.
        split; [reflexivity|]. split; [reflexivity | exact Hs].
      * rewrite run_loop_done in H by reflexivity.
        simpl in H. inversion H; subst. right. left.
        exists m, now. cbn.
        split; [reflexivity|]. split; [reflexivity|].
        split; [apply (findOldestUnprocessedVideo_found _ _ _ Hs)|].
        reflexivity.
      * rewrite run_loop_done in H by reflexivity.
        simpl in H. inversion H; subst. right. right.
        exists m, e, now, now'. cbn.
        split; [reflexivity|]. split; [reflexivity|].
        split; [apply (findOldestUnprocessedVideo_found _ _ _ Hs)|].
        reflexivity.
  - intros env st st' turn turns Hturn Hne.
    rewrite run_loop_step, exec_bind, Hturn.
    destruct turn; try congruence.
    + rewrite run_loop_done by reflexivity. eexists.
      split; reflexivity.
    + rewrite run_loop_done by reflexivity. eexists.
      split; reflexivity.
    + eexists. split; reflexivity.
Qed.

Lemma run_handles_one_video_witness :
  let env := env_posting page_of_four in
  let st' := markProcessed clock_reading
               (generateVideoId (numbered_message 3)) poster_two_resolved in
  let r := {| processedCount := 1; failedCount := 0; finalState := st' |} in
  ((processedCount r = 0 /\ failedCount r = 0 /\
    evals (findOldestUnprocessedVideo poster_two_resolved)
      (Returned (None, finalState r))) \/
   (exists m now,
       processedCount r = 1 /\ failedCount r = 0 /\
       unresolved poster_two_resolved m = true /\
       finalState r
       = markProcessed now (generateVideoId m) poster_two_resolved) \/
   (exists m e now now',
       processedCount r = 0 /\ failedCount r = 1 /\
       unresolved poster_two_resolved m = true /\
       finalState r = recordFailure now now' m e poster_two_resolved)) /\
  exists r',
    exec env (run_loop 1 0 0 poster_two_resolved) = Returned (Some r') /\
    finalState r' = st'.
Proof.
  intros env st' r.
  destruct run_handles_one_video as [Hend Hone]. split.
  - apply (Hend 1%nat poster_two_resolved r).
    apply (exec_evals _ env). vm_compute. reflexivity.
  - apply (Hone env poster_two_resolved st' Posted 0%nat).
    + vm_compute. reflexivity.
    + discriminate.
Defined.

Lemma exec_loopBody_scan_throws :
  forall env st e,
    exec env (findOldestUnprocessedVideo st) = Thrown e ->
    exec env (loopBody st) = Returned (TryAgain, st).
Proof.
  intros env st e H. unfold loopBody.
  rewrite exec_try_catch, exec_bind, H. reflexivity.
Qed.

(** X10.  The loop of [run] has no bound on its turns: when the scan throws
    and the collaborators keep answering as they did, the turn records
    nothing, neither counter moves, and the next turn is the same turn
    again; after any number of turns the loop has not ended. *)
Theorem run_retries_a_failing_scan_without_end :
  forall (env : Env) (st : Poster) (e : Err.Error),
    exec env (findOldestUnprocessedVideo st) = Thrown e ->
    forall turns : nat,
      exec env (run_loop turns 0 0 st) = Returned None.
Proof.
  intros env st e H. induction turns as [|turns IH].
  - reflexivity.
  - rewrite run_loop_step, exec_bind.
    rewrite (exec_loopBody_scan_throws _ _ _ H). exact IH.
Qed.

Lemma run_retries_a_failing_scan_without_end_witness :
  exec env_unreachable (run_loop 1000 0 0 fresh_poster) = Returned None.
Proof.
  apply (run_retries_a_failing_scan_without_end env_unreachable
           fresh_poster sample_error).
  reflexivity.
Defined.

(* ------------------------------------------------------------------ *)
(** ** The calls of a turn                                              *)
(* ------------------------------------------------------------------ *)

Lemma calls_made_bind :
  forall A B (env : Env) (p : Prog A) (f : A -> Prog B),
    calls_made env (bind p f) =
    calls_made env p ++
    match exec env p with
    | Returned a => calls_made env (f a)
    | Thrown _ => []
    end.
Proof.
  intros A B env p f. induction p as [a | e | R c k IH]; simpl;
    [reflexivity | reflexivity | f_equal; apply IH].
Qed.

Lemma calls_made_try_catch :
  forall A (env : Env) (p : Prog A) (h : Err.Error -> Prog A),
    calls_made env (try_catch p h) =
    calls_made env p ++
    match exec env p with
    | Returned _ => []
    | Thrown e => calls_made env (h e)
    end.
Proof.
  intros A env p h. induction p as [a | e | R c k IH]; simpl;
    [reflexivity | reflexivity | f_equal; apply IH].
Qed.





Lemma is_nil_false_iff :
  forall A (l : list A), is_nil l = false <-> l <> [].
Proof. intros A [|x l]; simpl; split; congruence. Qed.

(** X12.  The caption resolver asks the ranking model once at most, and
    only when it has to: the candidate has no text of its own, the
    surrounding messages were fetched, and at least one of them is usable
    as an entry of the window.  When the fetch fails or the window is empty
    the model is not called. *)
Theorem ranking_is_asked_once_at_most :
  forall (env : Env) (st : Poster) (videoMessage : Message),
    let asked :=
      filter is_completion
        (calls_made env (extractVideoCaption st videoMessage)) in
    (length asked <= 1)%nat /\
    (asked <> [] ->
     own_caption videoMessage = None /\
     exists entity surrounding prompt,
       env _ (GetEntity (groupName st)) = Ok entity /\
       env _ (GetMessages entity (messageIds_of videoMessage))
       = Ok surrounding /\
       contextMessages_of videoMessage surrounding <> [] /\
       prompt_of videoMessage (contextMessages_of videoMessage surrounding)
       = Some prompt /\
       asked = [a_call (ChatCompletion (ranking_request prompt))]).
Proof.
  intros env st videoMessage. cbv zeta. unfold extractVideoCaption.
  destruct (own_caption videoMessage) as [caption|];
    [split; [simpl; lia | intros H; simpl in H; congruence]|].
  simpl.
  destruct (env _ (GetEntity (groupName st))) as [entity|e] eqn:He; simpl;
    [|split; [lia | congruence]].
  destruct (env _ (GetMessages entity (messageIds_of videoMessage)))
    as [surrounding|e] eqn:Hm; simpl; [|split; [lia | congruence]].
  destruct (is_nil (contextMessages_of videoMessage surrounding)) eqn:Hn;
    [split; [simpl; lia | intros H; simpl in H; congruence]|].
  rewrite calls_made_try_catch, calls_made_bind.
  rewrite exec_bind, exec_findRelevantCaption, Hn.
  unfold findRelevantCaption. rewrite Hn.
  destruct (prompt_of videoMessage
              (contextMessages_of videoMessage surrounding))
    as [prompt|] eqn:Hp.
  - simpl.
    destruct (env _ (ChatCompletion (ranking_request prompt)))
      as [[content|]|e'];
      (match goal with
       | |- context [nonempty ?c] => destruct (nonempty c)
       end);
      (split; [simpl; lia|]); intros _;
      (split; [reflexivity|]);
      exists entity, surrounding, prompt;
      repeat split; try assumption; try reflexivity;
      apply is_nil_false_iff; exact Hn.
  - simpl.
    match goal with
    | |- context [nonempty ?c] => destruct (nonempty c)
    end; split; simpl; try lia; congruence.
Qed.

Lemma ranking_is_asked_once_at_most_witness :
  exists prompt,
    filter is_completion
      (calls_made env_embellishing
         (extractVideoCaption poster_two_resolved silent_video))
    = [a_call (ChatCompletion (ranking_request prompt))].
Proof.
  destruct (ranking_is_asked_once_at_most env_embellishing
              poster_two_resolved silent_video) as [_ H].
  destruct H as [_ [entity [surrounding [prompt [_ [_ [_ [_ H]]]]]]]].
  - vm_compute. discriminate.
  - exists prompt. exact H.
Defined.

(* ------------------------------------------------------------------ *)
(** ** Trimming                                                         *)
(* ------------------------------------------------------------------ *)

Lemma trimStart_head :
  forall c s, isWhiteSpace c = false -> trimStart (c :: s) = c :: s.
Proof. intros c s H. simpl. rewrite H. reflexivity. Qed.

(** A string that begins and ends with characters that are not white space
    is its own trim. *)
Lemma trim_fixed :
  forall s c d,
    isWhiteSpace c = false -> isWhiteSpace d = false ->
    (exists r, s = c :: r) -> (exists r, s = r ++ [d]) ->
    trim s = s.
Proof.
  intros s c d Hc Hd [r Hr] [r' Hr']. unfold trim, trimEnd.
  rewrite Hr, (trimStart_head _ _ Hc), <- Hr, Hr'.
  rewrite rev_app_distr. simpl. rewrite Hd.
  change (d :: rev r') with (rev [d] ++ rev r').
  rewrite <- rev_app_distr. apply rev_involutive.
Qed.

Lemma trimStart_nil_iff :
  forall s, trimStart s = [] <-> forallb isWhiteSpace s = true.
Proof.
  induction s as [|c s IH]; simpl.
  - split; reflexivity.
  - destruct (isWhiteSpace c); simpl.
    + exact IH.
    + split; discriminate.
Qed.

Lemma trimStart_suffix :
  forall s, exists ws, s = ws ++ trimStart s /\ forallb isWhiteSpace ws = true.
Proof.
  induction s as [|c s [ws [E H]]]; simpl.
  - exists []. split; reflexivity.
  - destruct (isWhiteSpace c) eqn:Hc.
    + exists (c :: ws). simpl. rewrite Hc, H. split; [f_equal; exact E|].
      reflexivity.
    + exists []. split; reflexivity.
Qed.

(** The trim of a string is empty exactly when the string is blank. *)
Lemma trim_nil_iff :
  forall s, trim s = [] <-> forallb isWhiteSpace s = true.
Proof.
  intros s. unfold trim, trimEnd. split.
  - intros H.
    assert (H' : trimStart (rev (trimStart s)) = [])
      by (rewrite <- (rev_involutive (trimStart _)), H; reflexivity).
    apply trimStart_nil_iff in H'.
    destruct (trimStart_suffix s) as [ws [E Hws]].
    rewrite E, forallb_app, Hws. simpl.
    rewrite forallb_forall in *. intros x Hx. apply H'.
    apply in_rev in Hx. exact Hx.
  - intros H.
    assert (H' : trimStart s = []) by (apply trimStart_nil_iff; exact H).
    rewrite H'. reflexivity.
Qed.

Lemma trim_blank_end :
  forall s c, isWhiteSpace c = false -> trim (s ++ [c]) <> [].
Proof.
  intros s c Hc H. apply trim_nil_iff in H.
  rewrite forallb_app in H. simpl in H. rewrite Hc in H.
  rewrite andb_false_r in H. discriminate H.
Qed.

(* ------------------------------------------------------------------ *)
(** ** [rewriteCaption] and the text of the tweet                       *)
(* ------------------------------------------------------------------ *)

Lemma cleanCaption_trim :
  forall s, (if nonempty s then trim s else []) = trim s.
Proof. intros [|c s]; reflexivity. Qed.

(** X13.  [rewriteCaption] always gives a caption and never throws.  For a
    blank caption it gives the default text without calling the model; when
    the call fails, or its answer has no content, it gives the original
    caption trimmed; otherwise the content of the answer, trimmed and
    without its surrounding quotes.  The second default text, in the
    [catch] block, is never used. *)
Theorem rewriteCaption_always_gives_a_caption :
  forall (systemPrompt : option jsstring) (originalCaption : jsstring),
    (forall o,
        evals (rewriteCaption systemPrompt originalCaption) o ->
        exists caption, o = Returned caption) /\
    (trim originalCaption = [] ->
     rewriteCaption systemPrompt originalCaption = Ret default_caption) /\
    (trim originalCaption <> [] ->
     forall env : Env,
       exec env (rewriteCaption systemPrompt originalCaption) =
       Returned
         match env _ (ChatCompletion
                        (rewriting_request systemPrompt
                           (trim originalCaption))) with
         | Ok (Some content) => clean_response content
         | _ => trim originalCaption
         end).
Proof.
  intros systemPrompt originalCaption. unfold rewriteCaption.
  rewrite cleanCaption_trim.
  destruct (trim originalCaption) as [|c s] eqn:Ht.
  - split; [|split; [reflexivity | congruence]].
    intros o H. simpl in H. exists default_caption. exact H.
  - split; [|split; [congruence|]].
    + intros o H. simpl in H. destruct H as [[[content|]|e] H]; simpl in H;
        eexists; exact H.
    + intros _ env. simpl.
      destruct (env _ (ChatCompletion
                         (rewriting_request systemPrompt (c :: s))))
        as [[content|]|e]; reflexivity.
Qed.

Lemma rewriteCaption_always_gives_a_caption_witness :
  rewriteCaption None (str "   ") = Ret default_caption /\
  exec env_unreachable (rewriteCaption None (str " look at this "))
  = Returned (str "look at this").
Proof.
  destruct (rewriteCaption_always_gives_a_caption None (str "   "))
    as [_ [Hblank _]].
  destruct (rewriteCaption_always_gives_a_caption None
              (str " look at this ")) as [_ [_ Hfail]].
  split.
  - apply Hblank. reflexivity.
  - apply (Hfail ltac:(vm_compute; discriminate) env_unreachable).
Defined.

Lemma default_tweet_fits :
  (length default_tweet <= 280)%nat /\ trim default_tweet = default_tweet.
Proof. split; [vm_compute; lia | reflexivity]. Qed.

Lemma tweetText_of_long :
  forall caption,
    (280 < length caption)%nat ->
    tweetText_of caption = firstn 277 caption ++ str "...".
Proof.
  intros caption H. unfold tweetText_of.
  assert (E : (280 <? length caption)%nat = true)
    by (apply Nat.ltb_lt; exact H).
  rewrite E.
  destruct (trim (firstn 277 caption ++ str "...")) eqn:Ht; [|reflexivity].
  exfalso.
  change (str "...") with ([46%N; 46%N] ++ [46%N]) in Ht.
  rewrite app_assoc in Ht.
  apply (trim_blank_end _ 46%N eq_refl) in Ht. exact Ht.
Qed.

Lemma tweetText_of_short :
  forall caption,
    (length caption <= 280)%nat ->
    tweetText_of caption =
    if is_nil (trim caption) then default_tweet else caption.
Proof.
  intros caption H. unfold tweetText_of.
  assert (E : (280 <? length caption)%nat = false)
    by (apply Nat.ltb_ge; exact H).
  rewrite E. reflexivity.
Qed.

(** X14.  The text [uploadToTwitter] posts has 280 code units at most and is
    never blank: a caption that fits and is not blank is posted as it is, a
    longer one is cut to its first 277 code units followed by three dots,
    and a blank one that fits is replaced by the default text.  The tweet
    is posted only once the file was read and the media uploaded. *)
Theorem tweet_text_fits :
  (forall caption : jsstring,
      (length (tweetText_of caption) <= 280)%nat /\
      trim (tweetText_of caption) <> [] /\
      ((length caption <= 280)%nat -> trim caption <> [] ->
       tweetText_of caption = caption) /\
      ((280 < length caption)%nat ->
       tweetText_of caption = firstn 277 caption ++ str "...") /\
      ((length caption <= 280)%nat -> trim caption = [] ->
       tweetText_of caption = default_tweet)) /\
  (forall (Buffer MediaId Tweet : Type)
          (readFile : jsstring -> Result Buffer)
          (uploadMedia : Buffer -> Result MediaId)
          (tweet : jsstring -> MediaId -> Result Tweet)
          (videoPath caption : jsstring) (posted : Tweet),
      uploadToTwitter Buffer MediaId Tweet readFile uploadMedia tweet
        videoPath caption = Ok posted ->
      exists videoBuffer mediaId,
        readFile videoPath = Ok videoBuffer /\
        uploadMedia videoBuffer = Ok mediaId /\
        tweet (tweetText_of caption) mediaId = Ok posted).
Proof.
  split.
  - intros caption.
    destruct (Nat.le_gt_cases (length caption) 280) as [Hle | Hgt].
    + rewrite (tweetText_of_short _ Hle).
      destruct (trim caption) as [|c s] eqn:Ht; cbn [is_nil].
      * destruct default_tweet_fits as [Hl Hd].
        split; [exact Hl|]. split; [rewrite Hd; discriminate|].
        split; [congruence|]. split; [lia | reflexivity].
      * split; [exact Hle|]. split; [rewrite Ht; discriminate|].
        split; [reflexivity|]. split; [lia | congruence].
    + rewrite (tweetText_of_long _ Hgt).
      split; [|split; [|split; [lia|split; [reflexivity|lia]]]].
      * rewrite length_app, firstn_length_le by lia. simpl. lia.
      * change (str "...") with ([46%N; 46%N] ++ [46%N]).
        rewrite app_assoc. apply trim_blank_end. reflexivity.
  - intros Buffer MediaId Tweet readFile uploadMedia tweet videoPath caption
      posted H.
    unfold uploadToTwitter in H.
    destruct (readFile videoPath) as [videoBuffer|e]; [|discriminate].
    destruct (uploadMedia videoBuffer) as [mediaId|e] eqn:Hm;
      [|discriminate].
    exists videoBuffer, mediaId. repeat split; assumption.
Qed.

Lemma tweet_text_fits_witness :
  tweetText_of (str "look at this") = str "look at this" /\
  exists videoBuffer mediaId,
    (fun _ : jsstring => Ok tt) (str "downloads/video.mp4")
    = Ok videoBuffer /\
    (fun _ : unit => Ok 7) videoBuffer = Ok mediaId /\
    (fun (text : jsstring) (_ : Z) => Ok text)
      (tweetText_of (str "look at this")) mediaId
    = Ok (str "look at this").
Proof.
  destruct tweet_text_fits as [Htext Hupload]. split.
  - destruct (Htext (str "look at this")) as [_ [_ [Hsame _]]].
    apply Hsame; [vm_compute; lia | vm_compute; discriminate].
  - apply (Hupload unit Z jsstring
             (fun _ => Ok tt) (fun _ => Ok 7) (fun text _ => Ok text)
             (str "downloads/video.mp4") (str "look at this")
             (str "look at this")).
    reflexivity.
Defined.

(* ------------------------------------------------------------------ *)
(** ** [downloadVideo] and the reason of its errors                     *)
(* ------------------------------------------------------------------ *)

Lemma startsWith_app :
  forall p s r, startsWith s p = true -> startsWith (s ++ r) p = true.
Proof.
  induction p as [|x p IH]; intros s r H.
  - reflexivity.
  - destruct s as [|y s]; [discriminate H|].
    simpl in *. apply andb_true_iff in H as [Hx Hp].
    rewrite Hx. simpl. apply IH. exact Hp.
Qed.

Lemma includes_app :
  forall s r sub, includes s sub = true -> includes (s ++ r) sub = true.
Proof.
  induction s as [|c s IH]; intros r sub H.
  - simpl in H. rewrite orb_false_r in H.
    destruct sub; [|destruct r; discriminate H].
    destruct r; reflexivity.
  - simpl in H. apply orb_true_iff in H as [H | H].
    + pose proof (startsWith_app sub (c :: s) r H) as H'.
      change ((c :: s) ++ r) with (c :: (s ++ r)) in *.
      cbn [includes]. rewrite H'. reflexivity.
    + change ((c :: s) ++ r) with (c :: (s ++ r)).
      cbn [includes]. rewrite (IH r sub H). apply orb_true_r.
Qed.

(** A string that lacks the first character of [sub] does not include
    [sub]. *)
Lemma includes_without_head :
  forall s c sub,
    forallb (fun x => negb (x =? c)%N) s = true ->
    includes s (c :: sub) = false.
Proof.
  induction s as [|x s IH]; intros c sub H.
  - reflexivity.
  - simpl in H. apply andb_true_iff in H as [Hx Hs].
    apply negb_true_iff in Hx.
    cbn [includes startsWith]. rewrite N.eqb_sym, Hx. simpl.
    apply IH. exact Hs.
Qed.

(** The characters of a number: digits, the minus sign and the dot. *)
Lemma uint_chars_numeric :
  forall u,
    forallb (fun c => is_digit c || (c =? 45)%N || (c =? 46)%N)
      (uint_chars u) = true.
Proof. induction u; simpl; try rewrite IHu; reflexivity. Qed.

Lemma Z_to_str_numeric :
  forall z,
    forallb (fun c => is_digit c || (c =? 45)%N || (c =? 46)%N)
      (Z_to_str z) = true.
Proof.
  intros [|p|p]; [reflexivity | apply uint_chars_numeric |].
  simpl. apply uint_chars_numeric.
Qed.

Lemma toFixed2_MB_numeric :
  forall s,
    forallb (fun c => is_digit c || (c =? 45)%N || (c =? 46)%N)
      (toFixed2_MB s) = true.
Proof.
  intros s. unfold toFixed2_MB. cbv zeta.
  set (m := pad 3 (Z_to_str ((Z.abs s * 100 + 524288) / 1048576))).
  assert (Hm : forallb (fun c => is_digit c || (c =? 45)%N || (c =? 46)%N)
                 m = true).
  { unfold m, pad. rewrite forallb_app, Z_to_str_numeric, andb_true_r.
    apply forallb_forall. intros x Hx. apply repeat_spec in Hx.
    subst x. reflexivity. }
  rewrite <- (firstn_skipn (length m - 2) m) in Hm.
  rewrite forallb_app in Hm. apply andb_true_iff in Hm as [H1 H2].
  rewrite !forallb_app, H1, H2.
  destruct (s <? 0); reflexivity.
Qed.

Lemma forallb_weaken :
  forall A (P Q : A -> bool) l,
    (forall x, P x = true -> Q x = true) ->
    forallb P l = true -> forallb Q l = true.
Proof.
  intros A P Q l H Hl. rewrite forallb_forall in *.
  intros x Hx. apply H. apply Hl. exact Hx.
Qed.

Lemma numeric_not_letter :
  forall (l : N) c,
    (58 <= l)%N ->
    is_digit c || (c =? 45)%N || (c =? 46)%N = true ->
    negb (c =? l)%N = true.
Proof.
  intros l c Hl H. apply negb_true_iff. apply N.eqb_neq. intros ->.
  unfold is_digit in H.
  apply orb_true_iff in H as [H | H];
    [apply orb_true_iff in H as [H | H]|].
  - apply andb_true_iff in H as [_ H]. apply N.leb_le in H. lia.
  - apply N.eqb_eq in H. lia.
  - apply N.eqb_eq in H. lia.
Qed.

(** The message of the error of a video that is too large has neither the
    letter [v] nor the letter [F]. *)
Lemma too_large_error_letters :
  forall s maxVideoSizeMB (l : N),
    l = 118%N \/ l = 70%N ->
    forallb (fun x => negb (x =? l)%N)
      (Err.message (too_large_error s maxVideoSizeMB)) = true.
Proof.
  intros s maxVideoSizeMB l Hl. unfold too_large_error. cbn [Err.message].
  assert (Hl58 : (58 <= l)%N) by (destruct Hl; subst; lia).
  rewrite !forallb_app.
  rewrite (forallb_weaken _ _ (fun x => negb (x =? l)%N) (toFixed2_MB s)
             (fun c => numeric_not_letter l c Hl58) (toFixed2_MB_numeric s)).
  rewrite (forallb_weaken _ _ (fun x => negb (x =? l)%N)
             (Z_to_str maxVideoSizeMB)
             (fun c => numeric_not_letter l c Hl58)
             (Z_to_str_numeric maxVideoSizeMB)).
  destruct Hl; subst l; reflexivity.
Qed.

Lemma failureReason_too_large_error :
  forall s maxVideoSizeMB,
    failureReason (too_large_error s maxVideoSizeMB)
    = str "Video file too large".
Proof.
  intros s maxVideoSizeMB. unfold failureReason. cbv zeta.
  change (str "video longer than") with (118%N :: str "ideo longer than").
  rewrite (includes_without_head _ _ _
             (too_large_error_letters s maxVideoSizeMB 118%N
                (or_introl eq_refl))).
  change (str "Forbidden") with (70%N :: str "orbidden").
  rewrite (includes_without_head _ _ _
             (too_large_error_letters s maxVideoSizeMB 70%N
                (or_intror eq_refl))).
  cbn [orb code_is Err.code too_large_error].
  assert (H : includes (Err.message (too_large_error s maxVideoSizeMB))
                (str "too large") = true).
  { unfold too_large_error. cbn [Err.message].
    apply includes_app. reflexivity. }
  rewrite H. reflexivity.
Qed.

(** X15.  [downloadVideo] refuses a message without a video and a video
    larger than the maximum before anything is downloaded, whatever the
    client would answer; the error of the first is recorded with the reason
    of an unknown upload error, the error of the second, whatever the size
    and the maximum, with the reason of a file that is too large.  A video
    within the maximum, or without a size, is downloaded to a path made of
    the identifier of the message and the time, and the error of the
    download, if any, is passed on. *)
Theorem downloadVideo_refuses_before_downloading :
  forall (maxVideoSizeMB : Z) (downloadDir : jsstring)
         (path_join : jsstring -> jsstring -> jsstring)
         (downloadMedia : Message -> jsstring -> Result unit)
         (now : jsstring) (msg : Message),
    let result :=
      downloadVideo maxVideoSizeMB downloadDir path_join downloadMedia
        now msg in
    (video msg = None ->
     result = Failed no_video_error /\
     failureReason no_video_error = str "Unknown upload error") /\
    (forall v s,
        video msg = Some v -> size v = Some s ->
        maxVideoSizeMB * 1048576 < s ->
        result = Failed (too_large_error s maxVideoSizeMB) /\
        failureReason (too_large_error s maxVideoSizeMB)
        = str "Video file too large") /\
    (forall v,
        video msg = Some v ->
        (forall s, size v = Some s -> s <= maxVideoSizeMB * 1048576) ->
        let filepath :=
          path_join downloadDir
            (str "video_" ++ Z_to_str (id msg) ++ str "_" ++ dashed now ++
             str ".mp4") in
        result = match downloadMedia msg filepath with
                 | Ok _ => Ok filepath
                 | Failed e => Failed e
                 end).
Proof.
  intros maxVideoSizeMB downloadDir path_join downloadMedia now msg result.
  subst result. unfold downloadVideo. split; [|split].
  - intros Hv. rewrite Hv. split; reflexivity.
  - intros v s Hv Hs Hbig. rewrite Hv. unfold exceeds. rewrite Hs.
    assert (E : (maxVideoSizeMB * 1048576 <? s) = true)
      by (apply Z.ltb_lt; exact Hbig).
    rewrite E. split; [reflexivity|].
    apply failureReason_too_large_error.
  - intros v Hv Hs. rewrite Hv. unfold exceeds.
    destruct (size v) as [s|]; [|reflexivity].
    assert (E : (maxVideoSizeMB * 1048576 <? s) = false)
      by (apply Z.ltb_ge; apply Hs; reflexivity).
    rewrite E. reflexivity.
Qed.

Lemma downloadVideo_refuses_before_downloading_witness :
  let result :=
    downloadVideo 50 (str "./downloads")
      (fun dir file => dir ++ str "/" ++ file) (fun _ _ => Ok tt)
      clock_reading big_video in
  result = Failed (too_large_error 62914560 50) /\
  Err.message (too_large_error 62914560 50)
  = str "Video too large: 60.00MB (max: 50MB)" /\
  failureReason (too_large_error 62914560 50) = str "Video file too large".
Proof.
  intros result.
  destruct (downloadVideo_refuses_before_downloading 50 (str "./downloads")
              (fun dir file => dir ++ str "/" ++ file) (fun _ _ => Ok tt)
              clock_reading big_video) as [_ [Hbig _]].
  destruct (Hbig {| size := Some 62914560; duration := Some 10 |} 62914560
              eq_refl eq_refl ltac:(reflexivity)) as [H1 H2].
  split; [exact H1|]. split; [reflexivity | exact H2].
Defined.

(* ------------------------------------------------------------------ *)
(** ** When two fingerprints are the same                               *)
(* ------------------------------------------------------------------ *)

Lemma uint_chars_inj :
  forall u v, uint_chars u = uint_chars v -> u = v.
Proof.
  intros u v H. apply (f_equal chars_uint) in H.
  rewrite !chars_uint_uint_chars in H. exact H.
Qed.

Lemma N_to_str_inj : forall a b, N_to_str a = N_to_str b -> a = b.
Proof.
  intros a b H. unfold N_to_str in H. apply uint_chars_inj in H.
  apply (f_equal N.of_uint) in H.
  rewrite !DecimalN.Unsigned.of_to in H. exact H.
Qed.

Lemma N_to_str_not_minus :
  forall n r, N_to_str n <> 45%N :: r.
Proof.
  intros n r H. destruct (N_to_str_head n) as [d [ds [E Hd]]].
  rewrite E in H. inversion H; subst d. discriminate Hd.
Qed.

Lemma Z_to_str_inj : forall a b, Z_to_str a = Z_to_str b -> a = b.
Proof.
  intros a b H.
  assert (H0 : str "0" = N_to_str 0) by reflexivity.
  destruct a as [|p|p], b as [|q|q]; cbn [Z_to_str] in H;
    try reflexivity.
  - rewrite H0 in H. apply N_to_str_inj in H. discriminate H.
  - discriminate H.
  - rewrite H0 in H. apply N_to_str_inj in H. discriminate H.
  - apply N_to_str_inj in H. congruence.
  - exfalso. apply (N_to_str_not_minus _ _ H).
  - discriminate H.
  - exfalso. symmetry in H. apply (N_to_str_not_minus _ _ H).
  - injection H as H. apply N_to_str_inj in H. congruence.
Qed.

(** Two strings cut at the first occurrence of a mark are equal part by
    part. *)
Lemma split_at_mark :
  forall (c : N) a a' r r',
    forallb (fun x => negb (x =? c)%N) a = true ->
    forallb (fun x => negb (x =? c)%N) a' = true ->
    a ++ c :: r = a' ++ c :: r' ->
    a = a' /\ r = r'.
Proof.
  intros c. induction a as [|x a IH]; intros a' r r' Ha Ha' H.
  - destruct a' as [|y a'].
    + injection H as H. split; [reflexivity | exact H].
    + simpl in H. injection H as Hy _. subst y. simpl in Ha'.
      rewrite N.eqb_refl in Ha'. discriminate Ha'.
  - destruct a' as [|y a'].
    + simpl in H. injection H as Hx _. subst x. simpl in Ha.
      rewrite N.eqb_refl in Ha. discriminate Ha.
    + simpl in H. injection H as Hx H. subst y.
      simpl in Ha, Ha'.
      apply andb_true_iff in Ha as [_ Ha].
      apply andb_true_iff in Ha' as [_ Ha'].
      destruct (IH a' r r' Ha Ha' H) as [-> ->].
      split; reflexivity.
Qed.

Lemma Z_to_str_no_underscore :
  forall z, forallb (fun x => negb (x =? 95)%N) (Z_to_str z) = true.
Proof.
  intros z.
  apply (forallb_weaken _ _ _ _
           (fun c => numeric_not_letter 95%N c ltac:(lia))
           (Z_to_str_numeric z)).
Qed.

Lemma peer_text_cases :
  forall m, peer_text m = str "unknown" \/ exists z, peer_text m = Z_to_str z.
Proof.
  intros m. unfold peer_text. rewrite !optChain_prop.
  generalize (match peerId m with Some a => channelId a | None => None end)
             (match peerId m with Some a => chatId a | None => None end)
             (match peerId m with Some a => userId a | None => None end).
  intros a b c. unfold jor.
  destruct a as [x|]; simpl; [destruct (x =? 0); simpl|];
    try (right; eexists; reflexivity);
    (destruct b as [y|]; simpl; [destruct (y =? 0); simpl|];
     try (right; eexists; reflexivity);
     (destruct c as [w|]; simpl; [destruct (w =? 0); simpl|];
      try (right; eexists; reflexivity); left; reflexivity)).
Qed.

Lemma peer_text_no_underscore :
  forall m, forallb (fun x => negb (x =? 95)%N) (peer_text m) = true.
Proof.
  intros m. destruct (peer_text_cases m) as [-> | [z ->]].
  - reflexivity.
  - apply Z_to_str_no_underscore.
Qed.

Lemma or_zero_text :
  forall x : option Z,
    toStr (jor (prop x) (VNum 0))
    = Z_to_str (match x with Some z => z | None => 0 end).
Proof.
  intros [z|]; [|reflexivity]. unfold jor, prop, truthy.
  destruct (z =? 0) eqn:E; simpl; [|reflexivity].
  apply Z.eqb_eq in E. subst z. reflexivity.
Qed.

(** The fingerprint is made of the five segments. *)
Lemma generateVideoId_segments :
  forall m,
    generateVideoId m =
    fingerprint_of (peer_text m) (id m) (date m) (size_or_zero m)
      (duration_or_zero m).
Proof.
  intros m. unfold generateVideoId, fingerprint_of, peer_text,
    size_or_zero, duration_or_zero.
  cbv zeta. rewrite !(optChain_prop _ (video m)), !or_zero_text.
  cbn [toStr]. destruct (video m) as [v|]; reflexivity.
Qed.

(** X16.  Two messages have the same fingerprint exactly when they agree on
    all five segments: the text of the peer, the identifier of the message,
    its date, and the size and the duration of the video with zero for a
    missing one.  Messages with different identifiers never share a
    fingerprint. *)
Theorem fingerprints_agree_on_equal_segments_only :
  forall m1 m2 : Message,
    generateVideoId m1 = generateVideoId m2 <->
    peer_text m1 = peer_text m2 /\
    id m1 = id m2 /\
    date m1 = date m2 /\
    size_or_zero m1 = size_or_zero m2 /\
    duration_or_zero m1 = duration_or_zero m2.
Proof.
  intros m1 m2. rewrite !generateVideoId_segments. unfold fingerprint_of.
  change underscore with [95%N]. split.
  - intros H. cbn [app] in H.
    apply split_at_mark in H as [Hp H];
      try apply peer_text_no_underscore.
    apply split_at_mark in H as [Hi H];
      try apply Z_to_str_no_underscore.
    apply split_at_mark in H as [Hd H];
      try apply Z_to_str_no_underscore.
    apply split_at_mark in H as [Hs H];
      try apply Z_to_str_no_underscore.
    repeat split; try assumption; apply Z_to_str_inj; assumption.
  - intros [-> [-> [-> [-> ->]]]]. reflexivity.
Qed.

(* ------------------------------------------------------------------ *)
(** ** The context window                                               *)
(* ------------------------------------------------------------------ *)

Lemma In_insert_by_id :
  forall x y l, In y (insert_by_id x l) <-> y = x \/ In y l.
Proof.
  intros x y. induction l as [|z l IH]; simpl.
  - split; intros [H | H]; auto.
  - destruct (Ctx.id x <=? Ctx.id z); simpl.
    + split; intros [H | H]; auto.
    + rewrite IH. split; intros H; tauto.
Qed.

Lemma In_sort_by_id :
  forall y l, In y (sort_by_id l) <-> In y l.
Proof.
  intros y. induction l as [|x l IH]; simpl.
  - reflexivity.
  - rewrite In_insert_by_id, IH. split; intros [H | H]; auto.
Qed.

Lemma length_insert_by_id :
  forall x l, length (insert_by_id x l) = S (length l).
Proof.
  intros x. induction l as [|z l IH]; simpl.
  - reflexivity.
  - destruct (Ctx.id x <=? Ctx.id z); simpl; [reflexivity|].
    rewrite IH. reflexivity.
Qed.

Lemma length_sort_by_id :
  forall l, length (sort_by_id l) = length l.
Proof.
  induction l as [|x l IH]; simpl.
  - reflexivity.
  - rewrite length_insert_by_id, IH. reflexivity.
Qed.

Lemma ordered_insert_by_id :
  forall x l,
    ordered_by_id l = true -> ordered_by_id (insert_by_id x l) = true.
Proof.
  intros x. induction l as [|z l IH]; intros H.
  - reflexivity.
  - simpl in H. apply andb_true_iff in H as [Hz Hl].
    simpl. destruct (Ctx.id x <=? Ctx.id z) eqn:E.
    + cbn [ordered_by_id forallb]. rewrite E, Hz, Hl. simpl.
      rewrite andb_true_r. apply forallb_forall. intros y Hy.
      rewrite forallb_forall in Hz. specialize (Hz y Hy).
      apply Z.leb_le in E. apply Z.leb_le in Hz. apply Z.leb_le. lia.
    + cbn [ordered_by_id]. rewrite (IH Hl), andb_true_r.
      apply forallb_forall. intros y Hy.
      apply In_insert_by_id in Hy as [-> | Hy].
      * apply Z.leb_gt in E. apply Z.leb_le. lia.
      * rewrite forallb_forall in Hz. apply Hz. exact Hy.
Qed.

Lemma ordered_sort_by_id :
  forall l, ordered_by_id (sort_by_id l) = true.
Proof.
  induction l as [|x l IH]; simpl.
  - reflexivity.
  - apply ordered_insert_by_id. exact IH.
Qed.

Lemma length_kept :
  forall (keep : option Message -> bool) l,
    (length (flat_map (fun msg => match msg with
                                  | Some m => if keep msg then [m] else []
                                  | None => []
                                  end) l) <= length l)%nat.
Proof.
  intros keep. induction l as [|[m|] l IH]; simpl.
  - lia.
  - destruct (keep (Some m)); simpl; lia.
  - lia.
Qed.

Lemma In_kept :
  forall (keep : option Message -> bool) l m,
    In m (flat_map (fun msg => match msg with
                               | Some m => if keep msg then [m] else []
                               | None => []
                               end) l) <->
    In (Some m) l /\ keep (Some m) = true.
Proof.
  intros keep l m. rewrite in_flat_map. split.
  - intros [[x|] [Hin H]]; [|destruct H].
    destruct (keep (Some x)) eqn:Hk; [|destruct H].
    destruct H as [-> | []]. split; assumption.
  - intros [Hin Hk]. exists (Some m). split; [exact Hin|].
    rewrite Hk. left. reflexivity.
Qed.

(** X17.  The context window holds, in the order of their identifiers, the
    fetched messages that are not the video itself and whose text is not
    blank, and nothing else: every entry is made from such a message, with
    its text trimmed, the distance in time to the video as a number that is
    not negative, and the position [before] exactly when its identifier is
    smaller than that of the video; every such message has its entry. *)
Theorem context_window_is_clean :
  forall (videoMessage : Message) (surrounding : list (option Message)),
    let window := contextMessages_of videoMessage surrounding in
    ordered_by_id window = true /\
    (length window <= length surrounding)%nat /\
    (forall entry,
        In entry window ->
        exists m t,
          In (Some m) surrounding /\
          entry = context_of videoMessage m /\
          id m <> id videoMessage /\
          message m = Some t /\
          Ctx.text entry = trim t /\
          trim t <> [] /\
          0 <= Ctx.timeDiff entry /\
          (Ctx.position entry = before <-> Ctx.id entry < id videoMessage)) /\
    (forall m,
        In (Some m) surrounding ->
        keeps videoMessage (Some m) = true ->
        In (context_of videoMessage m) window).
Proof.
  intros videoMessage surrounding window. subst window.
  unfold contextMessages_of. cbv zeta.
  split; [apply ordered_sort_by_id|].
  split; [rewrite length_sort_by_id, length_map; apply length_kept|].
  split.
  - intros entry Hin. apply (proj1 (In_sort_by_id _ _)) in Hin.
    apply in_map_iff in Hin as [m [<- Hin]].
    apply In_kept in Hin as [Hin Hk]. simpl in Hk.
    apply andb_true_iff in Hk as [Hid Ht].
    destruct (message m) as [t|] eqn:Hm; [|discriminate Ht].
    apply andb_true_iff in Ht as [_ Ht].
    exists m, t. split; [exact Hin|]. split; [reflexivity|].
    split; [apply negb_true_iff in Hid; apply Z.eqb_neq; exact Hid|].
    split; [exact Hm|].
    unfold context_of. cbn [Ctx.text Ctx.timeDiff Ctx.position Ctx.id].
    rewrite Hm. split; [reflexivity|].
    split; [destruct (trim t); [discriminate Ht | discriminate]|].
    split; [apply Z.abs_nonneg|].
    destruct (id m <? id videoMessage) eqn:E.
    + apply Z.ltb_lt in E. split; [intros _; exact E | reflexivity].
    + apply Z.ltb_ge in E. split; [discriminate | lia].
  - intros m Hin Hk. apply In_sort_by_id. apply in_map.
    apply In_kept. split; assumption.
Qed.

Lemma context_window_is_clean_witness :
  let window :=
    contextMessages_of silent_video
      [Some silent_video; None; Some message_before] in
  (length window <= 3)%nat /\
  In (context_of silent_video message_before) window /\
  exists m t,
    In (Some m) [Some silent_video; None; Some message_before] /\
    context_of silent_video message_before = context_of silent_video m /\
    id m <> id silent_video /\
    message m = Some t /\
    Ctx.text (context_of silent_video message_before) = trim t /\
    trim t <> [] /\
    0 <= Ctx.timeDiff (context_of silent_video message_before) /\
    (Ctx.position (context_of silent_video message_before) = before <->
     Ctx.id (context_of silent_video message_before) < id silent_video).
Proof.
  intros window.
  destruct (context_window_is_clean silent_video
              [Some silent_video; None; Some message_before])
    as [_ [Hlen [Hentry Hall]]].
  split; [exact Hlen|].
  assert (Hin : In (context_of silent_video message_before) window).
  { apply Hall; [right; right; left; reflexivity | reflexivity]. }
  split; [exact Hin|]. apply (Hentry _ Hin).
Defined.

(* ------------------------------------------------------------------ *)
(** ** The answer of the ranking model, cleaned                         *)
(* ------------------------------------------------------------------ *)

Lemma endsWith_last :
  forall s c, endsWith (s ++ [c]) [c] = true.
Proof.
  intros s c. unfold endsWith. rewrite rev_app_distr. simpl.
  rewrite N.eqb_refl. reflexivity.
Qed.

Lemma slice_1_m1_between :
  forall c t d, slice_1_m1 (c :: t ++ [d]) = t.
Proof. intros c t d. simpl. apply removelast_last. Qed.

(** X18.  An answer that, once trimmed, stands between two double quotes
    or between two single quotes is read as the text between them, trimmed
    again; one pair of quotes is removed, not more. *)
Theorem quoted_answer_is_read_without_its_quotes :
  forall (content t : jsstring) (q : jsstring),
    q = dquote \/ q = squote ->
    trim content = q ++ t ++ q ->
    clean_response content = trim t.
Proof.
  intros content t q Hq Ht. unfold clean_response. cbv zeta. rewrite Ht.
  destruct Hq as [-> | ->].
  - change (dquote ++ t ++ dquote) with (34%N :: t ++ [34%N]).
    assert (E : endsWith (34%N :: t ++ [34%N]) dquote = true)
      by (apply (endsWith_last (34%N :: t) 34%N)).
    rewrite E. cbn [startsWith N.eqb Pos.eqb andb orb].
    rewrite slice_1_m1_between. reflexivity.
  - change (squote ++ t ++ squote) with (39%N :: t ++ [39%N]).
    assert (E : endsWith (39%N :: t ++ [39%N]) squote = true)
      by (apply (endsWith_last (39%N :: t) 39%N)).
    rewrite E.
    assert (E' : endsWith (39%N :: t ++ [39%N]) dquote = false).
    { unfold endsWith. change (39%N :: t ++ [39%N])
        with ((39%N :: t) ++ [39%N]).
      rewrite rev_app_distr. reflexivity. }
    rewrite E'. cbn [startsWith N.eqb Pos.eqb andb orb squote].
    rewrite slice_1_m1_between. reflexivity.
Qed.

Lemma quoted_answer_is_read_without_its_quotes_witness :
  clean_response (32%N :: dquote ++ str " look at this" ++ dquote ++ [10%N])
  = str "look at this".
Proof.
  apply (quoted_answer_is_read_without_its_quotes _ (str " look at this")
           dquote).
  - left. reflexivity.
  - reflexivity.
Defined.

(* ------------------------------------------------------------------ *)
(** ** The record of a failure, read back                               *)
(* ------------------------------------------------------------------ *)

(** X19.  The text [addFailedVideo] stores for a failure is read back by
    [JSON.parse] as a record with the four fields it was made from, for
    every identifier, reason, time and error message, whatever characters
    they hold: quotes, control characters and lone surrogates included. *)
Theorem failure_record_reads_back :
  forall (videoId reason timestamp : jsstring) (error : option Err.Error),
    exists record,
      JSON_parse (stringify (failureRecord videoId reason timestamp error))
      = Some record /\
      member record (str "videoId") = Some (Some (JStr videoId)) /\
      member record (str "reason") = Some (Some (JStr reason)) /\
      member record (str "timestamp") = Some (Some (JStr timestamp)) /\
      member record (str "error")
      = Some (Some match error with
                   | Some e => JStr (Err.message e)
                   | None => JNull
                   end).
Proof.
  intros videoId reason timestamp error.
  exists (failureRecord videoId reason timestamp error).
  split; [apply JSON_parse_failureRecord|].
  repeat split; reflexivity.
Qed.

(* ------------------------------------------------------------------ *)
(** ** The caption is trimmed                                           *)
(* ------------------------------------------------------------------ *)

Lemma trimStart_head_kept :
  forall s c r, trimStart s = c :: r -> isWhiteSpace c = false.
Proof.
  induction s as [|x s IH]; intros c r H; simpl in H.
  - discriminate H.
  - destruct (isWhiteSpace x) eqn:Hx.
    + apply (IH _ _ H).
    + inversion H; subst. exact Hx.
Qed.

(** [trimEnd] keeps a beginning of the string, and what it keeps does not
    end with white space. *)
Lemma trimEnd_prefix :
  forall s, exists ws, s = trimEnd s ++ ws.
Proof.
  intros s. unfold trimEnd.
  destruct (trimStart_suffix (rev s)) as [ws [E _]].
  exists (rev ws). rewrite <- rev_app_distr, <- E. symmetry.
  apply rev_involutive.
Qed.

Lemma trimEnd_last :
  forall s r d, trimEnd s = r ++ [d] -> isWhiteSpace d = false.
Proof.
  intros s r d H. unfold trimEnd in H.
  apply (f_equal (@rev N)) in H.
  rewrite rev_involutive, rev_app_distr in H. simpl in H.
  apply (trimStart_head_kept _ _ _ H).
Qed.

Lemma trim_idempotent : forall s, trim (trim s) = trim s.
Proof.
  intros s. destruct (trim s) as [|c r] eqn:Ht; [reflexivity|].
  assert (Hlast : exists r' d, c :: r = r' ++ [d]).
  { destruct (exists_last (l := c :: r)) as [r' [d E]]; [discriminate|].
    exists r', d. exact E. }
  destruct Hlast as [r' [d Hlast]].
  apply (trim_fixed (c :: r) c d).
  - unfold trim in Ht.
    destruct (trimEnd_prefix (trimStart s)) as [ws E].
    rewrite Ht in E. simpl in E.
    apply (trimStart_head_kept s c (r ++ ws)). exact E.
  - unfold trim in Ht. rewrite Hlast in Ht.
    apply (trimEnd_last _ _ _ Ht).
  - exists r. reflexivity.
  - exists r'. exact Hlast.
Qed.

Lemma clean_response_trimmed :
  forall content, trim (clean_response content) = clean_response content.
Proof.
  intros content. unfold clean_response. cbv zeta.
  match goal with
  | |- context [if ?b then _ else _] => destruct b
  end; apply trim_idempotent.
Qed.

Lemma window_text_trimmed :
  forall videoMessage surrounding entry,
    In entry (contextMessages_of videoMessage surrounding) ->
    trim (Ctx.text entry) = Ctx.text entry.
Proof.
  intros videoMessage surrounding entry Hin.
  unfold contextMessages_of in Hin. cbv zeta in Hin.
  apply (proj1 (In_sort_by_id _ _)) in Hin.
  apply in_map_iff in Hin as [m [<- _]].
  unfold context_of. cbn [Ctx.text].
  destruct (message m); [apply trim_idempotent | reflexivity].
Qed.

Lemma fallback_caption_trimmed :
  forall videoMessage surrounding,
    trim (fallback_caption videoMessage
            (contextMessages_of videoMessage surrounding))
    = fallback_caption videoMessage
        (contextMessages_of videoMessage surrounding).
Proof.
  intros videoMessage surrounding. unfold fallback_caption.
  destruct (find (fallback_candidate videoMessage)
              (contextMessages_of videoMessage surrounding))
    as [entry|] eqn:Hf; [|reflexivity].
  apply find_some in Hf as [Hin _].
  apply (window_text_trimmed _ _ _ Hin).
Qed.

Lemma window_caption_trimmed :
  forall env videoMessage surrounding,
    let window := contextMessages_of videoMessage surrounding in
    let caption :=
      if is_nil window then []
      else match ranked env videoMessage window with
           | Some content => select_caption videoMessage window content
           | None => fallback_caption videoMessage window
           end in
    trim caption = caption.
Proof.
  intros env videoMessage surrounding. cbv zeta.
  destruct (is_nil (contextMessages_of videoMessage surrounding));
    [reflexivity|].
  destruct (ranked env videoMessage
              (contextMessages_of videoMessage surrounding))
    as [content|]; [|apply fallback_caption_trimmed].
  unfold select_caption. cbv zeta.
  destruct (str_eqb (clean_response content) (str "NONE")
            || is_nil (clean_response content)); [reflexivity|].
  destruct (find (matches_entry (clean_response content))
              (contextMessages_of videoMessage surrounding));
    [apply clean_response_trimmed | apply fallback_caption_trimmed].
Qed.

(** X20.  The caption [extractVideoCaption] returns is always trimmed: it
    is empty, or it begins and ends with a character that is not white
    space, whether it is the own text of the video, the answer of the
    ranking model or the text of a surrounding message.  The [trim] of
    [rewriteCaption] leaves it as it is. *)
Theorem extractVideoCaption_gives_a_trimmed_caption :
  forall (env : Env) (st : Poster) (videoMessage : Message),
    exists caption,
      exec env (extractVideoCaption st videoMessage) = Returned caption /\
      trim caption = caption.
Proof.
  intros env st videoMessage. eexists. split.
  - apply exec_extractVideoCaption.
  - assert (Hown : forall caption,
               own_caption videoMessage = Some caption ->
               trim caption = caption).
    { intros caption H. unfold own_caption in H.
      destruct (message videoMessage) as [t|]; [|discriminate H].
      destruct (nonempty t && nonempty (trim t)); [|discriminate H].
      inversion H. apply trim_idempotent. }
    destruct (own_caption videoMessage) as [caption|];
      [apply Hown; reflexivity|].
    destruct (env _ (GetEntity (groupName st))) as [entity|e];
      [|reflexivity].
    destruct (env _ (GetMessages entity (messageIds_of videoMessage)))
      as [surrounding|e]; [|reflexivity].
    apply window_caption_trimmed.
Qed.





(* ------------------------------------------------------------------ *)
(** ** The offset counts batches                                        *)
(* ------------------------------------------------------------------ *)






(* ------------------------------------------------------------------ *)
(** ** The maximum size of a video                                      *)
(* ------------------------------------------------------------------ *)









(* ------------------------------------------------------------------ *)
(** ** The prompt of the ranking call                                   *)
(* ------------------------------------------------------------------ *)

Lemma startsWith_here :
  forall p r, startsWith (p ++ r) p = true.
Proof.
  induction p as [|x p IH]; intros r.
  - reflexivity.
  - simpl. rewrite N.eqb_refl. apply IH.
Qed.

Lemma includes_here :
  forall sub r, includes (sub ++ r) sub = true.
Proof.
  intros sub r.
  destruct (sub ++ r) as [|c s] eqn:E.
  - destruct sub; [reflexivity | discriminate E].
  - cbn [includes]. rewrite <- E, startsWith_here. reflexivity.
Qed.

Lemma includes_after :
  forall a s sub, includes s sub = true -> includes (a ++ s) sub = true.
Proof.
  induction a as [|c a IH]; intros s sub H.
  - exact H.
  - change ((c :: a) ++ s) with (c :: (a ++ s)). cbn [includes].
    rewrite (IH s sub H). apply orb_true_r.
Qed.

Lemma includes_between :
  forall a sub b, includes (a ++ sub ++ b) sub = true.
Proof. intros a sub b. apply includes_after. apply includes_here. Qed.

Lemma join_holds :
  forall sep (parts : list jsstring) x,
    In x parts -> exists a b, join sep parts = a ++ x ++ b.
Proof.
  intros sep. induction parts as [|p parts IH]; intros x Hin.
  - destruct Hin.
  - destruct parts as [|q parts].
    + destruct Hin as [-> | []]. exists [], []. cbn [join app].
      symmetry. apply app_nil_r.
    + rewrite join_more. destruct Hin as [-> | Hin].
      * exists [], (sep ++ join sep (q :: parts)). reflexivity.
      * destruct (IH x Hin) as [a [b E]]. rewrite E.
        exists (p ++ sep ++ a), b. repeat rewrite <- app_assoc.
        reflexivity.
Qed.

(** X24.  The prompt of the ranking call leaves no entry of the window out:
    when the date of the video can be written, the prompt holds the line of
    every entry, with its identifier, its position, its distance in seconds
    and its text between double quotes.  The text of an entry is put in as
    it is, quotes and line breaks included. *)
Theorem prompt_lists_every_entry :
  forall (videoMessage : Message) (window : list Ctx.ContextMessage)
         (prompt : jsstring) (entry : Ctx.ContextMessage),
    prompt_of videoMessage window = Some prompt ->
    In entry window ->
    includes prompt
      (str "Message " ++ Z_to_str (Ctx.id entry) ++ str " (" ++
       position_text (Ctx.position entry) ++ str " video, " ++
       Z_to_str (Ctx.timeDiff entry) ++ str "s apart): " ++
       dquote ++ Ctx.text entry ++ dquote) = true.
Proof.
  intros videoMessage window prompt entry Hp Hin.
  unfold prompt_of in Hp. cbv zeta in Hp.
  destruct (toISOString (date videoMessage * 1000)) as [videoDate|];
    [|discriminate Hp].
  cbn [bind_opt] in Hp.
  apply (f_equal (fun o : option jsstring =>
                    match o with Some x => x | None => [] end)) in Hp.
  cbv beta iota in Hp. subst prompt.
  destruct (join_holds newline (map context_line window)
              (context_line entry) (in_map context_line _ _ Hin))
    as [a [b E]].
  rewrite E. fold (context_line entry).
  do 5 apply includes_after.
  repeat rewrite <- app_assoc. apply includes_between.
Qed.

Lemma prompt_lists_every_entry_witness :
  exists prompt,
    prompt_of silent_video
      (contextMessages_of silent_video [Some message_before])
    = Some prompt /\
    includes prompt
      (str "Message 9 (before video, 10s apart): " ++ dquote ++
       str "look at this" ++ dquote) = true.
Proof.
  destruct (prompt_of silent_video
              (contextMessages_of silent_video [Some message_before]))
    as [prompt|] eqn:Hp; [|vm_compute in Hp; discriminate Hp].
  exists prompt. split; [reflexivity|].
  apply (prompt_lists_every_entry silent_video
           (contextMessages_of silent_video [Some message_before])
           prompt (context_of silent_video message_before) Hp).
  left. reflexivity.
Defined.
